(** * waypointjs: waypoint store, bounded history, event bus, geometry and
      the RoutePlanner coordinator, embedded from the TypeScript sources.

    Conventions of the embedding.
    - A JavaScript [number] holding a coordinate, a distance or a fraction is
      an IEEE 754 binary64 value: Rocq's primitive [float].
    - A [number] used as an array index, a count, a size or a clock reading is
      an integer [Z]; the sources compare and index with them, negative
      values included, and the JavaScript treatment of negative positions in
      [slice] and [splice] is written out.
    - [Date.now()] and [Math.random()] are inputs: every operation that reads
      them takes the value read as an argument.
    - [null] and [undefined] results are [None].
    - An [async] method is the function from the state before the call to
      the state after it, given how the awaited directions source settles:
      calls run one at a time, each to completion. *)

From Stdlib Require Import ZArith Floats Lia.
From stdpp Require Import base option list strings gmap.

Local Open Scope Z_scope.

(** ** JavaScript array primitives used by the sources *)

Module Js.

(** Relative position of [Array.prototype.slice] / [splice]:
    a negative [k] counts from the end, and the result is clamped to
    [0 .. len]. *)
Definition rel (k : Z) (len : nat) : nat :=
  if k <? 0 then Z.to_nat (Z.max (Z.of_nat len + k) 0)
  else Z.to_nat (Z.min k (Z.of_nat len)).

(** [arr.slice(start, end)] *)
Definition slice {A} (start stop : Z) (l : list A) : list A :=
  let s := rel start (length l) in
  let e := rel stop (length l) in
  take (e - s)%nat (drop s l).

(** [arr.slice(start)] *)
Definition slice_from {A} (start : Z) (l : list A) : list A :=
  drop (rel start (length l)) l.

(** [arr.splice(start, deleteCount, ...items)]: the removed elements and
    the array afterwards. *)
Definition splice {A} (start : Z) (deleteCount : Z) (items : list A)
    (l : list A) : list A * list A :=
  let s := rel start (length l) in
  let d := Z.to_nat (Z.min (Z.max deleteCount 0) (Z.of_nat (length l - s))) in
  (take d (drop s l), take s l ++ items ++ drop (s + d) l).

(** [arr[i]] *)
Definition get {A} (l : list A) (i : Z) : option A :=
  if i <? 0 then None else l !! Z.to_nat i.

(** [arr.findIndex(p)] *)
Fixpoint findIndex_from {A} (p : A -> bool) (l : list A) (i : Z) : Z :=
  match l with
  | [] => -1
  | x :: r => if p x then i else findIndex_from p r (i + 1)
  end.

Definition findIndex {A} (p : A -> bool) (l : list A) : Z :=
  findIndex_from p l 0.

(** [arr.find(p)] *)
Fixpoint find {A} (p : A -> bool) (l : list A) : option A :=
  match l with
  | [] => None
  | x :: r => if p x then Some x else find p r
  end.

End Js.

(** ** types.ts *)

Record Coordinate := mkCoordinate {
  longitude : float;
  latitude : float
}.

Record Waypoint := mkWaypoint {
  wp_id : string;
  wp_index : Z;
  wp_longitude : float;
  wp_latitude : float;
  wp_name : option string;
  wp_createdAt : Z
}.

Inductive HistoryAction :=
  | ActAdd | ActRemove | ActUpdate | ActReorder | ActClear.

Record HistoryEntry := mkHistoryEntry {
  he_waypoints : list Waypoint;
  he_timestamp : Z;
  he_action : HistoryAction
}.

(** ** infrastructure/WaypointRepository.ts *)

Module WaypointRepository.

(** The repository's only field is [waypoints]. *)
Abbreviation t := (list Waypoint).

Definition empty : t := [].

(** [{ ...wp, index }] *)
Definition with_index (i : nat) (wp : Waypoint) : Waypoint :=
  mkWaypoint (wp_id wp) (Z.of_nat i) (wp_longitude wp) (wp_latitude wp)
             (wp_name wp) (wp_createdAt wp).

(** [{ ...wp, longitude, latitude }] *)
Definition with_coordinate (c : Coordinate) (wp : Waypoint) : Waypoint :=
  mkWaypoint (wp_id wp) (wp_index wp) (longitude c) (latitude c)
             (wp_name wp) (wp_createdAt wp).

Definition reindex (ws : t) : t := imap with_index ws.

Definition getAll (ws : t) : list Waypoint := ws.

Definition getById (id : string) (ws : t) : option Waypoint :=
  Js.find (fun wp => String.eqb (wp_id wp) id) ws.

Definition getByIndex (i : Z) (ws : t) : option Waypoint := Js.get ws i.

(** [newId] is the value of [generateId()], [now] of [Date.now()]. *)
Definition add (c : Coordinate) (name : option string) (newId : string)
    (now : Z) (ws : t) : Waypoint * t :=
  let waypoint :=
    mkWaypoint newId (Z.of_nat (length ws)) (longitude c) (latitude c)
               name now in
  (waypoint, ws ++ [waypoint]).

Definition insert (c : Coordinate) (index : Z) (name : option string)
    (newId : string) (now : Z) (ws : t) : Waypoint * t :=
  let clampedIndex := Z.max 0 (Z.min index (Z.of_nat (length ws))) in
  let waypoint :=
    mkWaypoint newId clampedIndex (longitude c) (latitude c) name now in
  (waypoint, reindex (snd (Js.splice clampedIndex 0 [waypoint] ws))).

Definition remove (id : string) (ws : t) : option Waypoint * t :=
  let index := Js.findIndex (fun wp => String.eqb (wp_id wp) id) ws in
  if index =? -1 then (None, ws)
  else
    let '(removed, ws') := Js.splice index 1 [] ws in
    (head removed, reindex ws').

Definition update (id : string) (c : Coordinate) (ws : t)
    : option Coordinate * t :=
  let index := Js.findIndex (fun wp => String.eqb (wp_id wp) id) ws in
  if index =? -1 then (None, ws)
  else
    match Js.get ws index with
    | Some old =>
        (Some (mkCoordinate (wp_longitude old) (wp_latitude old)),
         <[Z.to_nat index := with_coordinate c old]> ws)
    | None => (None, ws)
    end.

Definition reorder (fromIndex toIndex : Z) (ws : t) : bool * t :=
  if (fromIndex <? 0) || (Z.of_nat (length ws) <=? fromIndex)
     || (toIndex <? 0) || (Z.of_nat (length ws) <=? toIndex)
  then (false, ws)
  else
    let '(removed, ws1) := Js.splice fromIndex 1 [] ws in
    let ws2 := snd (Js.splice toIndex 0 removed ws1) in
    (true, reindex ws2).

Definition setAll (waypoints : list Waypoint) (ws : t) : t :=
  imap with_index waypoints.

Definition count (ws : t) : Z := Z.of_nat (length ws).

Definition clear (ws : t) : t := [].

(** The index invariant of the data model: the [index] fields, read in list
    order, are [0, 1, ..., count - 1]. *)
Definition index_invariant (ws : t) : Prop :=
  wp_index <$> ws = Z.of_nat <$> seq 0 (length ws).

(** One call on the repository, with the values it reads from the
    environment. *)
Inductive Op :=
  | OpAdd (c : Coordinate) (name : option string) (newId : string) (now : Z)
  | OpInsert (c : Coordinate) (index : Z) (name : option string)
             (newId : string) (now : Z)
  | OpRemove (id : string)
  | OpUpdate (id : string) (c : Coordinate)
  | OpReorder (fromIndex toIndex : Z)
  | OpSetAll (waypoints : list Waypoint)
  | OpClear.

Definition step (ws : t) (op : Op) : t :=
  match op with
  | OpAdd c name newId now => snd (add c name newId now ws)
  | OpInsert c index name newId now => snd (insert c index name newId now ws)
  | OpRemove id => snd (remove id ws)
  | OpUpdate id c => snd (update id c ws)
  | OpReorder f t => snd (reorder f t ws)
  | OpSetAll wps => setAll wps ws
  | OpClear => clear ws
  end.

(** The repository states seen after each call of a sequence, first to last. *)
Fixpoint states (ws : t) (ops : list Op) : list t :=
  match ops with
  | [] => []
  | op :: rest => step ws op :: states (step ws op) rest
  end.

End WaypointRepository.

(** ** types.ts, continued: routes and statistics *)

(** [Position]: [[lon, lat]] or [[lon, lat, altitude]]. *)
Record Position := mkPosition {
  pos0 : float;
  pos1 : float;
  pos2 : option float
}.

(** [BoundingBox]: [[minLng, minLat, maxLng, maxLat]]. *)
Record BoundingBox := mkBoundingBox {
  minLng : float; minLat : float; maxLng : float; maxLat : float
}.

Record NavigationStep := mkNavigationStep {
  ns_id : string;
  ns_index : Z;
  ns_instruction : string;
  ns_maneuverType : string;
  ns_distanceMeters : float;
  ns_durationSeconds : float;
  ns_geometry : list Position
}.

(** [route_waypoints] is the content, when the route is built, of the array
    the route refers to.  The source puts the array of the repository
    itself there ([getAll()] returns [this.waypoints]), and the repository
    writes into that array in place ([push], [splice], assignment by
    index) until it replaces it ([reindex], [setAll], [clear]).  What a
    held route shows there after later calls is not followed; the
    statements about a held route speak of its other fields. *)
Record Route := mkRoute {
  geometry : list Position;
  route_waypoints : list Waypoint;
  steps : list NavigationStep;
  bounds : BoundingBox
}.

Record RouteStats := mkRouteStats {
  distanceMeters : float;
  durationSeconds : float;
  waypointCount : Z;
  stepCount : Z
}.

Record NearestPointResult := mkNearestPointResult {
  np_point : Coordinate;
  np_distance : float;
  np_segmentIndex : Z;
  np_segmentFraction : float
}.

Record RoutePlannerOptions := mkOptions {
  maxHistorySize : Z;
  offRouteThreshold : float;
  autoRecalculate : bool
}.

(** ** events/RouteEvents.ts: the payloads of [RouteEventMap] *)

Inductive UndoRedo := DoUndo | DoRedo.

Inductive RouteEvent :=
  | WaypointAdded (waypoint : Waypoint) (index : Z)
                  (allWaypoints : list Waypoint)
  | WaypointRemoved (waypoint : Waypoint) (index : Z)
                    (allWaypoints : list Waypoint)
  | WaypointUpdated (waypoint : Waypoint) (previousCoordinate : Coordinate)
                    (allWaypoints : list Waypoint)
  | WaypointReordered (fromIndex toIndex : Z) (allWaypoints : list Waypoint)
  | RouteCalculating (waypointCount : Z)
  | RouteCalculated (route : Route) (stats : RouteStats)
                    (steps : list NavigationStep)
  | RouteError (error : string) (waypointCount : Z)
  | RouteCleared (previousWaypointCount : Z)
  | HistoryChange (action : UndoRedo) (canUndo canRedo : bool)
                  (historySize : Z)
  | StatsUpdated (stats : RouteStats) (previousStats : option RouteStats).

(** ** infrastructure/HistoryManagerImpl.ts *)

Module HistoryManagerImpl.

Record t := mk {
  history : list HistoryEntry;
  currentIndex : Z;
  maxSize : Z
}.

(** [new HistoryManagerImpl(maxSize)] *)
Definition new (maxSize : Z) : t := mk [] (-1) maxSize.

(** [({ ...wp })] *)
Definition copy (wp : Waypoint) : Waypoint :=
  mkWaypoint (wp_id wp) (wp_index wp) (wp_longitude wp) (wp_latitude wp)
             (wp_name wp) (wp_createdAt wp).

(** [now] is the value of [Date.now()]. *)
Definition push (waypoints : list Waypoint) (action : HistoryAction)
    (now : Z) (h : t) : t :=
  let h1 := Js.slice 0 (currentIndex h + 1) (history h) in
  let h2 := h1 ++ [mkHistoryEntry (copy <$> waypoints) now action] in
  let h3 :=
    if maxSize h <? Z.of_nat (length h2)
    then Js.slice_from (- maxSize h) h2 else h2 in
  mk h3 (Z.of_nat (length h3) - 1) (maxSize h).

Definition canUndo (h : t) : bool := 0 <? currentIndex h.

Definition canRedo (h : t) : bool :=
  currentIndex h <? Z.of_nat (length (history h)) - 1.

Definition undo (h : t) : option HistoryEntry * t :=
  if negb (canUndo h) then (None, h)
  else
    let h' := mk (history h) (currentIndex h - 1) (maxSize h) in
    (Js.get (history h') (currentIndex h'), h').

Definition redo (h : t) : option HistoryEntry * t :=
  if negb (canRedo h) then (None, h)
  else
    let h' := mk (history h) (currentIndex h + 1) (maxSize h) in
    (Js.get (history h') (currentIndex h'), h').

Definition getSize (h : t) : Z := Z.of_nat (length (history h)).

Definition clear (h : t) : t := mk [] (-1) (maxSize h).

(** Pushing a list of snapshots in order, each with its action and the
    clock reading of its push. *)
Definition push_all (items : list (list Waypoint * HistoryAction * Z))
    (h : t) : t :=
  fold_left (fun h it => push it.1.1 it.1.2 it.2 h) items h.

(** The entry that [push] builds for an item. *)
Definition entry_of (it : list Waypoint * HistoryAction * Z) : HistoryEntry :=
  mkHistoryEntry (copy <$> it.1.1) it.2 it.1.2.

(** [n] consecutive calls of [undo]: what each returned, and the manager
    afterwards. *)
Fixpoint undo_n (n : nat) (h : t) : list (option HistoryEntry) * t :=
  match n with
  | O => ([], h)
  | S n' =>
      let '(r, h1) := undo h in
      let '(rs, h2) := undo_n n' h1 in
      (r :: rs, h2)
  end.

End HistoryManagerImpl.

(** ** infrastructure/EventBusImpl.ts *)

Module EventBusImpl.

(** A listener is a function value, compared by reference as the [Set] of
    the source does.  [Fn r] is the caller's function with reference [r];
    [OnceWrapper k r] is the [k]-th closure allocated by [once], wrapping
    the caller's function [r]. *)
Inductive Listener :=
  | Fn (ref : nat)
  | OnceWrapper (serial : nat) (inner : nat).

#[global] Instance Listener_eq_dec : EqDecision Listener.
Proof. solve_decision. Defined.

(** [listeners] is the [Map] from event name to a [Set] of listeners; a
    [Set] iterates in insertion order, so it is a duplicate-free list.
    [wrappers] counts the closures [once] has allocated.  [calls] is the
    record of the caller functions run so far: which one, for which event,
    with which payload.  Caller functions are taken not to call back into
    the bus; what they throw is caught by [emit] and changes nothing. *)
Record t := mk {
  listeners : gmap string (list Listener);
  wrappers : nat;
  calls : list (nat * string * RouteEvent)
}.

Definition new : t := mk ∅ 0 [].

(** [set.add(x)] *)
Definition set_add (x : Listener) (s : list Listener) : list Listener :=
  if decide (x ∈ s) then s else s ++ [x].

(** [set.delete(x)] *)
Definition set_delete (x : Listener) (s : list Listener) : list Listener :=
  filter (fun y => y ≠ x) s.

Definition off (event : string) (listener : Listener) (b : t) : t :=
  match listeners b !! event with
  | Some s =>
      mk (<[event := set_delete listener s]> (listeners b))
         (wrappers b) (calls b)
  | None => b
  end.

(** [on] returns the unsubscribe closure [() => this.off(event, listener)],
    represented by the pair it captures. *)
Definition on (event : string) (listener : Listener) (b : t)
    : (string * Listener) * t :=
  let m :=
    match listeners b !! event with
    | Some _ => listeners b
    | None => <[event := []]> (listeners b)
    end in
  let m' :=
    match m !! event with
    | Some s => <[event := set_add listener s]> m
    | None => m
    end in
  ((event, listener), mk m' (wrappers b) (calls b)).

Definition unsubscribe (handle : string * Listener) (b : t) : t :=
  off handle.1 handle.2 b.

Definition once (event : string) (listener : nat) (b : t)
    : (string * Listener) * t :=
  let onceWrapper := OnceWrapper (wrappers b) listener in
  on event onceWrapper
     (mk (listeners b) (S (wrappers b)) (calls b)).

(** The caller function whose body runs when a listener is called. *)
Definition fn_of (l : Listener) : nat :=
  match l with
  | Fn r => r
  | OnceWrapper _ r => r
  end.

(** Running one member of the set during [emit]: a closure of [once]
    first unregisters itself. *)
Definition invoke (event : string) (data : RouteEvent) (b : t)
    (l : Listener) : t :=
  match l with
  | Fn r => mk (listeners b) (wrappers b) (calls b ++ [(r, event, data)])
  | OnceWrapper _ r =>
      let b' := off event l b in
      mk (listeners b') (wrappers b') (calls b' ++ [(r, event, data)])
  end.

Definition emit (event : string) (data : RouteEvent) (b : t) : t :=
  match listeners b !! event with
  | Some s => fold_left (invoke event data) s b
  | None => b
  end.

(** [if (event) { this.listeners.delete(event) } else
     { this.listeners.clear() }]: the test is on the truth value of the
    argument, and the empty string is false like [undefined]. *)
Definition removeAllListeners (event : option string) (b : t) : t :=
  match event with
  | Some e =>
      if decide (e = EmptyString) then mk ∅ (wrappers b) (calls b)
      else mk (delete e (listeners b)) (wrappers b) (calls b)
  | None => mk ∅ (wrappers b) (calls b)
  end.



(** Each registry is a [Set]: it holds no listener twice. *)
Definition wf (b : t) : Prop :=
  ∀ event s, listeners b !! event = Some s → NoDup s.

End EventBusImpl.

(** ** Faults and loops *)

(** A call either returns or throws; [Throw] carries the message. *)
Inductive js (A : Type) :=
  | Ret (a : A)
  | Throw (message : string).
Arguments Ret {A} a.
Arguments Throw {A} message.

#[global] Instance js_ret : MRet js := fun A a => Ret a.

#[global] Instance js_bind : MBind js := fun A B k c =>
  match c with
  | Ret a => k a
  | Throw m => Throw m
  end.

(** Reading a property of [undefined]. *)
Definition TypeError : string := "TypeError: Cannot read properties of undefined".

(** [arr[i]] followed by a property access on the element. *)
Definition js_elem {A} (l : list A) (i : Z) : js A :=
  match Js.get l i with
  | Some a => Ret a
  | None => Throw TypeError
  end.

(** [for (let i = start; ...; i++) body]: [count] rounds from [i]. *)
Fixpoint for_loop {S} (count : nat) (i : Z) (body : Z -> S -> js S) (s : S)
    : js S :=
  match count with
  | O => Ret s
  | Datatypes.S n => s' ← body i s; for_loop n (i + 1) body s'
  end.

(** [for (let i = start; i < bound; i++) body] on integers. *)
Definition for_range {S} (start bound : Z) (body : Z -> S -> js S) (s : S)
    : js S :=
  for_loop (Z.to_nat (bound - start)) start body s.

(** ** The [Math] object *)

(** [Math.sin], [Math.cos] and [Math.atan2] are implementation-approximated
    in ECMAScript and have no binary64 counterpart here: they are taken as an
    interface.  [Math.sqrt] is the IEEE square root. *)
Class JsMath := {
  Math_sin : float -> float;
  Math_cos : float -> float;
  Math_atan2 : float -> float -> float
}.

Module JsNum.

Local Open Scope float_scope.

Definition Math_PI : float := 0x1.921fb54442d18p+1.

Definition is_neg_zero (x : float) : bool :=
  match classify x with
  | FloatClass.NZero => true
  | _ => false
  end.

(** [Math.max(x, y)]: NaN if either is, and [+0] above [-0]. *)
Definition Math_max (x y : float) : float :=
  if is_nan x || is_nan y then nan
  else if x <? y then y
  else if y <? x then x
  else if is_neg_zero x then y else x.

(** [Math.min(x, y)]: NaN if either is, and [-0] below [+0]. *)
Definition Math_min (x y : float) : float :=
  if is_nan x || is_nan y then nan
  else if x <? y then x
  else if y <? x then y
  else if is_neg_zero x then x else y.

End JsNum.

(** ** geo/distance.ts, geo/lineLength.ts, geo/nearestPoint.ts *)

Module Geo.

Local Open Scope float_scope.

(** [6371008.8], as the nearest binary64 value. *)
Definition EARTH_RADIUS_METERS : float := 0x1.84db033333333p+22.

Definition toRadians (degrees : float) : float :=
  degrees * (JsNum.Math_PI / 180).

Definition calculateDistance `{JsMath} (from to : Coordinate) : float :=
  let lat1 := toRadians (latitude from) in
  let lat2 := toRadians (latitude to) in
  let deltaLat := toRadians (latitude to - latitude from) in
  let deltaLng := toRadians (longitude to - longitude from) in
  let a :=
    Math_sin (deltaLat / 2) * Math_sin (deltaLat / 2)
    + Math_cos lat1 * Math_cos lat2
      * Math_sin (deltaLng / 2) * Math_sin (deltaLng / 2) in
  let c := 2 * Math_atan2 (sqrt a) (sqrt (1 - a)) in
  EARTH_RADIUS_METERS * c.

Definition positionToCoordinate (pos : Position) : Coordinate :=
  mkCoordinate (pos0 pos) (pos1 pos).

(** The body shared by the two length loops:
    [totalLength += calculateDistance(coordinates[i], coordinates[i + 1])]. *)
Definition add_segment `{JsMath} (coordinates : list Position) (i : Z)
    (totalLength : float) : js float :=
  from ← js_elem coordinates i;
  to ← js_elem coordinates (i + 1)%Z;
  Ret (totalLength
       + calculateDistance (positionToCoordinate from)
                           (positionToCoordinate to)).

Definition calculateLineLength `{JsMath} (coordinates : list Position)
    : js float :=
  if (Z.of_nat (length coordinates) <? 2)%Z then Ret 0
  else
    for_range 0 (Z.of_nat (length coordinates) - 1)
              (add_segment coordinates) 0.

Definition calculateRemainingLength `{JsMath} (coordinates : list Position)
    (fromIndex : Z) (fromFraction : float) : js float :=
  if ((Z.of_nat (length coordinates) <? 2)
      || (Z.of_nat (length coordinates) - 1 <=? fromIndex))%Z then Ret 0
  else
    segmentStart ← js_elem coordinates fromIndex;
    segmentEnd ← js_elem coordinates (fromIndex + 1)%Z;
    let segmentLength :=
      calculateDistance (positionToCoordinate segmentStart)
                        (positionToCoordinate segmentEnd) in
    let totalLength := 0 + segmentLength * (1 - fromFraction) in
    for_range (fromIndex + 1) (Z.of_nat (length coordinates) - 1)
              (add_segment coordinates) totalLength.

Record SegmentResult := mkSegmentResult {
  sr_point : Coordinate;
  sr_distance : float;
  sr_fraction : float
}.

Definition nearestPointOnSegment `{JsMath} (point segStart segEnd : Coordinate)
    : SegmentResult :=
  let dx := longitude segEnd - longitude segStart in
  let dy := latitude segEnd - latitude segStart in
  let lengthSquared := dx * dx + dy * dy in
  if lengthSquared =? 0 then
    mkSegmentResult segStart (calculateDistance point segStart) 0
  else
    let t :=
      JsNum.Math_max 0
        (JsNum.Math_min 1
           (((longitude point - longitude segStart) * dx
             + (latitude point - latitude segStart) * dy)
            / lengthSquared)) in
    let projected :=
      mkCoordinate (longitude segStart + t * dx)
                   (latitude segStart + t * dy) in
    mkSegmentResult projected (calculateDistance point projected) t.

(** The variables of the search loop of [findNearestPointOnLine]. *)
Record Search := mkSearch {
  minDistance : float;
  nearestPoint : option Coordinate;
  segmentIndex : Z;
  segmentFraction : float
}.

Definition search_segment `{JsMath} (point : Coordinate)
    (lineCoordinates : list Position) (i : Z) (s : Search) : js Search :=
  a ← js_elem lineCoordinates i;
  b ← js_elem lineCoordinates (i + 1)%Z;
  let start := mkCoordinate (pos0 a) (pos1 a) in
  let end_ := mkCoordinate (pos0 b) (pos1 b) in
  let result := nearestPointOnSegment point start end_ in
  if sr_distance result <? minDistance s then
    Ret (mkSearch (sr_distance result) (Some (sr_point result)) i
                  (sr_fraction result))
  else Ret s.

Definition findNearestPointOnLine `{JsMath} (point : Coordinate)
    (lineCoordinates : list Position) : js (option NearestPointResult) :=
  if (Z.of_nat (length lineCoordinates) <? 2)%Z then Ret None
  else
    s ← for_range 0 (Z.of_nat (length lineCoordinates) - 1)
          (search_segment point lineCoordinates)
          (mkSearch infinity None 0%Z 0);
    match nearestPoint s with
    | None => Ret None
    | Some p =>
        Ret (Some (mkNearestPointResult p (minDistance s) (segmentIndex s)
                                        (segmentFraction s)))
    end.

Definition isOffRoute `{JsMath} (location : Coordinate)
    (routeCoordinates : list Position) (thresholdMeters : float) : js bool :=
  nearest ← findNearestPointOnLine location routeCoordinates;
  match nearest with
  | None => Ret false
  | Some n => Ret (thresholdMeters <? np_distance n)
  end.

(** The default of the optional third parameter of [isOffRoute]. *)
Definition default_threshold : float := 50.

End Geo.

(** ** The remaining distance, as the specification words it *)

Module GeoSpec.

Local Open Scope float_scope.

(** The lengths of the segments of a polyline, first segment first. *)
Definition segment_lengths `{JsMath} (positions : list Position)
    : list float :=
  zip_with (fun a b => Geo.calculateDistance (Geo.positionToCoordinate a)
                                             (Geo.positionToCoordinate b))
           positions (tail positions).

(** A sum of lengths, accumulated from 0 in list order. *)
Definition sum (lengths : list float) : float := fold_left add lengths 0.

(** "Sum of consecutive-pair distances." *)
Definition lineLength `{JsMath} (positions : list Position) : float :=
  sum (segment_lengths positions).

(** "Partial length of segment [fromIndex] scaled by [(1 - fromFraction)],
    plus full length of all subsequent segments; 0 when [fromIndex] is at
    or past the last segment or the line has fewer than 2 points." *)
Definition remainingDistance `{JsMath} (positions : list Position)
    (fromIndex : Z) (fromFraction : float) : float :=
  if ((Z.of_nat (length positions) <? 2)
      || (Z.of_nat (length positions) - 1 <=? fromIndex))%Z then 0
  else
    match segment_lengths positions !! Z.to_nat fromIndex with
    | Some d =>
        sum (d * (1 - fromFraction)
             :: drop (S (Z.to_nat fromIndex)) (segment_lengths positions))
    | None => 0
    end.

End GeoSpec.

(** ** providers/DirectionsProvider.ts *)

Record DirectionsStep := mkDirectionsStep {
  ds_instruction : string;
  ds_maneuverType : string;
  ds_distanceMeters : float;
  ds_durationSeconds : float;
  ds_geometry : list Position
}.

Record DirectionsResponse := mkDirectionsResponse {
  dr_geometry : list Position;
  dr_distanceMeters : float;
  dr_durationSeconds : float;
  dr_steps : list DirectionsStep
}.

(** A thrown value: an [Error] with its message, or anything else with the
    text [String(value)] gives. *)
Inductive Thrown :=
  | ThrownError (message : string)
  | ThrownValue (asString : string).

(** How an awaited promise settles. *)
Inductive Settled (A : Type) :=
  | Resolved (a : A)
  | Rejected (reason : Thrown).
Arguments Resolved {A} a.
Arguments Rejected {A} reason.

Record RouteCalculationResult := mkResult {
  rc_route : Route;
  rc_stats : RouteStats;
  rc_steps : list NavigationStep
}.

(** ** infrastructure/RouteCalculatorAdapter.ts *)

Module RouteCalculatorAdapter.

Local Open Scope float_scope.

Definition calculateBounds (coordinates : list Position) : BoundingBox :=
  if (Z.of_nat (length coordinates) =? 0)%Z then mkBoundingBox 0 0 0 0
  else
    fold_left
      (fun b coord =>
         mkBoundingBox (JsNum.Math_min (minLng b) (pos0 coord))
                       (JsNum.Math_min (minLat b) (pos1 coord))
                       (JsNum.Math_max (maxLng b) (pos0 coord))
                       (JsNum.Math_max (maxLat b) (pos1 coord)))
      coordinates
      (mkBoundingBox infinity infinity neg_infinity neg_infinity).

(** [provider] is how [this.provider.getDirections(request)] settles for
    this call; [stepId k] is the value of [generateId()] for step [k]. *)
Definition calculate (waypoints : list Waypoint)
    (provider : Settled (option DirectionsResponse)) (stepId : nat -> string)
    : Settled (option RouteCalculationResult) :=
  if (Z.of_nat (length waypoints) <? 2)%Z then Resolved None
  else
    match provider with
    | Rejected reason => Rejected reason
    | Resolved None => Resolved None
    | Resolved (Some response) =>
        let steps :=
          imap (fun index step =>
                  mkNavigationStep (stepId index) (Z.of_nat index)
                    (ds_instruction step) (ds_maneuverType step)
                    (ds_distanceMeters step) (ds_durationSeconds step)
                    (ds_geometry step))
               (dr_steps response) in
        let route :=
          mkRoute (dr_geometry response) waypoints steps
                  (calculateBounds (dr_geometry response)) in
        let stats :=
          mkRouteStats (dr_distanceMeters response)
                       (dr_durationSeconds response)
                       (Z.of_nat (length waypoints))
                       (Z.of_nat (length steps)) in
        Resolved (Some (mkResult route stats steps))
    end.

End RouteCalculatorAdapter.

(** ** core/RoutePlanner.ts *)

(** What one Planner call reads from outside: the identifier and clock
    reading for a created waypoint, the clock reading of the history push,
    how the directions source settles if it is asked, and the identifiers
    of the steps of its response. *)
Record Env := mkEnv {
  env_id : string;
  env_now : Z;
  env_pushed : Z;
  env_provider : Settled (option DirectionsResponse);
  env_stepId : nat -> string
}.

Module RoutePlanner.

(** The fields of the class, with the default collaborators in place of the
    interfaces: [waypointRepo], [history] and [events] are the states of
    the repository, the history manager and the event bus.  [emitted] is
    the record of the calls of [this.events.emit], in order, and [cancels]
    counts the calls of [this.calculator.cancel()]. *)
Record t := mk {
  options : RoutePlannerOptions;
  waypointRepo : WaypointRepository.t;
  history : HistoryManagerImpl.t;
  events : EventBusImpl.t;
  currentRoute : option Route;
  currentStats : option RouteStats;
  calculating : bool;
  disposed : bool;
  emitted : list (string * RouteEvent);
  cancels : nat
}.

Definition DEFAULT_OPTIONS : RoutePlannerOptions :=
  mkOptions 50 50%float true.

(** [{ ...DEFAULT_OPTIONS, ...options }] *)
Definition merge_options (maxHistorySize' : option Z)
    (offRouteThreshold' : option float) (autoRecalculate' : option bool)
    : RoutePlannerOptions :=
  mkOptions (default (maxHistorySize DEFAULT_OPTIONS) maxHistorySize')
            (default (offRouteThreshold DEFAULT_OPTIONS) offRouteThreshold')
            (default (autoRecalculate DEFAULT_OPTIONS) autoRecalculate').

(** [new RoutePlanner(provider, options)] *)
Definition new (opts : RoutePlannerOptions) : t :=
  mk opts WaypointRepository.empty
     (HistoryManagerImpl.new (maxHistorySize opts))
     EventBusImpl.new None None false false [] 0.

Definition set_repo (r : WaypointRepository.t) (p : t) : t :=
  mk (options p) r (history p) (events p) (currentRoute p) (currentStats p)
     (calculating p) (disposed p) (emitted p) (cancels p).

Definition set_history (h : HistoryManagerImpl.t) (p : t) : t :=
  mk (options p) (waypointRepo p) h (events p) (currentRoute p)
     (currentStats p) (calculating p) (disposed p) (emitted p) (cancels p).

Definition set_events (b : EventBusImpl.t) (p : t) : t :=
  mk (options p) (waypointRepo p) (history p) b (currentRoute p)
     (currentStats p) (calculating p) (disposed p) (emitted p) (cancels p).

Definition set_route (r : option Route) (s : option RouteStats) (p : t) : t :=
  mk (options p) (waypointRepo p) (history p) (events p) r s
     (calculating p) (disposed p) (emitted p) (cancels p).

Definition set_calculating (c : bool) (p : t) : t :=
  mk (options p) (waypointRepo p) (history p) (events p) (currentRoute p)
     (currentStats p) c (disposed p) (emitted p) (cancels p).

(** [this.events.emit(event, data)] *)
Definition emit (event : string) (data : RouteEvent) (p : t) : t :=
  mk (options p) (waypointRepo p) (history p)
     (EventBusImpl.emit event data (events p))
     (currentRoute p) (currentStats p) (calculating p) (disposed p)
     (emitted p ++ [(event, data)]) (cancels p).

Definition disposed_message : string := "RoutePlanner has been disposed".

(** [error instanceof Error ? error : new Error(String(error))], by its
    message. *)
Definition as_error (reason : Thrown) : string :=
  match reason with
  | ThrownError m => m
  | ThrownValue s => s
  end.

Definition on (event : string) (listener : EventBusImpl.Listener) (p : t)
    : (string * EventBusImpl.Listener) * t :=
  let '(h, b) := EventBusImpl.on event listener (events p) in
  (h, set_events b p).

Definition off (event : string) (listener : EventBusImpl.Listener) (p : t)
    : t :=
  set_events (EventBusImpl.off event listener (events p)) p.

Definition once (event : string) (listener : nat) (p : t)
    : (string * EventBusImpl.Listener) * t :=
  let '(h, b) := EventBusImpl.once event listener (events p) in
  (h, set_events b p).

Definition recalculate (env : Env) (p : t) : js unit * t :=
  if disposed p then (Throw disposed_message, p)
  else
    let waypoints := WaypointRepository.getAll (waypointRepo p) in
    if Z.of_nat (length waypoints) <? 2 then
      let previousStats := currentStats p in
      let p1 := set_route None None p in
      match previousStats with
      | Some prev =>
          (Ret tt,
           emit "stats:updated"
                (StatsUpdated
                   (mkRouteStats 0 0 (Z.of_nat (length waypoints)) 0)
                   (Some prev))
                p1)
      | None => (Ret tt, p1)
      end
    else
      let p1 := set_calculating true p in
      let p2 :=
        emit "route:calculating"
             (RouteCalculating (Z.of_nat (length waypoints))) p1 in
      match RouteCalculatorAdapter.calculate waypoints (env_provider env)
                                             (env_stepId env) with
      | Resolved (Some result) =>
          let previousStats := currentStats p2 in
          let p3 :=
            set_calculating false
              (set_route (Some (rc_route result)) (Some (rc_stats result))
                         p2) in
          let p4 :=
            emit "route:calculated"
                 (RouteCalculated (rc_route result) (rc_stats result)
                                  (rc_steps result)) p3 in
          (Ret tt,
           emit "stats:updated"
                (StatsUpdated (rc_stats result) previousStats) p4)
      | Resolved None =>
          (Ret tt,
           emit "route:error"
                (RouteError "Failed to calculate directions"
                            (Z.of_nat (length waypoints)))
                (set_calculating false p2))
      | Rejected reason =>
          (Ret tt,
           emit "route:error"
                (RouteError (as_error reason) (Z.of_nat (length waypoints)))
                (set_calculating false p2))
      end.

(** [if (this.options.autoRecalculate) { await this.recalculate(); }
     return result;] *)
Definition finish {A} (result : A) (env : Env) (p : t) : js A * t :=
  if autoRecalculate (options p) then
    let '(r, p') := recalculate env p in
    (_ ← r; Ret result, p')
  else (Ret result, p).

Definition addWaypoint (coordinate : Coordinate) (name : option string)
    (env : Env) (p : t) : js Waypoint * t :=
  if disposed p then (Throw disposed_message, p)
  else
    let p1 :=
      set_history
        (HistoryManagerImpl.push
           (WaypointRepository.getAll (waypointRepo p)) ActAdd
           (env_pushed env) (history p)) p in
    let '(waypoint, repo) :=
      WaypointRepository.add coordinate name (env_id env) (env_now env)
                             (waypointRepo p1) in
    let p2 := set_repo repo p1 in
    let allWaypoints := WaypointRepository.getAll (waypointRepo p2) in
    let p3 :=
      emit "waypoint:added"
           (WaypointAdded waypoint (wp_index waypoint) allWaypoints) p2 in
    finish waypoint env p3.

Definition insertWaypoint (coordinate : Coordinate) (index : Z)
    (name : option string) (env : Env) (p : t) : js Waypoint * t :=
  if disposed p then (Throw disposed_message, p)
  else
    let p1 :=
      set_history
        (HistoryManagerImpl.push
           (WaypointRepository.getAll (waypointRepo p)) ActAdd
           (env_pushed env) (history p)) p in
    let '(waypoint, repo) :=
      WaypointRepository.insert coordinate index name (env_id env)
                                (env_now env) (waypointRepo p1) in
    let p2 := set_repo repo p1 in
    let allWaypoints := WaypointRepository.getAll (waypointRepo p2) in
    let p3 :=
      emit "waypoint:added"
           (WaypointAdded waypoint (wp_index waypoint) allWaypoints) p2 in
    finish waypoint env p3.

Definition removeWaypoint (waypointId : string) (env : Env) (p : t)
    : js unit * t :=
  if disposed p then (Throw disposed_message, p)
  else
    match WaypointRepository.getById waypointId (waypointRepo p) with
    | None => (Ret tt, p)
    | Some waypoint =>
        let p1 :=
          set_history
            (HistoryManagerImpl.push
               (WaypointRepository.getAll (waypointRepo p)) ActRemove
               (env_pushed env) (history p)) p in
        let removedIndex := wp_index waypoint in
        let p2 :=
          set_repo (WaypointRepository.remove waypointId (waypointRepo p1)).2
                   p1 in
        let allWaypoints := WaypointRepository.getAll (waypointRepo p2) in
        let p3 :=
          emit "waypoint:removed"
               (WaypointRemoved waypoint removedIndex allWaypoints) p2 in
        finish tt env p3
    end.

Definition updateWaypoint (waypointId : string) (coordinate : Coordinate)
    (env : Env) (p : t) : js unit * t :=
  if disposed p then (Throw disposed_message, p)
  else
    match WaypointRepository.getById waypointId (waypointRepo p) with
    | None => (Ret tt, p)
    | Some _ =>
        let p1 :=
          set_history
            (HistoryManagerImpl.push
               (WaypointRepository.getAll (waypointRepo p)) ActUpdate
               (env_pushed env) (history p)) p in
        let '(previous, repo) :=
          WaypointRepository.update waypointId coordinate (waypointRepo p1) in
        let p2 := set_repo repo p1 in
        match previous with
        | None => (Ret tt, p2)
        | Some previousCoordinate =>
            (* [getById(waypointId)!]: the id was found by [update] just
               before, so the [None] branch is never taken. *)
            match WaypointRepository.getById waypointId
                                             (waypointRepo p2) with
            | None => (Throw TypeError, p2)
            | Some updatedWaypoint =>
                let allWaypoints :=
                  WaypointRepository.getAll (waypointRepo p2) in
                let p3 :=
                  emit "waypoint:updated"
                       (WaypointUpdated updatedWaypoint previousCoordinate
                                        allWaypoints) p2 in
                finish tt env p3
            end
        end
    end.

Definition reorderWaypoints (fromIndex toIndex : Z) (env : Env) (p : t)
    : js unit * t :=
  if disposed p then (Throw disposed_message, p)
  else
    let p1 :=
      set_history
        (HistoryManagerImpl.push
           (WaypointRepository.getAll (waypointRepo p)) ActReorder
           (env_pushed env) (history p)) p in
    let '(success, repo) :=
      WaypointRepository.reorder fromIndex toIndex (waypointRepo p1) in
    let p2 := set_repo repo p1 in
    if negb success then (Ret tt, p2)
    else
      let allWaypoints := WaypointRepository.getAll (waypointRepo p2) in
      let p3 :=
        emit "waypoint:reordered"
             (WaypointReordered fromIndex toIndex allWaypoints) p2 in
      finish tt env p3.

Definition getWaypoints (p : t) : js (list Waypoint) :=
  Ret (WaypointRepository.getAll (waypointRepo p)).

Definition clear (env : Env) (p : t) : js unit * t :=
  if disposed p then (Throw disposed_message, p)
  else
    let previousCount := WaypointRepository.count (waypointRepo p) in
    let p1 :=
      if 0 <? previousCount then
        set_history
          (HistoryManagerImpl.push
             (WaypointRepository.getAll (waypointRepo p)) ActClear
             (env_pushed env) (history p)) p
      else p in
    let p2 := set_repo (WaypointRepository.clear (waypointRepo p1)) p1 in
    let p3 := set_route None None p2 in
    (Ret tt, emit "route:cleared" (RouteCleared previousCount) p3).

Definition getRoute (p : t) : js (option Route) := Ret (currentRoute p).

Definition getStats (p : t) : js (option RouteStats) := Ret (currentStats p).

Definition getNavigationSteps (p : t) : js (list NavigationStep) :=
  Ret (match currentRoute p with
       | Some r => steps r
       | None => []
       end).

Definition isCalculating (p : t) : js bool := Ret (calculating p).

Definition undo (env : Env) (p : t) : js bool * t :=
  if disposed p then (Throw disposed_message, p)
  else
    let '(entry, h) := HistoryManagerImpl.undo (history p) in
    let p1 := set_history h p in
    match entry with
    | None => (Ret false, p1)
    | Some e =>
        let p2 :=
          set_repo (WaypointRepository.setAll (he_waypoints e)
                                              (waypointRepo p1)) p1 in
        let p3 :=
          emit "history:change"
               (HistoryChange DoUndo
                  (HistoryManagerImpl.canUndo (history p2))
                  (HistoryManagerImpl.canRedo (history p2))
                  (HistoryManagerImpl.getSize (history p2))) p2 in
        finish true env p3
    end.

Definition redo (env : Env) (p : t) : js bool * t :=
  if disposed p then (Throw disposed_message, p)
  else
    let '(entry, h) := HistoryManagerImpl.redo (history p) in
    let p1 := set_history h p in
    match entry with
    | None => (Ret false, p1)
    | Some e =>
        let p2 :=
          set_repo (WaypointRepository.setAll (he_waypoints e)
                                              (waypointRepo p1)) p1 in
        let p3 :=
          emit "history:change"
               (HistoryChange DoRedo
                  (HistoryManagerImpl.canUndo (history p2))
                  (HistoryManagerImpl.canRedo (history p2))
                  (HistoryManagerImpl.getSize (history p2))) p2 in
        finish true env p3
    end.

Definition canUndo (p : t) : js bool :=
  Ret (HistoryManagerImpl.canUndo (history p)).

Definition canRedo (p : t) : js bool :=
  Ret (HistoryManagerImpl.canRedo (history p)).

Definition getHistorySize (p : t) : js Z :=
  Ret (HistoryManagerImpl.getSize (history p)).

Definition has_route (p : t) : option Route :=
  match currentRoute p with
  | Some r => if Z.of_nat (length (geometry r)) <? 2 then None else Some r
  | None => None
  end.

Definition getNearestPointOnRoute `{JsMath} (coordinate : Coordinate) (p : t)
    : js (option NearestPointResult) :=
  match has_route p with
  | None => Ret None
  | Some r => Geo.findNearestPointOnLine coordinate (geometry r)
  end.

Definition isOffRoute `{JsMath} (coordinate : Coordinate)
    (threshold : option float) (p : t) : js bool :=
  match has_route p with
  | None => Ret false
  | Some r =>
      Geo.isOffRoute coordinate (geometry r)
                     (default (offRouteThreshold (options p)) threshold)
  end.

Definition getRemainingDistance `{JsMath} (coordinate : Coordinate) (p : t)
    : js (option float) :=
  match has_route p with
  | None => Ret None
  | Some r =>
      nearest ← Geo.findNearestPointOnLine coordinate (geometry r);
      match nearest with
      | None => Ret None
      | Some n =>
          d ← Geo.calculateRemainingLength (geometry r) (np_segmentIndex n)
                (np_segmentFraction n);
          Ret (Some d)
      end
  end.

Definition dispose (p : t) : t :=
  mk (options p)
     (WaypointRepository.clear (waypointRepo p))
     (HistoryManagerImpl.clear (history p))
     (EventBusImpl.removeAllListeners None (events p))
     None None (calculating p) true (emitted p) (S (cancels p)).

Definition isDisposed (p : t) : js bool := Ret (disposed p).

(** The public calls that can change the Planner. *)
Inductive Call :=
  | AddWaypoint (coordinate : Coordinate) (name : option string)
  | InsertWaypoint (coordinate : Coordinate) (index : Z)
                   (name : option string)
  | RemoveWaypoint (waypointId : string)
  | UpdateWaypoint (waypointId : string) (coordinate : Coordinate)
  | ReorderWaypoints (fromIndex toIndex : Z)
  | Clear
  | Undo
  | Redo
  | Recalculate
  | Dispose
  | On (event : string) (listener : EventBusImpl.Listener)
  | Off (event : string) (listener : EventBusImpl.Listener)
  | Once (event : string) (listener : nat).

(** The Planner after a call. *)
Definition exec (c : Call) (env : Env) (p : t) : t :=
  match c with
  | AddWaypoint co name => (addWaypoint co name env p).2
  | InsertWaypoint co i name => (insertWaypoint co i name env p).2
  | RemoveWaypoint id => (removeWaypoint id env p).2
  | UpdateWaypoint id co => (updateWaypoint id co env p).2
  | ReorderWaypoints f t => (reorderWaypoints f t env p).2
  | Clear => (clear env p).2
  | Undo => (undo env p).2
  | Redo => (redo env p).2
  | Recalculate => (recalculate env p).2
  | Dispose => dispose p
  | On e l => (on e l p).2
  | Off e l => off e l p
  | Once e l => (once e l p).2
  end.

(** The Planner states a program can reach: a constructed Planner, then
    any public calls. *)
Inductive reachable : t -> Prop :=
  | reach_new opts : reachable (new opts)
  | reach_call c env p : reachable p -> reachable (exec c env p).

(** What [dispose] leaves in the Planner. *)
Definition torn_down (p : t) : Prop :=
  waypointRepo p = []
  /\ HistoryManagerImpl.history (history p) = []
  /\ HistoryManagerImpl.currentIndex (history p) = -1
  /\ currentRoute p = None
  /\ currentStats p = None.

(** [n] consecutive calls of [undo()]. *)
Fixpoint undo_times (n : nat) (env : Env) (p : t) : t :=
  match n with
  | O => p
  | S n' => undo_times n' env (undo env p).2
  end.

End RoutePlanner.

(** ** Concrete runs used by the evaluations below *)

Module Scenario.

Definition origin : Coordinate := mkCoordinate 0 0.
Definition corner : Coordinate := mkCoordinate 1 1.

(** A directions source that finds no route. *)
Definition env_a : Env :=
  mkEnv "1000-a" 1000 1000 (Resolved None) (fun _ => "s").
Definition env_b : Env :=
  mkEnv "2000-b" 2000 2000 (Resolved None) (fun _ => "s").
Definition env_c : Env :=
  mkEnv "3000-c" 3000 3000 (Resolved None) (fun _ => "s").

(** A stand-in for the [Math] object in evaluations: the small-angle
    forms [sin x = x], [cos x = 1], [atan2(y, x) = y / x]. *)
Definition small_angle : JsMath :=
  Build_JsMath (fun x => x) (fun _ => 1%float) (fun y x => (y / x)%float).

(** A waypoint at the origin with a given id and index. *)
Definition wp (id : string) (i : Z) : Waypoint :=
  mkWaypoint id i 0 0 None 0.

(** A polyline of three points. *)
Definition bend : list Position :=
  [mkPosition 0 0 None; mkPosition 0 1 None; mkPosition 1 1 None].

(** [new RoutePlanner(provider)] *)
Definition fresh : RoutePlanner.t :=
  RoutePlanner.new RoutePlanner.DEFAULT_OPTIONS.

(** ... then [addWaypoint({0, 0})] *)
Definition one : RoutePlanner.t :=
  (RoutePlanner.addWaypoint origin None env_a fresh).2.

(** ... then [addWaypoint({1, 1})] *)
Definition two : RoutePlanner.t :=
  (RoutePlanner.addWaypoint corner None env_b one).2.

End Scenario.

(** ** events/EventEmitter.ts *)

Module TypedEventEmitter.

(** [TypedEventEmitter] declares the same [listeners] map and the same
    bodies of [on], [off], [once], [emit] and [removeAllListeners] as
    [EventBusImpl]; its state and those methods are the ones above.  It adds
    [listenerCount]. *)
Definition listenerCount (event : string) (b : EventBusImpl.t) : Z :=
  match EventBusImpl.listeners b !! event with
  | Some s => Z.of_nat (length s)
  | None => 0
  end.

End TypedEventEmitter.

(** ** Sequences of calls *)

Module Runs.

(** A listener that is the caller's own function, not a closure of
    [once]. *)
Definition is_plain (l : EventBusImpl.Listener) : Prop :=
  match l with
  | EventBusImpl.Fn _ => True
  | EventBusImpl.OnceWrapper _ _ => False
  end.

#[global] Instance is_plain_dec l : Decision (is_plain l).
Proof. destruct l; cbn; apply _. Defined.

(** One call on a history manager. *)
Inductive HistoryOp :=
  | HPush (waypoints : list Waypoint) (action : HistoryAction) (now : Z)
  | HUndo
  | HRedo
  | HClear.

Definition history_step (h : HistoryManagerImpl.t) (op : HistoryOp)
    : HistoryManagerImpl.t :=
  match op with
  | HPush ws a now => HistoryManagerImpl.push ws a now h
  | HUndo => (HistoryManagerImpl.undo h).2
  | HRedo => (HistoryManagerImpl.redo h).2
  | HClear => HistoryManagerImpl.clear h
  end.

(** The manager after a sequence of calls. *)
Definition history_run (ops : list HistoryOp) (h : HistoryManagerImpl.t)
    : HistoryManagerImpl.t :=
  fold_left history_step ops h.

(** The cursor is on an entry, or the history is empty and the cursor is
    [-1]; the history is within its bound. *)
Definition history_ok (h : HistoryManagerImpl.t) : Prop :=
  Z.of_nat (length (HistoryManagerImpl.history h))
  <= HistoryManagerImpl.maxSize h
  /\ ((HistoryManagerImpl.history h = []
       /\ HistoryManagerImpl.currentIndex h = -1)
      \/ 0 <= HistoryManagerImpl.currentIndex h
           < Z.of_nat (length (HistoryManagerImpl.history h))).

(** The repository after a sequence of calls. *)
Definition store_run (ops : list WaypointRepository.Op)
    (ws : list Waypoint) : list Waypoint :=
  fold_left WaypointRepository.step ops ws.

(** The Planner after a sequence of public calls, each with what it reads
    from outside. *)
Definition planner_run (calls : list (RoutePlanner.Call * Env))
    (p : RoutePlanner.t) : RoutePlanner.t :=
  fold_left (fun p ce => RoutePlanner.exec ce.1 ce.2 p) calls p.

(** The current statistics go with the current route: both absent, or
    both present with the step count of the route, a waypoint count of 2
    or more, and the steps numbered from 0.  The route's [waypoints] array
    is left out: it is the repository's own and changes with it. *)
Definition route_stats_agree (p : RoutePlanner.t) : Prop :=
  match RoutePlanner.currentRoute p, RoutePlanner.currentStats p with
  | None, None => True
  | Some r, Some st =>
      stepCount st = Z.of_nat (length (steps r))
      /\ 2 <= waypointCount st
      /\ ns_index <$> steps r = Z.of_nat <$> seq 0 (length (steps r))
  | _, _ => False
  end.

(** The events a waypoint or history call emits for itself. *)
Definition mutation_events : list string :=
  ["waypoint:added"; "waypoint:removed"; "waypoint:updated";
   "waypoint:reordered"; "history:change"].

End Runs.

(** ** A calculation in flight *)

Module InFlight.
Import RoutePlanner.

(** [recalculate] waits at [await this.calculator.calculate(waypoints)],
    and other calls on the Planner can run before it goes on.
    [recalculate_begin] is the call up to that point: it yields the
    waypoints handed to the calculator, or nothing when the call has
    ended without waiting. *)
Definition recalculate_begin (p : t) : js (option (list Waypoint)) * t :=
  if disposed p then (Throw disposed_message, p)
  else
    let waypoints := WaypointRepository.getAll (waypointRepo p) in
    if Z.of_nat (length waypoints) <? 2 then
      let previousStats := currentStats p in
      let p1 := set_route None None p in
      match previousStats with
      | Some prev =>
          (Ret None,
           emit "stats:updated"
                (StatsUpdated
                   (mkRouteStats 0 0 (Z.of_nat (length waypoints)) 0)
                   (Some prev))
                p1)
      | None => (Ret None, p1)
      end
    else
      (Ret (Some waypoints),
       emit "route:calculating"
            (RouteCalculating (Z.of_nat (length waypoints)))
            (set_calculating true p)).

(** The rest of the call, run on the Planner as it is once the calculator
    has settled with [outcome]: the [try] block after the [await], and the
    [catch].  [waypoints] is the array of the first part.  Nothing here
    looks at [this.disposed]. *)
Definition recalculate_settle
    (outcome : Settled (option RouteCalculationResult))
    (waypoints : list Waypoint) (p : t) : t :=
  match outcome with
  | Resolved (Some result) =>
      let previousStats := currentStats p in
      let p3 :=
        set_calculating false
          (set_route (Some (rc_route result)) (Some (rc_stats result)) p) in
      let p4 :=
        emit "route:calculated"
             (RouteCalculated (rc_route result) (rc_stats result)
                              (rc_steps result)) p3 in
      emit "stats:updated" (StatsUpdated (rc_stats result) previousStats) p4
  | Resolved None =>
      emit "route:error"
           (RouteError "Failed to calculate directions"
                       (Z.of_nat (length waypoints)))
           (set_calculating false p)
  | Rejected reason =>
      emit "route:error"
           (RouteError (as_error reason) (Z.of_nat (length waypoints)))
           (set_calculating false p)
  end.

(** A directions source that finds a route along [Scenario.bend]. *)
Definition found : DirectionsResponse :=
  mkDirectionsResponse Scenario.bend 10 5 [].

End InFlight.

(** ** The order of binary64 values *)

Module FloatOrder.

(** The place of a value in the order [<] of the numbers: a sign class,
    then exponent and mantissa, mirrored for the negative ones.  NaN has no
    place; the two zeros share one. *)
Definition key (f : spec_float) : option (Z * Z * Z) :=
  match f with
  | S754_nan => None
  | S754_zero _ => Some (0, 0, 0)
  | S754_infinity false => Some (2, 0, 0)
  | S754_infinity true => Some (-2, 0, 0)
  | S754_finite false m e => Some (1, e, Zpos m)
  | S754_finite true m e => Some (-1, - e, Zneg m)
  end.

Definition lex_compare (a b : Z * Z * Z) : comparison :=
  match a.1.1 ?= b.1.1 with
  | Eq => match a.1.2 ?= b.1.2 with
          | Eq => a.2 ?= b.2
          | c => c
          end
  | c => c
  end.

(** The segment [j] of a polyline as [findNearestPointOnLine] sees it: the
    projection of the probe on it. *)
Definition segment_result `{JsMath} (point : Coordinate)
    (line : list Position) (j : nat) : option Geo.SegmentResult :=
  a ← line !! j;
  b ← line !! S j;
  Some (Geo.nearestPointOnSegment point
          (mkCoordinate (pos0 a) (pos1 a)) (mkCoordinate (pos0 b) (pos1 b))).

(** What the search loop of [findNearestPointOnLine] has established when
    it is about to look at segment [i]: no segment before [i] is strictly
    nearer than the minimum kept; and either nothing is kept and the
    minimum is still [Infinity], or the kept values are those of a segment
    [k < i] whose distance is below [Infinity] and which no earlier segment
    equals or beats. *)
Definition search_inv `{JsMath} (point : Coordinate) (line : list Position)
    (i : nat) (s : Geo.Search) : Prop :=
  (forall j r, (j < i)%nat -> segment_result point line j = Some r ->
               (Geo.sr_distance r <? Geo.minDistance s)%float = false)
  /\ match Geo.nearestPoint s with
     | None => Geo.minDistance s = infinity
     | Some pt =>
         exists (k : nat) r,
           (k < i)%nat
           /\ Geo.segmentIndex s = Z.of_nat k
           /\ segment_result point line k = Some r
           /\ pt = Geo.sr_point r
           /\ Geo.minDistance s = Geo.sr_distance r
           /\ Geo.segmentFraction s = Geo.sr_fraction r
           /\ (Geo.sr_distance r <? infinity)%float = true
           /\ forall j r', (j < k)%nat ->
                 segment_result point line j = Some r' ->
                 (Geo.sr_distance r' <=? Geo.sr_distance r)%float = false
     end.

(** No coordinate of the polyline is NaN. *)
Definition no_nan (coordinates : list Position) : Prop :=
  Forall (fun c => is_nan (pos0 c) = false /\ is_nan (pos1 c) = false)
         coordinates.

End FloatOrder.

(** * Properties *)

(** ** The waypoint repository keeps its index invariant *)

Module WaypointRepositoryFacts.
Import WaypointRepository.

Lemma index_with_index i wp : wp_index (with_index i wp) = Z.of_nat i.
Proof. reflexivity. Qed.

(** A full reindex pass establishes the invariant, whatever the list. *)
Lemma reindex_invariant (ws : list Waypoint) : index_invariant (reindex ws).
Proof.
  unfold index_invariant, reindex.
  rewrite fmap_imap, length_imap.
  rewrite <- (imap_seq ws (fun j => Z.of_nat j)).
  apply imap_ext. intros i wp _. reflexivity.
Qed.

Lemma empty_invariant : index_invariant empty.
Proof. reflexivity. Qed.

(** [add] does not reindex: it relies on the invariant holding before. *)
Lemma add_invariant c name newId now ws :
  index_invariant ws -> index_invariant (add c name newId now ws).2.
Proof.
  unfold index_invariant, add. cbn [snd]. intros Hinv.
  rewrite fmap_app, length_app, Hinv. cbn [length fmap list_fmap wp_index].
  rewrite Nat.add_1_r, seq_S, fmap_app. reflexivity.
Qed.

Lemma insert_invariant c index name newId now ws :
  index_invariant (insert c index name newId now ws).2.
Proof. apply reindex_invariant. Qed.

Lemma remove_invariant id ws :
  index_invariant ws -> index_invariant (remove id ws).2.
Proof.
  intros Hinv. unfold remove.
  destruct (Js.findIndex _ ws =? -1); [exact Hinv|].
  destruct (Js.splice _ 1 [] ws) as [removed ws'].
  apply reindex_invariant.
Qed.

(** [update] replaces one element by a copy with the same [index]. *)
Lemma update_invariant id c ws :
  index_invariant ws -> index_invariant (update id c ws).2.
Proof.
  intros Hinv. unfold update.
  set (i := Js.findIndex _ ws).
  destruct (i =? -1); [exact Hinv|].
  unfold Js.get.
  destruct (i <? 0); [exact Hinv|].
  destruct (ws !! Z.to_nat i) as [old|] eqn:Hold; [|exact Hinv].
  cbn [snd]. unfold index_invariant.
  rewrite list_fmap_insert, length_insert.
  cbn [wp_index with_coordinate].
  rewrite list_insert_id; [exact Hinv|].
  rewrite list_lookup_fmap, Hold. reflexivity.
Qed.

Lemma reorder_invariant fromIndex toIndex ws :
  index_invariant ws -> index_invariant (reorder fromIndex toIndex ws).2.
Proof.
  intros Hinv. unfold reorder.
  destruct (_ || _); [exact Hinv|].
  destruct (Js.splice fromIndex 1 [] ws) as [removed ws1].
  apply reindex_invariant.
Qed.

Lemma setAll_invariant waypoints ws : index_invariant (setAll waypoints ws).
Proof. apply reindex_invariant. Qed.

Lemma step_invariant ws op : index_invariant ws -> index_invariant (step ws op).
Proof.
  intros Hinv. destruct op; cbn [step].
  - by apply add_invariant.
  - apply insert_invariant.
  - by apply remove_invariant.
  - by apply update_invariant.
  - by apply reorder_invariant.
  - apply setAll_invariant.
  - apply empty_invariant.
Qed.

Lemma states_invariant ops : forall ws,
  index_invariant ws -> Forall index_invariant (states ws ops).
Proof.
  induction ops as [|op ops IH]; intros ws Hinv; cbn [states].
  - constructor.
  - constructor; [|apply IH]; by apply step_invariant.
Qed.

(** C4. For every sequence of calls on a repository that starts empty (add,
    insert, remove, update, reorder, setAll, clear, with any arguments), the
    [index] fields of the waypoints are exactly [0 .. count - 1], in list
    order, after each call. *)
Theorem store_index_invariant (ops : list Op) :
  Forall (fun ws => wp_index <$> ws = Z.of_nat <$> seq 0 (length ws))
         (states empty ops).
Proof. apply (states_invariant ops empty empty_invariant). Qed.

End WaypointRepositoryFacts.

(** ** The history manager is bounded *)

Module HistoryFacts.
Import HistoryManagerImpl.

Lemma copy_id wp : copy wp = wp.
Proof. by destruct wp. Qed.

Lemma copy_all (ws : list Waypoint) : copy <$> ws = ws.
Proof.
  induction ws as [|wp ws IH]; [done|].
  by rewrite fmap_cons, copy_id, IH.
Qed.

(** [push] with the cursor on the last entry: nothing is truncated, the new
    entry is appended, and the front is dropped when the bound is passed. *)
Lemma push_at_end (ws : list Waypoint) action now hs m :
  1 <= m ->
  push ws action now (mk hs (Z.of_nat (length hs) - 1) m)
  = let hs' := hs ++ [mkHistoryEntry (copy <$> ws) now action] in
    let kept := drop (length hs' - Z.to_nat m) hs' in
    mk kept (Z.of_nat (length kept) - 1) m.
Proof.
  intros Hm. unfold push. cbn [history currentIndex maxSize].
  assert (Hslice : Js.slice 0 (Z.of_nat (length hs) - 1 + 1) hs = hs).
  { unfold Js.slice, Js.rel.
    replace (Z.of_nat (length hs) - 1 + 1) with (Z.of_nat (length hs)) by lia.
    destruct (Z.ltb_spec 0 0); [lia|].
    destruct (Z.ltb_spec (Z.of_nat (length hs)) 0); [lia|].
    rewrite Z.min_id, Z.min_l, Nat2Z.id by lia.
    change (Z.to_nat 0) with 0%nat.
    rewrite drop_0, Nat.sub_0_r. apply firstn_all. }
  rewrite Hslice. cbv zeta.
  set (hs' := hs ++ _).
  destruct (Z.ltb_spec m (Z.of_nat (length hs'))) as [Hlt|Hge].
  - unfold Js.slice_from, Js.rel.
    destruct (Z.ltb_spec (- m) 0); [|lia].
    replace (Z.to_nat (Z.max (Z.of_nat (length hs') + - m) 0))
      with (length hs' - Z.to_nat m)%nat by lia.
    reflexivity.
  - replace (length hs' - Z.to_nat m)%nat with 0%nat by lia.
    by rewrite drop_0.
Qed.

(** What the manager holds after pushing [items] into a new one. *)
Lemma push_all_new items m :
  1 <= m ->
  let kept := drop (length items - Z.to_nat m) (entry_of <$> items) in
  push_all items (new m) = mk kept (Z.of_nat (length kept) - 1) m.
Proof.
  intros Hm. induction items as [|it items IH] using rev_ind.
  - reflexivity.
  - unfold push_all in *. rewrite fold_left_app. cbn [fold_left].
    cbv zeta in IH. rewrite IH.
    rewrite push_at_end by exact Hm. cbv zeta.
    assert (Hkept :
      drop (length (drop (length items - Z.to_nat m) (entry_of <$> items)
                    ++ [mkHistoryEntry (copy <$> it.1.1) it.2 it.1.2])
            - Z.to_nat m)
           (drop (length items - Z.to_nat m) (entry_of <$> items)
            ++ [mkHistoryEntry (copy <$> it.1.1) it.2 it.1.2])
      = drop (length (items ++ [it]) - Z.to_nat m)
             (entry_of <$> items ++ [it])).
    { rewrite fmap_app. cbn [fmap list_fmap].
      change (mkHistoryEntry (copy <$> it.1.1) it.2 it.1.2) with (entry_of it).
      rewrite !length_app, length_drop, length_fmap. cbn [length].
      destruct (decide (length items < Z.to_nat m)%nat) as [Hlt|Hge].
      - replace (length items - Z.to_nat m)%nat with 0%nat by lia.
        replace (length items - 0 + 1 - Z.to_nat m)%nat with 0%nat by lia.
        replace (length items + 1 - Z.to_nat m)%nat with 0%nat by lia.
        by rewrite !drop_0.
      - rewrite <- drop_app_le by (rewrite length_fmap; lia).
        rewrite drop_drop. f_equal. lia. }
    rewrite Hkept. reflexivity.
Qed.

(** Consecutive undos walk the cursor down to 0 and stop there. *)
Lemma undo_n_spec n : forall hs c m,
  0 <= c ->
  undo_n n (mk hs c m)
  = ((fun i : nat =>
        if Z.of_nat i <? c then hs !! Z.to_nat (c - 1 - Z.of_nat i)
        else None) <$> seq 0 n,
     mk hs (Z.max 0 (c - Z.of_nat n)) m).
Proof.
  induction n as [|n IH]; intros hs c m Hc.
  - cbn [undo_n seq fmap list_fmap]. f_equal. f_equal. lia.
  - cbn [undo_n]. unfold undo, canUndo. cbn [currentIndex history maxSize].
    destruct (Z.ltb_spec 0 c) as [Hpos|Hzero]; cbn [negb].
    + rewrite IH by lia. cbn [seq fmap list_fmap].
      rewrite <- fmap_S_seq, <- list_fmap_compose.
      f_equal; [|f_equal; lia].
      f_equal.
      * unfold Js.get. destruct (Z.ltb_spec (c - 1) 0); [lia|].
        destruct (Z.ltb_spec (Z.of_nat 0) c); [|lia].
        f_equal. lia.
      * apply list_fmap_ext. intros _ i _. cbn [compose].
        destruct (Z.ltb_spec (Z.of_nat i) (c - 1)),
                 (Z.ltb_spec (Z.of_nat (S i)) c); try lia; [|done].
        f_equal. lia.
    + assert (c = 0) by lia. subst c.
      rewrite IH by lia. cbn [seq fmap list_fmap].
      rewrite <- fmap_S_seq, <- list_fmap_compose.
      f_equal; [|f_equal; lia]. f_equal.
      apply list_fmap_ext. intros _ i _. cbn [compose].
      destruct (Z.ltb_spec (Z.of_nat i) 0),
               (Z.ltb_spec (Z.of_nat (S i)) 0); try lia. done.
Qed.

(** An undo right after a push does not return the entry just pushed: it
    returns the one before it, and nothing when there is none. *)
Lemma undo_after_push (ws : list Waypoint) action now hs m :
  1 <= m -> Z.of_nat (length hs) < m ->
  (undo (push ws action now (mk hs (Z.of_nat (length hs) - 1) m))).1
  = last hs.
Proof.
  intros Hm Hlen. rewrite push_at_end by exact Hm. cbv zeta.
  rewrite length_app. cbn [length].
  replace (length hs + 1 - Z.to_nat m)%nat with 0%nat by lia.
  rewrite drop_0, length_app. cbn [length].
  unfold undo, canUndo. cbn [currentIndex history maxSize].
  destruct hs as [|e hs] using rev_ind; [reflexivity|].
  rewrite length_app in *. cbn [length] in *.
  destruct (Z.ltb_spec 0 (Z.of_nat (length hs + 1 + 1) - 1)); [|lia].
  cbn [negb fst]. unfold Js.get.
  destruct (Z.ltb_spec (Z.of_nat (length hs + 1 + 1) - 1 - 1) 0); [lia|].
  replace (Z.to_nat (Z.of_nat (length hs + 1 + 1) - 1 - 1))
    with (length hs) by lia.
  rewrite last_snoc, <- app_assoc.
  by apply list_lookup_middle.
Qed.

(** C5. For a bound [m >= 1] and [k >= 1], pushing [m + k] snapshots into a
    new manager leaves exactly [m] entries, which are the pushed ones
    without the [k] oldest, in order.  Any number of consecutive undos then
    returns the entries below the newest one by one, down to the oldest
    retained entry, and nothing afterwards: every entry an undo returns is
    a retained one, and the cursor stays on the oldest retained entry. *)
Theorem bounded_history (m k : Z)
    (items : list (list Waypoint * HistoryAction * Z)) :
  1 <= m -> 1 <= k -> Z.of_nat (length items) = m + k ->
  let h := push_all items (new m) in
  history h = drop (Z.to_nat k) (entry_of <$> items)
  /\ Z.of_nat (length (history h)) = m
  /\ forall n : nat,
       (undo_n n h).1
       = (fun i : nat =>
            if Z.of_nat i <? m - 1
            then history h !! Z.to_nat (m - 2 - Z.of_nat i)
            else None) <$> seq 0 n
       /\ (forall e, Some e ∈ (undo_n n h).1 -> e ∈ history h)
       /\ 0 <= currentIndex (undo_n n h).2
       /\ history (undo_n n h).2 = history h.
Proof.
  intros Hm Hk Hlen h.
  assert (Hh : h = mk (drop (Z.to_nat k) (entry_of <$> items)) (m - 1) m).
  { unfold h. rewrite push_all_new by exact Hm. cbv zeta.
    replace (length items - Z.to_nat m)%nat with (Z.to_nat k) by lia.
    f_equal. rewrite length_drop, length_fmap. lia. }
  rewrite Hh. cbn [history].
  split; [reflexivity|].
  split; [rewrite length_drop, length_fmap; lia|].
  intros n. rewrite undo_n_spec by lia. cbn [fst snd currentIndex history].
  split; [|split; [|split; [lia|reflexivity]]].
  - apply list_fmap_ext. intros _ i _.
    destruct (Z.ltb_spec (Z.of_nat i) (m - 1)); [|done].
    f_equal. lia.
  - intros e He. apply list_elem_of_fmap in He as (i & Hi & _).
    destruct (Z.of_nat i <? m - 1); [|done].
    symmetry in Hi. by apply list_elem_of_lookup_2 in Hi.
Qed.

(** An instance of C5: bound 2 and three pushes. *)
Lemma bounded_history_witness :
  let items := [([], ActAdd, 10); ([], ActAdd, 11); ([], ActRemove, 12)] in
  let h := push_all items (new 2) in
  history h = drop (Z.to_nat 1) (entry_of <$> items)
  /\ Z.of_nat (length (history h)) = 2
  /\ forall n : nat,
       (undo_n n h).1
       = (fun i : nat =>
            if Z.of_nat i <? 2 - 1
            then history h !! Z.to_nat (2 - 2 - Z.of_nat i)
            else None) <$> seq 0 n
       /\ (forall e, Some e ∈ (undo_n n h).1 -> e ∈ history h)
       /\ 0 <= currentIndex (undo_n n h).2
       /\ history (undo_n n h).2 = history h.
Proof.
  apply (bounded_history 2 1
           [([], ActAdd, 10); ([], ActAdd, 11); ([], ActRemove, 12)]);
    [lia | lia | reflexivity].
Defined.

End HistoryFacts.

(** ** The event bus registers a listener once *)

Module EventBusFacts.
Import EventBusImpl.

Lemma set_add_elem x (s : list Listener) : x ∈ set_add x s.
Proof.
  unfold set_add. case_decide; [done|]. set_solver.
Qed.




Lemma set_delete_gone x (s : list Listener) : x ∉ set_delete x s.
Proof.
  unfold set_delete. rewrite list_elem_of_filter. tauto.
Qed.


(** The registry of [event] after [on]. *)
Lemma on_listeners event l b :
  listeners (on event l b).2 !! event
  = Some (set_add l (default [] (listeners b !! event))).
Proof.
  unfold on. cbn [snd listeners].
  destruct (listeners b !! event) as [s|] eqn:Hs.
  - rewrite Hs. by rewrite lookup_insert_eq.
  - rewrite lookup_insert_eq. cbn [default]. by rewrite lookup_insert_eq.
Qed.



Lemma off_calls event l b : calls (off event l b) = calls b.
Proof. unfold off. by destruct (listeners b !! event). Qed.

(** [emit] runs the registry in order: one call per member. *)
Lemma run_calls event data s : forall b,
  calls (fold_left (invoke event data) s b)
  = calls b ++ ((fun l => (fn_of l, event, data)) <$> s).
Proof.
  induction s as [|l s IH]; intros b; cbn [fold_left fmap list_fmap].
  - by rewrite app_nil_r.
  - rewrite IH. destruct l as [r|k r]; cbn [invoke calls fn_of].
    + by rewrite <- app_assoc.
    + rewrite off_calls. by rewrite <- app_assoc.
Qed.

Lemma emit_calls event data b :
  calls (emit event data b)
  = calls b
    ++ ((fun l => (fn_of l, event, data))
          <$> default [] (listeners b !! event)).
Proof.
  unfold emit. destruct (listeners b !! event) as [s|]; cbn [default].
  - apply run_calls.
  - by rewrite app_nil_r.
Qed.





Lemma off_wf event l b : wf b -> wf (off event l b).
Proof.
  intros Hwf e s. unfold off.
  destruct (listeners b !! event) as [s0|] eqn:Hs0; [|apply Hwf].
  cbn [listeners]. destruct (decide (event = e)) as [->|Hne].
  - rewrite lookup_insert_eq. intros [= <-].
    apply NoDup_filter. by apply (Hwf e).
  - rewrite lookup_insert_ne by done. apply Hwf.
Qed.



Lemma invoke_wf event data l b : wf b -> wf (invoke event data b l).
Proof.
  intros Hwf. destruct l as [r|k r]; cbn [invoke]; [exact Hwf|].
  exact (off_wf event (OnceWrapper k r) b Hwf).
Qed.

Lemma emit_wf event data b : wf b -> wf (emit event data b).
Proof.
  intros Hwf. unfold emit.
  destruct (listeners b !! event) as [s|]; [|exact Hwf].
  revert b Hwf. induction s as [|l s IH]; intros b Hwf; [exact Hwf|].
  cbn [fold_left]. apply IH. by apply invoke_wf.
Qed.

Lemma removeAllListeners_wf event b : wf b -> wf (removeAllListeners event b).
Proof.
  intros Hwf e s. destruct event as [e'|]; cbn [removeAllListeners].
  - case_decide; cbn [listeners].
    + by rewrite lookup_empty.
    + intros Hs. apply lookup_delete_Some in Hs as [_ Hs].
      by apply (Hwf e).
  - cbn [listeners]. by rewrite lookup_empty.
Qed.




End EventBusFacts.

(** ** The Planner *)

Module PlannerFacts.
Import RoutePlanner.

(** Case analysis on every [match] and [if] of a goal about a Planner
    call, then computation. *)
Ltac split_calls :=
  repeat match goal with
         | |- context [match ?x with _ => _ end] => destruct x eqn:?
         | |- context [if ?b then _ else _] => destruct b eqn:?
         end.

Lemma emit_disposed event data p : disposed (emit event data p) = disposed p.
Proof. reflexivity. Qed.

Lemma recalculate_disposed env p :
  disposed (recalculate env p).2 = disposed p.
Proof. unfold recalculate. split_calls; cbn; congruence. Qed.

Lemma finish_disposed {A} (a : A) env p :
  disposed (finish a env p).2 = disposed p.
Proof.
  unfold finish. destruct (autoRecalculate (options p)); [|reflexivity].
  pose proof (recalculate_disposed env p) as H.
  destruct (recalculate env p) as [r p']. exact H.
Qed.

(** Only [dispose] sets the flag, and nothing clears it. *)
Lemma exec_disposed c env p :
  c <> Dispose -> disposed (exec c env p) = disposed p.
Proof.
  intros Hc. destruct c; try done; cbn [exec].
  - unfold addWaypoint. destruct (disposed p) eqn:Hd; [exact Hd|].
    destruct (WaypointRepository.add _ _ _ _ _) as [w r].
    by rewrite finish_disposed.
  - unfold insertWaypoint. destruct (disposed p) eqn:Hd; [exact Hd|].
    destruct (WaypointRepository.insert _ _ _ _ _ _) as [w r].
    by rewrite finish_disposed.
  - unfold removeWaypoint. destruct (disposed p) eqn:Hd; [exact Hd|].
    destruct (WaypointRepository.getById _ _); [|exact Hd].
    by rewrite finish_disposed.
  - unfold updateWaypoint. destruct (disposed p) eqn:Hd; [exact Hd|].
    destruct (WaypointRepository.getById _ _); [|exact Hd].
    destruct (WaypointRepository.update _ _ _) as [[prev|] r]; [|exact Hd].
    destruct (WaypointRepository.getById _ _); [|exact Hd].
    by rewrite finish_disposed.
  - unfold reorderWaypoints. destruct (disposed p) eqn:Hd; [exact Hd|].
    destruct (WaypointRepository.reorder _ _ _) as [[|] r]; [|exact Hd].
    cbn [negb]. by rewrite finish_disposed.
  - unfold clear. destruct (disposed p) eqn:Hd; [exact Hd|].
    cbn. by destruct (0 <? _).
  - unfold undo. destruct (disposed p) eqn:Hd; [exact Hd|].
    destruct (HistoryManagerImpl.undo _) as [[e|] h]; [|exact Hd].
    by rewrite finish_disposed.
  - unfold redo. destruct (disposed p) eqn:Hd; [exact Hd|].
    destruct (HistoryManagerImpl.redo _) as [[e|] h]; [|exact Hd].
    by rewrite finish_disposed.
  - apply recalculate_disposed.
Qed.

(** A call on a disposed Planner leaves the repository, the history, the
    route and the statistics as they are. *)
Lemma exec_after_dispose c env p :
  disposed p = true ->
  c <> Dispose ->
  waypointRepo (exec c env p) = waypointRepo p
  /\ history (exec c env p) = history p
  /\ currentRoute (exec c env p) = currentRoute p
  /\ currentStats (exec c env p) = currentStats p.
Proof.
  intros Hd Hc. destruct c; try done; cbn [exec].
  all: unfold addWaypoint, insertWaypoint, removeWaypoint, updateWaypoint,
         reorderWaypoints, clear, undo, redo, recalculate;
       rewrite Hd; done.
Qed.

Lemma disposed_torn_down p : reachable p -> disposed p = true -> torn_down p.
Proof.
  induction 1 as [opts|c env p Hp IH]; intros Hd.
  - discriminate.
  - assert (Hdec : c = Dispose \/ c <> Dispose)
      by (destruct c; (by left) || (by right)).
    destruct Hdec as [->|Hc].
    + cbn [exec]. by repeat split.
    + rewrite exec_disposed in Hd by exact Hc.
      destruct (exec_after_dispose c env p Hd Hc) as (Hr & Hh & Hro & Hs).
      destruct (IH Hd) as (? & ? & ? & ? & ?).
      unfold torn_down. rewrite Hr, Hh, Hro, Hs. done.
Qed.

(** A Planner that holds waypoints has not been disposed. *)
Lemma live_of_waypoints p :
  reachable p -> (0 < length (waypointRepo p))%nat -> disposed p = false.
Proof.
  intros Hp Hlen. destruct (disposed p) eqn:Hd; [|reflexivity].
  destruct (disposed_torn_down p Hp Hd) as (Hr & _).
  rewrite Hr in Hlen. cbn in Hlen. lia.
Qed.

(** *** Disposal *)

(** C3, as stated, fails: on a disposed Planner the read-only operations
    answer instead of failing. *)
Lemma getters_answer_after_dispose :
  let d := dispose Scenario.two in
  getRoute d = Ret None
  /\ getRoute d <> Throw disposed_message
  /\ getStats d = Ret None
  /\ getWaypoints d = Ret []
  /\ canUndo d = Ret false
  /\ (forall (M : JsMath) c th, isOffRoute c th d = Ret false).
Proof. cbv zeta. split_and!; try reflexivity. discriminate. Qed.

(** A disposed Planner that was reached by whole calls is torn down, and
    the read-only operations answer from that state. *)
Lemma getters_when_torn_down (p : t) :
  reachable p -> disposed p = true ->
  getRoute p = Ret None
  /\ getStats p = Ret None
  /\ getWaypoints p = Ret []
  /\ getNavigationSteps p = Ret []
  /\ canUndo p = Ret false
  /\ canRedo p = Ret false
  /\ getHistorySize p = Ret 0
  /\ (forall (M : JsMath) c th, isOffRoute c th p = Ret false)
  /\ (forall (M : JsMath) c, getNearestPointOnRoute c p = Ret None)
  /\ (forall (M : JsMath) c, getRemainingDistance c p = Ret None).
Proof.
  intros Hp Hd.
  destruct (disposed_torn_down p Hp Hd) as (Hr & Hh & Hi & Hro & Hs).
  unfold getRoute, getStats, getWaypoints, getNavigationSteps, canUndo,
    canRedo, getHistorySize, isOffRoute, getNearestPointOnRoute,
    getRemainingDistance, has_route, HistoryManagerImpl.canUndo,
    HistoryManagerImpl.canRedo, HistoryManagerImpl.getSize,
    WaypointRepository.getAll.
  rewrite Hr, Hh, Hi, Hro, Hs.
  split_and!; reflexivity.
Qed.

(** The guarded calls fail on any Planner whose flag is set, however it
    got there. *)
Lemma guarded_calls_fail (p : t) :
  disposed p = true ->
  (forall c name env, addWaypoint c name env p = (Throw disposed_message, p))
  /\ (forall c i name env,
        insertWaypoint c i name env p = (Throw disposed_message, p))
  /\ (forall id env, removeWaypoint id env p = (Throw disposed_message, p))
  /\ (forall id c env,
        updateWaypoint id c env p = (Throw disposed_message, p))
  /\ (forall f t env,
        reorderWaypoints f t env p = (Throw disposed_message, p))
  /\ (forall env, clear env p = (Throw disposed_message, p))
  /\ (forall env, undo env p = (Throw disposed_message, p))
  /\ (forall env, redo env p = (Throw disposed_message, p))
  /\ (forall env, recalculate env p = (Throw disposed_message, p)).
Proof.
  intros Hd.
  unfold addWaypoint, insertWaypoint, removeWaypoint, updateWaypoint,
    reorderWaypoints, clear, undo, redo, recalculate.
  rewrite Hd. split_and!; reflexivity.
Qed.

(** [on], [once] and [off] have no guard: they act on the registry of a
    disposed Planner as on any other. *)
Lemma listeners_calls_unguarded (p : t) :
  (forall event l,
     l ∈ default [] (EventBusImpl.listeners (events (on event l p).2)
                       !! event))
  /\ (forall event r,
        EventBusImpl.OnceWrapper (EventBusImpl.wrappers (events p)) r
        ∈ default [] (EventBusImpl.listeners (events (once event r p).2)
                        !! event))
  /\ (forall event l,
        l ∉ default [] (EventBusImpl.listeners (events (off event l p))
                          !! event)).
Proof.
  split_and!.
  - intros event l. unfold on.
    pose proof (EventBusFacts.on_listeners event l (events p)) as H.
    destruct (EventBusImpl.on event l (events p)) as [hd b].
    cbn [snd events set_events] in *. rewrite H. cbn [default].
    apply EventBusFacts.set_add_elem.
  - intros event r. unfold once, EventBusImpl.once.
    match goal with
    | |- context [EventBusImpl.on ?e ?l ?b] =>
        pose proof (EventBusFacts.on_listeners e l b) as H;
        destruct (EventBusImpl.on e l b) as [hd b']
    end.
    cbn [snd events set_events] in *. rewrite H. cbn [default].
    apply EventBusFacts.set_add_elem.
  - intros event l. unfold off, EventBusImpl.off.
    cbn [events set_events].
    destruct (EventBusImpl.listeners (events p) !! event) as [s|] eqn:Hs.
    + cbn [EventBusImpl.listeners]. rewrite lookup_insert_eq.
      cbn [default]. apply EventBusFacts.set_delete_gone.
    + rewrite Hs. cbn [default]. apply not_elem_of_nil.
Qed.

Lemma reachable_two : reachable Scenario.two.
Proof.
  apply (reach_call (AddWaypoint Scenario.corner None) Scenario.env_b).
  apply (reach_call (AddWaypoint Scenario.origin None) Scenario.env_a).
  apply reach_new.
Qed.

(** [recalculate] is its two parts, one after the other. *)
Lemma recalculate_two_parts env p :
  recalculate env p
  = match InFlight.recalculate_begin p with
    | (Throw m, q) => (Throw m, q)
    | (Ret None, q) => (Ret tt, q)
    | (Ret (Some waypoints), q) =>
        (Ret tt,
         InFlight.recalculate_settle
           (RouteCalculatorAdapter.calculate waypoints (env_provider env)
                                             (env_stepId env))
           waypoints q)
    end.
Proof.
  unfold recalculate, InFlight.recalculate_begin,
    InFlight.recalculate_settle.
  split_calls; try reflexivity; try congruence.
Qed.

(** [dispose] does not stop a calculation in flight.  Two waypoints, a
    [recalculate] that is waiting for the directions source, [dispose],
    and then the source answers: the disposed Planner holds the route and
    the statistics of that answer. *)
Lemma route_written_after_dispose :
  match InFlight.recalculate_begin Scenario.two with
  | (Ret (Some waypoints), q) =>
      let d := dispose q in
      let r :=
        InFlight.recalculate_settle
          (RouteCalculatorAdapter.calculate waypoints
             (Resolved (Some InFlight.found)) (fun _ => "s"))
          waypoints d in
      length waypoints = 2%nat
      /\ disposed d = true
      /\ getRoute d = Ret None
      /\ disposed r = true
      /\ (exists route,
            getRoute r = Ret (Some route)
            /\ geometry route = Scenario.bend)
      /\ (exists stats,
            getStats r = Ret (Some stats) /\ waypointCount stats = 2)
      /\ isCalculating r = Ret false
  | _ => False
  end.
Proof.
  cbn. split_and!; try reflexivity.
  - eexists. split; reflexivity.
  - eexists. split; reflexivity.
Qed.

(** *** A failed calculation *)

(** C8. On a Planner holding at least two waypoints, when the directions
    source returns nothing or throws, [recalculate] returns normally, emits
    [route:calculating] and then [route:error] with a description of the
    failure and the number of waypoints, and leaves the current route and
    the current statistics as they were. *)
Theorem recalculate_failure (p : t) (env : Env) :
  reachable p ->
  (2 <= length (waypointRepo p))%nat ->
  (env_provider env = Resolved None
   \/ exists reason, env_provider env = Rejected reason) ->
  let n := Z.of_nat (length (waypointRepo p)) in
  let description :=
    match env_provider env with
    | Rejected reason => as_error reason
    | Resolved _ => "Failed to calculate directions"
    end in
  (recalculate env p).1 = Ret tt
  /\ emitted (recalculate env p).2
     = emitted p ++ [("route:calculating", RouteCalculating n);
                     ("route:error", RouteError description n)]
  /\ currentRoute (recalculate env p).2 = currentRoute p
  /\ currentStats (recalculate env p).2 = currentStats p
  /\ calculating (recalculate env p).2 = false.
Proof.
  intros Hp Hlen Hfail n description.
  assert (Hd : disposed p = false) by (apply live_of_waypoints; [done|lia]).
  unfold recalculate. rewrite Hd.
  unfold WaypointRepository.getAll, RouteCalculatorAdapter.calculate.
  destruct (Z.ltb_spec (Z.of_nat (length (waypointRepo p))) 2) as [Hlt|_];
    [lia|].
  destruct Hfail as [Hnone|[reason Hrej]]; subst description.
  - rewrite Hnone. cbn. rewrite <- app_assoc. done.
  - rewrite Hrej. cbn. rewrite <- app_assoc. done.
Qed.

(** An instance of C8: two waypoints and a source that finds no route. *)
Lemma recalculate_failure_witness :
  let p := Scenario.two in
  let env := Scenario.env_c in
  (recalculate env p).1 = Ret tt
  /\ emitted (recalculate env p).2
     = emitted p ++ [("route:calculating", RouteCalculating 2);
                     ("route:error",
                      RouteError "Failed to calculate directions" 2)]
  /\ currentRoute (recalculate env p).2 = currentRoute p
  /\ currentStats (recalculate env p).2 = currentStats p
  /\ calculating (recalculate env p).2 = false.
Proof.
  apply (recalculate_failure Scenario.two Scenario.env_c).
  - apply reachable_two.
  - vm_compute. lia.
  - left. reflexivity.
Defined.

(** *** Calls whose target is missing *)

(** [removeWaypoint] with an unknown id changes nothing. *)
Lemma remove_unknown_noop id env p :
  disposed p = false ->
  WaypointRepository.getById id (waypointRepo p) = None ->
  removeWaypoint id env p = (Ret tt, p).
Proof. intros Hd Hid. unfold removeWaypoint. by rewrite Hd, Hid. Qed.

(** [updateWaypoint] with an unknown id changes nothing. *)
Lemma update_unknown_noop id c env p :
  disposed p = false ->
  WaypointRepository.getById id (waypointRepo p) = None ->
  updateWaypoint id c env p = (Ret tt, p).
Proof. intros Hd Hid. unfold updateWaypoint. by rewrite Hd, Hid. Qed.

(** [reorderWaypoints] pushes its snapshot before the repository checks the
    indices: with an index out of range the repository and the events are
    untouched, but the history has one more entry and its redo tail is
    gone. *)
Lemma reorder_out_of_range fromIndex toIndex env p :
  disposed p = false ->
  (fromIndex < 0 \/ Z.of_nat (length (waypointRepo p)) <= fromIndex
   \/ toIndex < 0 \/ Z.of_nat (length (waypointRepo p)) <= toIndex) ->
  reorderWaypoints fromIndex toIndex env p
  = (Ret tt,
     set_history
       (HistoryManagerImpl.push (waypointRepo p) ActReorder (env_pushed env)
                                (history p)) p).
Proof.
  intros Hd Hrange. unfold reorderWaypoints, WaypointRepository.reorder.
  rewrite Hd. cbn [waypointRepo set_history].
  assert (Hguard :
    (fromIndex <? 0) || (Z.of_nat (length (waypointRepo p)) <=? fromIndex)
    || (toIndex <? 0) || (Z.of_nat (length (waypointRepo p)) <=? toIndex)
    = true).
  { rewrite !orb_true_iff, !Z.ltb_lt, !Z.leb_le. tauto. }
  rewrite Hguard. cbn [negb]. by destruct p.
Qed.

(** C2 at a failing input: two waypoints, then [reorderWaypoints(5, 0)].
    The call returns, the repository and the emitted events are as before,
    and the history has grown from 2 entries to 3. *)
Theorem reorder_miss_pushes_history :
  let p := Scenario.two in
  let p' := (reorderWaypoints 5 0 Scenario.env_c p).2 in
  (reorderWaypoints 5 0 Scenario.env_c p).1 = Ret tt
  /\ waypointRepo p' = waypointRepo p
  /\ emitted p' = emitted p
  /\ getHistorySize p = Ret 2
  /\ getHistorySize p' = Ret 3
  /\ history p' <> history p.
Proof. cbv zeta. split_and!; try reflexivity. by vm_compute. Qed.

(** *** Undo *)

(** On a new Planner, whatever its options, one [addWaypoint] followed by
    one [undo] leaves the added waypoint in place: the history holds at most
    the snapshot of the empty list, with the cursor on it, and [canUndo]
    asks for a cursor above 0. *)
Lemma undo_after_first_add opts c name env env' :
  let p1 := (addWaypoint c name env (new opts)).2 in
  undo env' p1 = (Ret false, p1)
  /\ length (waypointRepo p1) = 1%nat.
Proof.
  destruct opts as [m th auto].
  destruct auto, m as [|[q|q|]|[q|q|]]; split; reflexivity.
Qed.

(** C1 at a failing input: a new Planner, one [addWaypoint], one [undo].
    The undo reports that there is nothing to undo and the added waypoint
    stays.  From there, one more [addWaypoint] and one [undo] empty the
    repository instead of returning to the single waypoint. *)
Theorem undo_misses_last_change :
  undo Scenario.env_b Scenario.one = (Ret false, Scenario.one)
  /\ length (waypointRepo Scenario.fresh) = 0%nat
  /\ length (waypointRepo (undo_times 1 Scenario.env_b Scenario.one)) = 1%nat
  /\ (undo Scenario.env_c Scenario.two).1 = Ret true
  /\ length (waypointRepo Scenario.one) = 1%nat
  /\ length (waypointRepo (undo_times 1 Scenario.env_c Scenario.two)) = 0%nat.
Proof. split_and!; reflexivity. Qed.

End PlannerFacts.

(** ** Facts about binary64 arithmetic *)

Module FloatFacts.

Lemma one_SF : Prim2SF 1%float = S754_finite false 4503599627370496 (-52).
Proof. vm_compute. reflexivity. Qed.

(** Rounding the exact product of a representable mantissa with [2^52], at
    an exponent lowered by 52, gives the number back. *)
Lemma round_times_one s mx ex :
  bounded prec emax mx ex = true ->
  binary_round_aux prec emax s (Zpos (mx * 4503599627370496)) (ex + -52)
                   loc_Exact
  = S754_finite s mx ex.
Proof.
  unfold bounded, canonical_mantissa. intros Hb.
  apply andb_true_iff in Hb as [Hc He].
  apply Z.eqb_eq in Hc.
  rewrite Pos.mul_comm.
  lazy beta iota delta [Pos.mul].
  unfold binary_round_aux, shr_fexp.
  cbn [Zdigits2 digits2_pos shr_record_of_loc].
  match goal with
  | |- context [fexp prec emax ?a - ?b] =>
      replace (fexp prec emax a - b) with 52
        by (replace a with (Z.pos (digits2_pos mx) + ex) by lia;
            rewrite Hc; lia)
  end.
  cbn [shr SpecFloat.iter_pos shr_1 orb shr_m loc_of_shr_record
       round_nearest_even Zdigits2].
  replace (ex + -52 + 52) with ex by lia.
  rewrite Hc, Z.sub_diag. cbn [shr shr_m]. rewrite He. reflexivity.
Qed.

(** Multiplying by 1 is exact, for every binary64 value. *)
Lemma mul_one_r (x : float) : (x * 1)%float = x.
Proof.
  apply Prim2SF_inj. rewrite mul_spec, one_SF.
  pose proof (Prim2SF_valid x) as Hv.
  destruct (Prim2SF x) as [s|s| |s m e]; unfold SF64mul; cbn [SFmul].
  - by rewrite xorb_false_r.
  - by rewrite xorb_false_r.
  - reflexivity.
  - rewrite xorb_false_r. apply round_times_one. exact Hv.
Qed.

Lemma SFcompare_Eq_sym a b :
  SFcompare a b = Some Eq -> SFcompare b a = Some Eq.
Proof.
  destruct a as [s1|s1| |s1 m1 e1], b as [s2|s2| |s2 m2 e2]; cbn [SFcompare];
    try discriminate; try reflexivity;
    try (destruct s1; discriminate); try (destruct s2; discriminate).
  - destruct s1, s2; try discriminate; reflexivity.
  - intros H.
    assert (He : (e1 ?= e2) = Eq)
      by (destruct s1, s2, (e1 ?= e2); first [reflexivity | discriminate]).
    assert (Hm : Pos.compare_cont Eq m1 m2 = Eq).
    { rewrite He in H.
      destruct s1, s2, (Pos.compare_cont Eq m1 m2);
        first [reflexivity | discriminate]. }
    apply Z.compare_eq in He. apply Pos.compare_eq in Hm. subst e2 m2.
    rewrite Z.compare_refl.
    change (Pos.compare_cont Eq m1 m1) with (Pos.compare m1 m1).
    rewrite Pos.compare_refl. by destruct s1, s2.
Qed.

(** Two numbers that [===] finds equal are not in the order [<]. *)
Lemma eqb_not_ltb (x y : float) :
  (x =? y)%float = true -> (y <? x)%float = false.
Proof.
  rewrite FloatAxioms.eqb_spec, FloatAxioms.ltb_spec. unfold SFeqb, SFltb.
  destruct (SFcompare (Prim2SF x) (Prim2SF y)) as [[| |]|] eqn:Hc;
    try discriminate.
  intros _. by rewrite (SFcompare_Eq_sym _ _ Hc).
Qed.

End FloatFacts.

(** ** Geometry *)

Module GeoFacts.
Import Geo.

Section WithMath.
Context {M : JsMath}.

Lemma js_elem_lookup {A} (l : list A) (i : Z) (a : A) :
  0 <= i -> l !! Z.to_nat i = Some a -> js_elem l i = Ret a.
Proof.
  intros Hi Ha. unfold js_elem, Js.get.
  destruct (Z.ltb_spec i 0); [lia|]. by rewrite Ha.
Qed.

Lemma segment_lengths_length (coords : list Position) :
  length (GeoSpec.segment_lengths coords) = (length coords - 1)%nat.
Proof.
  unfold GeoSpec.segment_lengths.
  rewrite length_zip_with, length_tl. lia.
Qed.

(** Segment [k] joins points [k] and [k + 1]. *)
Lemma segment_lengths_lookup (coords : list Position) (k : nat) d :
  GeoSpec.segment_lengths coords !! k = Some d ->
  exists a b,
    coords !! k = Some a /\ coords !! S k = Some b
    /\ d = calculateDistance (positionToCoordinate a) (positionToCoordinate b).
Proof.
  unfold GeoSpec.segment_lengths. intros Hd.
  apply lookup_zip_with_Some in Hd as (a & b & -> & Ha & Hb).
  rewrite lookup_tail in Hb. by exists a, b.
Qed.

(** One round of a length loop adds the length of segment [i]. *)
Lemma add_segment_lookup (coords : list Position) (i : Z) d acc :
  0 <= i ->
  GeoSpec.segment_lengths coords !! Z.to_nat i = Some d ->
  add_segment coords i acc = Ret (acc + d)%float.
Proof.
  intros Hi Hd.
  apply segment_lengths_lookup in Hd as (a & b & Ha & Hb & ->).
  unfold add_segment.
  rewrite (js_elem_lookup coords i a) by done.
  rewrite (js_elem_lookup coords (i + 1) b)
    by (try lia; by replace (Z.to_nat (i + 1)) with (S (Z.to_nat i)) by lia).
  reflexivity.
Qed.

(** The length loop from segment [i], [n] rounds: it returns, having added
    the lengths of segments [i .. i + n - 1] in order. *)
Lemma length_loop (coords : list Position) (n : nat) : forall i acc,
  0 <= i ->
  (Z.to_nat i + n <= length (GeoSpec.segment_lengths coords))%nat ->
  for_loop n i (add_segment coords) acc
  = Ret (fold_left PrimFloat.add
           (take n (drop (Z.to_nat i) (GeoSpec.segment_lengths coords))) acc).
Proof.
  induction n as [|n IH]; intros i acc Hi Hlen; [reflexivity|].
  cbn [for_loop].
  destruct (GeoSpec.segment_lengths coords !! Z.to_nat i) as [d|] eqn:Hd.
  - rewrite (add_segment_lookup coords i d acc Hi Hd).
    change (for_loop n (i + 1) (add_segment coords) (acc + d)%float
            = Ret (fold_left PrimFloat.add
                     (take (S n) (drop (Z.to_nat i)
                                       (GeoSpec.segment_lengths coords)))
                     acc)).
    rewrite IH by lia.
    rewrite (drop_S _ d (Z.to_nat i)) by exact Hd.
    cbn [take fold_left].
    by replace (Z.to_nat (i + 1)) with (S (Z.to_nat i)) by lia.
  - apply lookup_ge_None in Hd. lia.
Qed.

(** The line length computed by the loop is the sum of the segment
    lengths. *)
Lemma calculateLineLength_sum (coords : list Position) :
  calculateLineLength coords = Ret (GeoSpec.lineLength coords).
Proof.
  unfold calculateLineLength, GeoSpec.lineLength, GeoSpec.sum.
  destruct (Z.ltb_spec (Z.of_nat (length coords)) 2) as [Hshort|Hlong].
  - destruct coords as [|a [|b rest]]; [done|done|]. cbn in Hshort. lia.
  - unfold for_range. rewrite length_loop.
    + rewrite drop_0, firstn_all2; [done|].
      rewrite segment_lengths_length. lia.
    + lia.
    + rewrite segment_lengths_length. lia.
Qed.

(** C6. For a segment index [fromIndex >= 0], [calculateRemainingLength]
    returns the length of segment [fromIndex] scaled by
    [1 - fromFraction] plus the lengths of the segments after it, summed in
    order from 0; it returns 0 when [fromIndex] is at or past the last
    segment or the line has fewer than 2 points. *)
Theorem remaining_length_refines (coordinates : list Position)
    (fromIndex : Z) (fromFraction : float) :
  0 <= fromIndex ->
  calculateRemainingLength coordinates fromIndex fromFraction
  = Ret (GeoSpec.remainingDistance coordinates fromIndex fromFraction).
Proof.
  intros Hi. unfold calculateRemainingLength, GeoSpec.remainingDistance.
  destruct (_ || _) eqn:Hguard; [reflexivity|].
  apply orb_false_iff in Hguard as [Hlen Hlast].
  apply Z.ltb_ge in Hlen. apply Z.leb_gt in Hlast.
  destruct (GeoSpec.segment_lengths coordinates !! Z.to_nat fromIndex)
    as [d|] eqn:Hd.
  - pose proof Hd as Hd'.
    apply segment_lengths_lookup in Hd' as (a & b & Ha & Hb & ->).
    rewrite (js_elem_lookup coordinates fromIndex a) by done.
    rewrite (js_elem_lookup coordinates (fromIndex + 1) b)
      by (try lia;
          by replace (Z.to_nat (fromIndex + 1))
               with (S (Z.to_nat fromIndex)) by lia).
    change (for_range (fromIndex + 1) (Z.of_nat (length coordinates) - 1)
              (add_segment coordinates)
              (0 + calculateDistance (positionToCoordinate a)
                                     (positionToCoordinate b)
                   * (1 - fromFraction))%float
            = Ret (GeoSpec.sum
                     ((calculateDistance (positionToCoordinate a)
                                         (positionToCoordinate b)
                       * (1 - fromFraction))%float
                      :: drop (S (Z.to_nat fromIndex))
                              (GeoSpec.segment_lengths coordinates)))).
    unfold for_range. rewrite length_loop.
    + unfold GeoSpec.sum. cbn [fold_left].
      replace (Z.to_nat (fromIndex + 1)) with (S (Z.to_nat fromIndex)) by lia.
      rewrite firstn_all2; [done|].
      rewrite length_drop, segment_lengths_length. lia.
    + lia.
    + rewrite segment_lengths_length. lia.
  - apply lookup_ge_None in Hd. rewrite segment_lengths_length in Hd. lia.
Qed.

(** With a negative index the first read is outside the array: the call
    throws. *)
Lemma remaining_length_negative (coordinates : list Position)
    (fromIndex : Z) (fromFraction : float) :
  fromIndex < 0 -> (2 <= length coordinates)%nat ->
  calculateRemainingLength coordinates fromIndex fromFraction
  = Throw TypeError.
Proof.
  intros Hneg Hlen. unfold calculateRemainingLength.
  destruct (Z.ltb_spec (Z.of_nat (length coordinates)) 2); [lia|].
  destruct (Z.leb_spec (Z.of_nat (length coordinates) - 1) fromIndex); [lia|].
  cbn [orb].
  assert (Hread : js_elem coordinates fromIndex = Throw TypeError).
  { unfold js_elem, Js.get.
    destruct (Z.ltb_spec fromIndex 0); [reflexivity|lia]. }
  by rewrite Hread.
Qed.

(** C9. For every polyline, [calculateRemainingLength] from segment 0 at
    fraction 0 returns what [calculateLineLength] returns. *)
Theorem remaining_from_start_is_length (coordinates : list Position) :
  calculateRemainingLength coordinates 0 0 = calculateLineLength coordinates.
Proof.
  unfold calculateRemainingLength, calculateLineLength.
  destruct coordinates as [|a [|b rest]]; [reflexivity|reflexivity|].
  destruct (Z.ltb_spec (Z.of_nat (length (a :: b :: rest))) 2) as [Hs|_];
    [cbn in Hs; lia|].
  destruct (Z.leb_spec (Z.of_nat (length (a :: b :: rest)) - 1) 0) as [Hs|_];
    [cbn in Hs; lia|].
  cbn [orb]. unfold for_range.
  replace (Z.to_nat (Z.of_nat (length (a :: b :: rest)) - 1 - 0))
    with (S (length rest)) by (cbn [length]; lia).
  replace (Z.to_nat (Z.of_nat (length (a :: b :: rest)) - 1 - (0 + 1)))
    with (length rest) by (cbn [length]; lia).
  cbn [for_loop].
  change (js_elem (a :: b :: rest) 0) with (Ret a).
  change (js_elem (a :: b :: rest) (0 + 1)) with (Ret b).
  unfold add_segment at 2.
  change (js_elem (a :: b :: rest) 0) with (Ret a).
  change (js_elem (a :: b :: rest) (0 + 1)) with (Ret b).
  change (1 - 0)%float with 1%float.
  change (for_loop (length rest) (0 + 1) (add_segment (a :: b :: rest))
            (0 + calculateDistance (positionToCoordinate a)
                                   (positionToCoordinate b) * 1)%float
          = for_loop (length rest) (0 + 1) (add_segment (a :: b :: rest))
              (0 + calculateDistance (positionToCoordinate a)
                                     (positionToCoordinate b))%float).
  by rewrite FloatFacts.mul_one_r.
Qed.

(** One round of the search reads points [i] and [i + 1] and returns. *)
Lemma search_segment_returns point (line : list Position) (i : Z) s :
  0 <= i -> (Z.to_nat i + 1 < length line)%nat ->
  exists s', search_segment point line i s = Ret s'.
Proof.
  intros Hi Hlen. unfold search_segment.
  destruct (lookup_lt_is_Some_2 line (Z.to_nat i)) as [a Ha]; [lia|].
  destruct (lookup_lt_is_Some_2 line (Z.to_nat (i + 1))) as [b Hb]; [lia|].
  rewrite (js_elem_lookup line i a) by done.
  rewrite (js_elem_lookup line (i + 1) b) by (try lia; done).
  cbn. destruct (_ <? _)%float; eauto.
Qed.

(** The search loop over segments that exist returns. *)
Lemma search_loop_returns point (line : list Position) (n : nat) :
  forall i s,
    0 <= i -> (Z.to_nat i + n + 1 <= length line)%nat ->
    exists s', for_loop n i (search_segment point line) s = Ret s'.
Proof.
  induction n as [|n IH]; intros i s Hi Hlen; cbn [for_loop]; [eauto|].
  destruct (search_segment_returns point line i s) as [s1 Hs1]; [lia|lia|].
  rewrite Hs1.
  destruct (IH (i + 1) s1) as [s2 Hs2]; [lia|lia|].
  exists s2. exact Hs2.
Qed.

(** [findNearestPointOnLine] returns for every input, and returns nothing
    for a line of fewer than 2 points. *)
Lemma findNearestPointOnLine_returns point (line : list Position) :
  exists r, findNearestPointOnLine point line = Ret r.
Proof.
  unfold findNearestPointOnLine.
  destruct (Z.ltb_spec (Z.of_nat (length line)) 2); [eauto|].
  unfold for_range.
  destruct (search_loop_returns point line
              (Z.to_nat (Z.of_nat (length line) - 1 - 0)) 0
              (mkSearch infinity None 0 0)) as [s Hs]; [lia|lia|].
  rewrite Hs. cbn. destruct (nearestPoint s); eauto.
Qed.

Lemma findNearestPointOnLine_short point (line : list Position) :
  (length line < 2)%nat -> findNearestPointOnLine point line = Ret None.
Proof.
  intros Hlen. unfold findNearestPointOnLine.
  destruct (Z.ltb_spec (Z.of_nat (length line)) 2); [reflexivity|lia].
Qed.

(** C7. [isOffRoute] returns for every probe, polyline and threshold.  It
    returns true exactly when [findNearestPointOnLine] finds a point whose
    distance is strictly above the threshold; at a distance equal to the
    threshold it returns false, and so it does when the polyline has fewer
    than 2 points. *)
Theorem isOffRoute_strict (location : Coordinate)
    (routeCoordinates : list Position) (thresholdMeters : float) :
  (exists b, isOffRoute location routeCoordinates thresholdMeters = Ret b)
  /\ (isOffRoute location routeCoordinates thresholdMeters = Ret true
      <-> exists n,
            findNearestPointOnLine location routeCoordinates = Ret (Some n)
            /\ (thresholdMeters <? np_distance n)%float = true)
  /\ (forall n,
        findNearestPointOnLine location routeCoordinates = Ret (Some n) ->
        (np_distance n =? thresholdMeters)%float = true ->
        isOffRoute location routeCoordinates thresholdMeters = Ret false)
  /\ ((length routeCoordinates < 2)%nat ->
      isOffRoute location routeCoordinates thresholdMeters = Ret false).
Proof.
  unfold isOffRoute.
  destruct (findNearestPointOnLine_returns location routeCoordinates)
    as [r Hr].
  split_and!.
  - rewrite Hr. cbn. destruct r; eauto.
  - rewrite Hr. cbn. split.
    + destruct r as [n|]; [|discriminate].
      intros [= Hlt]. exists n. by rewrite Hlt.
    + intros (n & [= ->] & Hlt). by rewrite Hlt.
  - intros n Hn Heq. rewrite Hn. cbn.
    by rewrite (FloatFacts.eqb_not_ltb _ _ Heq).
  - intros Hlen.
    by rewrite (findNearestPointOnLine_short location routeCoordinates Hlen).
Qed.

End WithMath.

(** An instance of C6: the middle of the first segment of a bend. *)
Lemma remaining_length_refines_witness :
  @calculateRemainingLength Scenario.small_angle Scenario.bend 0 0.5
  = Ret (@GeoSpec.remainingDistance Scenario.small_angle Scenario.bend 0 0.5).
Proof.
  apply (@remaining_length_refines Scenario.small_angle Scenario.bend 0
           0.5%float).
  lia.
Defined.

End GeoFacts.

(** ** Evaluations on small inputs *)

Module Evaluations.
Import Scenario.

(** Removing the middle one of three waypoints leaves two, indexed 0 and
    1, in their original order. *)
Example remove_middle :
  WaypointRepository.remove "b" [wp "a" 0; wp "b" 1; wp "c" 2]
  = (Some (wp "b" 1), [wp "a" 0; wp "c" 1]).
Proof. reflexivity. Qed.

(** Moving the first waypoint to the end. *)
Example reorder_first_to_last :
  WaypointRepository.reorder 0 2 [wp "a" 0; wp "b" 1; wp "c" 2]
  = (true, [wp "b" 0; wp "c" 1; wp "a" 2]).
Proof. reflexivity. Qed.

Example reorder_out_of_range_refused :
  WaypointRepository.reorder 3 0 [wp "a" 0; wp "b" 1; wp "c" 2]
  = (false, [wp "a" 0; wp "b" 1; wp "c" 2]).
Proof. reflexivity. Qed.

(** [insert] clamps its index. *)
Example insert_clamped :
  (WaypointRepository.insert Scenario.origin 9 None "z" 0
     [wp "a" 0; wp "b" 1]).2
  = [wp "a" 0; wp "b" 1; wp "z" 2].
Proof. reflexivity. Qed.

(** Three pushes into a manager of size 2, then three undos. *)
Example push_three_undo_three :
  let h :=
    HistoryManagerImpl.push_all
      [([], ActAdd, 1); ([wp "a" 0], ActAdd, 2);
       ([wp "a" 0; wp "b" 1], ActRemove, 3)]
      (HistoryManagerImpl.new 2) in
  HistoryManagerImpl.getSize h = 2
  /\ (HistoryManagerImpl.undo_n 3 h).1
     = [Some (mkHistoryEntry [wp "a" 0] 2 ActAdd); None; None].
Proof. split; reflexivity. Qed.

(** The bend has two segments; from the middle of the first one the
    remaining distance is half of it plus the second. *)
Example remaining_on_bend :
  let M := Scenario.small_angle in
  exists d0 d1,
    GeoSpec.segment_lengths Scenario.bend = [d0; d1]
    /\ Geo.calculateRemainingLength Scenario.bend 0 0.5
       = Ret (0 + d0 * 0.5 + d1)%float
    /\ Geo.calculateRemainingLength Scenario.bend 2 0.5 = Ret 0%float
    /\ Geo.calculateRemainingLength Scenario.bend (-1) 0.5 = Throw TypeError.
Proof. cbv zeta. eexists _, _. split_and!; reflexivity. Qed.

(** A probe beside the first segment of the bend: with the threshold at
    the distance found it is on the route, just below it is off. *)
Example off_route_at_threshold :
  let M := Scenario.small_angle in
  let probe := mkCoordinate 0.25 0.5 in
  exists n,
    Geo.findNearestPointOnLine probe Scenario.bend = Ret (Some n)
    /\ np_segmentIndex n = 0
    /\ Geo.isOffRoute probe Scenario.bend (np_distance n) = Ret false
    /\ Geo.isOffRoute probe Scenario.bend (next_down (np_distance n))
       = Ret true.
Proof. cbv zeta. eexists. split_and!; reflexivity. Qed.

(** A listener registered twice and one registered with [once]. *)
Example emit_twice :
  let b0 := EventBusImpl.new in
  let b1 := (EventBusImpl.on "route:cleared" (EventBusImpl.Fn 1) b0).2 in
  let b2 := (EventBusImpl.on "route:cleared" (EventBusImpl.Fn 1) b1).2 in
  let b3 := (EventBusImpl.once "route:cleared" 2 b2).2 in
  let b4 := EventBusImpl.emit "route:cleared" (RouteCleared 0) b3 in
  let b5 := EventBusImpl.emit "route:cleared" (RouteCleared 1) b4 in
  (EventBusImpl.calls b5).*1.*1 = [1; 2; 1]%nat.
Proof. reflexivity. Qed.

End Evaluations.

(** * Further properties of the sources *)

(** ** The waypoint repository, operation by operation *)

Module StoreMore.
Import WaypointRepository.

Lemma splice_insert_at {A} (k : Z) (items l : list A) :
  0 <= k <= Z.of_nat (length l) ->
  Js.splice k 0 items l
  = ([], take (Z.to_nat k) l ++ items ++ drop (Z.to_nat k) l).
Proof.
  intros Hk. unfold Js.splice, Js.rel.
  destruct (Z.ltb_spec k 0); [lia|].
  replace (Z.to_nat (Z.min k (Z.of_nat (length l)))) with (Z.to_nat k) by lia.
  replace (Z.to_nat (Z.min (Z.max 0 0) (Z.of_nat (length l - Z.to_nat k))))
    with 0%nat by lia.
  by rewrite Nat.add_0_r.
Qed.

Lemma splice_delete_at {A} (k : Z) (l : list A) (x : A) :
  0 <= k -> l !! Z.to_nat k = Some x ->
  Js.splice k 1 [] l = ([x], delete (Z.to_nat k) l).
Proof.
  intros Hk Hx. pose proof (lookup_lt_Some _ _ _ Hx) as Hlt.
  unfold Js.splice, Js.rel.
  destruct (Z.ltb_spec k 0); [lia|].
  replace (Z.to_nat (Z.min k (Z.of_nat (length l)))) with (Z.to_nat k) by lia.
  replace (Z.to_nat (Z.min (Z.max 1 0) (Z.of_nat (length l - Z.to_nat k))))
    with 1%nat by lia.
  rewrite (drop_S l x (Z.to_nat k) Hx). cbn [take app].
  rewrite Nat.add_1_r. by rewrite delete_take_drop.
Qed.

(** [findIndex] and [find] agree: both miss, or [findIndex] gives the
    position of what [find] returns, the first match. *)
Lemma findIndex_None {A} (p : A -> bool) l : forall i,
  Js.find p l = None -> Js.findIndex_from p l i = -1.
Proof.
  induction l as [|x l IH]; intros i; cbn; [done|].
  destruct (p x); [done|]. apply IH.
Qed.

Lemma findIndex_Some {A} (p : A -> bool) l : forall i w,
  Js.find p l = Some w ->
  exists k : nat,
    Js.findIndex_from p l i = i + Z.of_nat k
    /\ l !! k = Some w /\ p w = true
    /\ forall j w', (j < k)%nat -> l !! j = Some w' -> p w' = false.
Proof.
  induction l as [|x l IH]; intros i w; cbn; [done|].
  destruct (p x) eqn:Hx.
  - intros [= ->]. exists 0%nat. split_and!; [lia|done|done|lia].
  - intros Hw. destruct (IH (i + 1) w Hw) as (k & Hk & Hl & Hp & Hfirst).
    exists (S k). split_and!; [lia|done|done|].
    intros [|j] w' Hj Hw'.
    + cbn in Hw'. by injection Hw' as <-.
    + apply (Hfirst j w'); [lia|done].
Qed.

Lemma reindex_lookup (ws : list Waypoint) i :
  reindex ws !! i = with_index i <$> ws !! i.
Proof. unfold reindex. apply list_lookup_imap. Qed.

Lemma reindex_length (ws : list Waypoint) : length (reindex ws) = length ws.
Proof. unfold reindex. apply length_imap. Qed.

(** Reindexing changes nothing but the [index] fields. *)
Lemma reindex_content (ws : list Waypoint) :
  with_index 0 <$> reindex ws = with_index 0 <$> ws.
Proof.
  apply list_eq. intros i. rewrite !list_lookup_fmap, reindex_lookup.
  by destruct (ws !! i) as [[]|].
Qed.

Lemma invariant_lookup (ws : list Waypoint) i w :
  index_invariant ws -> ws !! i = Some w -> wp_index w = Z.of_nat i.
Proof.
  unfold index_invariant. intros Hinv Hw.
  assert (H : (wp_index <$> ws) !! i = Some (wp_index w))
    by (by rewrite list_lookup_fmap, Hw).
  rewrite Hinv, list_lookup_fmap in H.
  pose proof (lookup_lt_Some _ _ _ Hw) as Hlt.
  rewrite lookup_seq_lt in H by done. cbn in H. by injection H as <-.
Qed.

Lemma invariant_reindex (ws : list Waypoint) :
  index_invariant ws -> reindex ws = ws.
Proof.
  intros Hinv. apply list_eq. intros i. rewrite reindex_lookup.
  destruct (ws !! i) as [w|] eqn:Hw; [|done]. cbn. f_equal.
  pose proof (invariant_lookup ws i w Hinv Hw) as Hi.
  destruct w. cbn in *. by subst.
Qed.

(** X1. [insert] clamps its index into [0 .. count]: the new waypoint is
    stored at the clamped position with that position as its [index], it
    is the very waypoint returned, the others keep their order around it,
    and the count grows by one. *)
Theorem insert_places (c : Coordinate) (index : Z) (name : option string)
    (newId : string) (now : Z) (ws : list Waypoint) :
  let k := Z.to_nat (Z.max 0 (Z.min index (Z.of_nat (length ws)))) in
  let w := (insert c index name newId now ws).1 in
  (insert c index name newId now ws).2 = reindex (take k ws ++ w :: drop k ws)
  /\ (insert c index name newId now ws).2 !! k = Some w
  /\ wp_index w = Z.of_nat k
  /\ (k <= length ws)%nat
  /\ length (insert c index name newId now ws).2 = S (length ws).
Proof.
  intros k w. unfold insert in *. cbn [fst snd] in *.
  set (ci := Z.max 0 (Z.min index (Z.of_nat (length ws)))) in *.
  assert (Hci : 0 <= ci <= Z.of_nat (length ws)) by lia.
  rewrite splice_insert_at by exact Hci. cbn [snd app].
  fold k. fold w.
  assert (Hk : wp_index w = Z.of_nat k) by (subst w k; cbn; lia).
  split_and!; [done| |done|lia|].
  - rewrite reindex_lookup.
    rewrite list_lookup_middle by (rewrite length_take; lia).
    cbn. f_equal. subst w. unfold with_index. cbn in *. by rewrite <- Hk.
  - rewrite reindex_length, length_app, length_take. cbn [length].
    rewrite length_drop. lia.
Qed.

(** X2. [remove] returns exactly what [getById] finds.  With an unknown id
    the repository is untouched; otherwise the first waypoint carrying the
    id is taken out, the rest is reindexed, and nothing else changes. *)
Theorem remove_spec (id : string) (ws : list Waypoint) :
  (remove id ws).1 = getById id ws
  /\ match getById id ws with
     | None => (remove id ws).2 = ws
     | Some w =>
         exists k : nat,
           ws !! k = Some w
           /\ (forall j w', (j < k)%nat -> ws !! j = Some w' ->
                            wp_id w' <> id)
           /\ (remove id ws).2 = reindex (delete k ws)
           /\ S (length (remove id ws).2) = length ws
     end.
Proof.
  unfold remove, getById, Js.findIndex.
  destruct (Js.find _ ws) as [w|] eqn:Hfind.
  - destruct (findIndex_Some _ ws 0 w Hfind) as (k & Hk & Hl & Hp & Hfirst).
    rewrite Hk, Z.add_0_l.
    destruct (Z.eqb_spec (Z.of_nat k) (-1)); [lia|].
    rewrite (splice_delete_at _ ws w) by (try lia; by rewrite Nat2Z.id).
    rewrite Nat2Z.id. cbn [fst snd head]. split; [done|].
    exists k. split_and!; [done| |done|].
    + intros j w' Hj Hw'. apply Hfirst in Hw'; [|done].
      by apply String.eqb_neq.
    + rewrite reindex_length, length_delete by done.
      apply lookup_lt_Some in Hl. lia.
  - by rewrite (findIndex_None _ ws 0 Hfind).
Qed.

(** The outcomes of [update], case by case. *)
Lemma update_cases (id : string) (c : Coordinate) (ws : list Waypoint) :
  match getById id ws with
  | None => update id c ws = (None, ws)
  | Some w =>
      exists k : nat,
        ws !! k = Some w
        /\ update id c ws
           = (Some (mkCoordinate (wp_longitude w) (wp_latitude w)),
              <[k := with_coordinate c w]> ws)
        /\ getById id (update id c ws).2 = Some (with_coordinate c w)
        /\ (forall j, j <> k -> (update id c ws).2 !! j = ws !! j)
        /\ length (update id c ws).2 = length ws
  end.
Proof.
  unfold update, getById, Js.findIndex.
  destruct (Js.find _ ws) as [w|] eqn:Hfind.
  - destruct (findIndex_Some _ ws 0 w Hfind) as (k & Hk & Hl & Hp & Hfirst).
    rewrite Hk, Z.add_0_l.
    destruct (Z.eqb_spec (Z.of_nat k) (-1)) as [|Hne]; [lia|].
    unfold Js.get. destruct (Z.ltb_spec (Z.of_nat k) 0) as [|Hge]; [lia|].
    rewrite Nat2Z.id.
    rewrite Hl. cbn [snd]. exists k. split_and!; [done|done| | |].
    + clear Hk Hne Hge. revert k Hl Hfirst.
      induction ws as [|x ws IH]; intros k Hl Hfirst; [done|].
      destruct k as [|k]; cbn in Hl |- *.
      * injection Hl as ->. cbn. by rewrite Hp.
      * rewrite (Hfirst 0%nat x) by (done || lia).
        cbn in Hfind.
        rewrite (Hfirst 0%nat x) in Hfind by (done || lia).
        apply IH; [done|done|].
        intros j w' Hj Hw'. apply (Hfirst (S j) w'); [lia|done].
    + intros j Hj. by rewrite list_lookup_insert_ne.
    + by rewrite length_insert.
  - by rewrite (findIndex_None _ ws 0 Hfind).
Qed.

(** X3. [update] with an unknown id returns nothing and changes nothing.
    With a known id it returns the old coordinate of the first waypoint
    carrying the id and replaces only the coordinate of that waypoint:
    [getById] then finds it with the new coordinate and the same id, index,
    name and creation time, and every other position is as before. *)
Theorem update_spec (id : string) (c : Coordinate) (ws : list Waypoint) :
  match getById id ws with
  | None => update id c ws = (None, ws)
  | Some w =>
      exists k : nat,
        ws !! k = Some w
        /\ update id c ws
           = (Some (mkCoordinate (wp_longitude w) (wp_latitude w)),
              <[k := with_coordinate c w]> ws)
        /\ getById id (update id c ws).2 = Some (with_coordinate c w)
        /\ (forall j, j <> k -> (update id c ws).2 !! j = ws !! j)
        /\ length (update id c ws).2 = length ws
  end.
Proof. apply update_cases. Qed.

(** The outcomes of [reorder], case by case. *)
Lemma reorder_cases (fromIndex toIndex : Z) (ws : list Waypoint) :
  (reorder fromIndex toIndex ws).1
  = bool_decide (0 <= fromIndex < Z.of_nat (length ws)
                 /\ 0 <= toIndex < Z.of_nat (length ws))
  /\ ((reorder fromIndex toIndex ws).1 = false ->
      (reorder fromIndex toIndex ws).2 = ws)
  /\ ((reorder fromIndex toIndex ws).1 = true ->
      exists w,
        ws !! Z.to_nat fromIndex = Some w
        /\ (reorder fromIndex toIndex ws).2 !! Z.to_nat toIndex
           = Some (with_index (Z.to_nat toIndex) w)
        /\ with_index 0 <$> (reorder fromIndex toIndex ws).2
           ≡ₚ with_index 0 <$> ws
        /\ length (reorder fromIndex toIndex ws).2 = length ws).
Proof.
  unfold reorder.
  destruct (Z.ltb_spec fromIndex 0) as [Hf0|Hf0]; cbn [orb].
  { split_and!; [|done|done]. cbn. rewrite bool_decide_eq_false_2; [done|lia]. }
  destruct (Z.leb_spec (Z.of_nat (length ws)) fromIndex) as [Hf1|Hf1];
    cbn [orb].
  { split_and!; [|done|done]. cbn. rewrite bool_decide_eq_false_2; [done|lia]. }
  destruct (Z.ltb_spec toIndex 0) as [Ht0|Ht0]; cbn [orb].
  { split_and!; [|done|done]. cbn. rewrite bool_decide_eq_false_2; [done|lia]. }
  destruct (Z.leb_spec (Z.of_nat (length ws)) toIndex) as [Ht1|Ht1];
    cbn [orb].
  { split_and!; [|done|done]. cbn. rewrite bool_decide_eq_false_2; [done|lia]. }
  destruct (lookup_lt_is_Some_2 ws (Z.to_nat fromIndex)) as [w Hw]; [lia|].
  rewrite (splice_delete_at fromIndex ws w Hf0 Hw).
  assert (Hlen : length (delete (Z.to_nat fromIndex) ws) = (length ws - 1)%nat).
  { rewrite length_delete by done. lia. }
  rewrite splice_insert_at by (rewrite Hlen; lia).
  cbn [fst snd app].
  split_and!; [by rewrite bool_decide_eq_true_2 by lia|done|].
  intros _. exists w. split_and!; [done| | |].
  - rewrite reindex_lookup.
    rewrite list_lookup_middle by (rewrite length_take, Hlen; lia). done.
  - rewrite reindex_content. apply fmap_Permutation.
    rewrite <- Permutation_middle, take_drop.
    symmetry. by apply delete_Permutation.
  - rewrite reindex_length, length_app, length_take. cbn [length].
    rewrite length_drop, Hlen. lia.
Qed.

(** X4. [reorder] succeeds exactly when both indices are positions of the
    list.  A refused call changes nothing.  A successful one puts the
    waypoint that was at [fromIndex] at [toIndex], with [toIndex] as its
    index, and the list holds the same waypoints as before, indices
    apart. *)
Theorem reorder_spec (fromIndex toIndex : Z) (ws : list Waypoint) :
  (reorder fromIndex toIndex ws).1
  = bool_decide (0 <= fromIndex < Z.of_nat (length ws)
                 /\ 0 <= toIndex < Z.of_nat (length ws))
  /\ ((reorder fromIndex toIndex ws).1 = false ->
      (reorder fromIndex toIndex ws).2 = ws)
  /\ ((reorder fromIndex toIndex ws).1 = true ->
      exists w,
        ws !! Z.to_nat fromIndex = Some w
        /\ (reorder fromIndex toIndex ws).2 !! Z.to_nat toIndex
           = Some (with_index (Z.to_nat toIndex) w)
        /\ with_index 0 <$> (reorder fromIndex toIndex ws).2
           ≡ₚ with_index 0 <$> ws
        /\ length (reorder fromIndex toIndex ws).2 = length ws).
Proof. apply reorder_cases. Qed.

(** X5. A snapshot of the repository, taken the way the history takes it
    and given back through [setAll], reproduces the repository exactly, in
    every state a sequence of calls can produce. *)
Theorem snapshot_restore (ops : list Op) :
  Forall (fun ws =>
            forall action now other,
              setAll (he_waypoints
                        (HistoryManagerImpl.entry_of
                           (getAll ws, action, now))) other
              = ws)
         (states empty ops).
Proof.
  eapply Forall_impl;
    [apply (WaypointRepositoryFacts.states_invariant ops empty);
     apply WaypointRepositoryFacts.empty_invariant|].
  intros ws Hinv action now other. cbn.
  rewrite HistoryFacts.copy_all. by apply invariant_reindex.
Qed.

Lemma find_app {A} (p : A -> bool) (l r : list A) :
  Js.find p (l ++ r)
  = match Js.find p l with
    | Some x => Some x
    | None => Js.find p r
    end.
Proof.
  induction l as [|x l IH]; cbn; [done|]. by destruct (p x).
Qed.

(** X6. [add] appends: the returned waypoint is stored last, under the
    index that was the count; the waypoints before it are untouched.  An id
    that was known still resolves to the same waypoint, so a returned
    waypoint whose id collides with an older one cannot be found by id. *)
Theorem add_spec (c : Coordinate) (name : option string) (newId : string)
    (now : Z) (ws : list Waypoint) :
  let w := (add c name newId now ws).1 in
  let ws' := (add c name newId now ws).2 in
  getByIndex (count ws) ws' = Some w
  /\ wp_index w = count ws
  /\ count ws' = count ws + 1
  /\ (forall i, i < count ws -> getByIndex i ws' = getByIndex i ws)
  /\ (forall id w0, getById id ws = Some w0 -> getById id ws' = Some w0)
  /\ (getById newId ws = None -> getById newId ws' = Some w).
Proof.
  cbv zeta. unfold add, getByIndex, count, getById, Js.get. cbn [fst snd].
  split_and!.
  - destruct (Z.ltb_spec (Z.of_nat (length ws)) 0); [lia|].
    rewrite Nat2Z.id. by apply list_lookup_middle.
  - done.
  - rewrite length_app. cbn. lia.
  - intros i Hi. destruct (Z.ltb_spec i 0); [done|].
    apply lookup_app_l. lia.
  - intros id w0 Hid. by rewrite find_app, Hid.
  - intros Hid. rewrite find_app, Hid. cbn. by rewrite String.eqb_refl.
Qed.

(** X7. In every state a sequence of calls can produce, [getByIndex(i)]
    returns a waypoint exactly for [0 <= i < count], and that waypoint has
    [index] equal to [i]. *)
Theorem getByIndex_spec (ops : list Op) :
  Forall (fun ws =>
            forall i,
              match getByIndex i ws with
              | Some w => wp_index w = i /\ 0 <= i < count ws
              | None => i < 0 \/ count ws <= i
              end)
         (states empty ops).
Proof.
  eapply Forall_impl;
    [apply (WaypointRepositoryFacts.states_invariant ops empty);
     apply WaypointRepositoryFacts.empty_invariant|].
  intros ws Hinv i. unfold getByIndex, Js.get, count.
  destruct (Z.ltb_spec i 0); [lia|].
  destruct (ws !! Z.to_nat i) as [w|] eqn:Hw.
  - rewrite (invariant_lookup ws _ w Hinv Hw).
    apply lookup_lt_Some in Hw. lia.
  - apply lookup_ge_None in Hw. lia.
Qed.

End StoreMore.

(** ** The history manager, over any sequence of calls *)

Module HistoryMore.
Import HistoryManagerImpl Runs.

Lemma slice_prefix {A} (hs : list A) (c : Z) :
  -1 <= c < Z.of_nat (length hs) ->
  Js.slice 0 (c + 1) hs = take (Z.to_nat (c + 1)) hs.
Proof.
  intros Hc. unfold Js.slice, Js.rel.
  destruct (Z.ltb_spec 0 0); [lia|].
  destruct (Z.ltb_spec (c + 1) 0); [lia|].
  replace (Z.to_nat (Z.min 0 (Z.of_nat (length hs)))) with 0%nat by lia.
  replace (Z.to_nat (Z.min (c + 1) (Z.of_nat (length hs))))
    with (Z.to_nat (c + 1)) by lia.
  by rewrite drop_0, Nat.sub_0_r.
Qed.

(** [push] from any cursor: the entries above the cursor go, the snapshot
    is appended, and the front is dropped down to the bound. *)
Lemma push_general (ws : list Waypoint) action now hs c m :
  1 <= m -> -1 <= c < Z.of_nat (length hs) ->
  push ws action now (mk hs c m)
  = let l := take (Z.to_nat (c + 1)) hs
             ++ [mkHistoryEntry (copy <$> ws) now action] in
    let kept := drop (length l - Z.to_nat m) l in
    mk kept (Z.of_nat (length kept) - 1) m.
Proof.
  intros Hm Hc. unfold push. cbn [history currentIndex maxSize].
  rewrite slice_prefix by exact Hc. cbv zeta.
  set (l := take _ hs ++ _).
  destruct (Z.ltb_spec m (Z.of_nat (length l))) as [Hlt|Hge].
  - unfold Js.slice_from, Js.rel.
    destruct (Z.ltb_spec (- m) 0); [|lia].
    by replace (Z.to_nat (Z.max (Z.of_nat (length l) + - m) 0))
         with (length l - Z.to_nat m)%nat by lia.
  - replace (length l - Z.to_nat m)%nat with 0%nat by lia.
    by rewrite drop_0.
Qed.

Lemma step_maxSize h op : maxSize (history_step h op) = maxSize h.
Proof.
  destruct op; cbn [history_step]; [done| | |done].
  - unfold undo. by destruct (negb _).
  - unfold redo. by destruct (negb _).
Qed.

Lemma cursor_range h : history_ok h ->
  -1 <= currentIndex h < Z.of_nat (length (history h)).
Proof.
  intros [_ [[He Hc]|Hc]]; [|lia]. rewrite He, Hc. cbn. lia.
Qed.

Lemma push_ok (ws : list Waypoint) action now h :
  1 <= maxSize h -> history_ok h -> history_ok (push ws action now h).
Proof.
  intros Hm Hok. pose proof (cursor_range h Hok) as Hc.
  destruct h as [hs c m]. cbn [maxSize history currentIndex] in *.
  rewrite push_general by done. cbv zeta.
  set (l := take _ hs ++ _).
  assert (Hl : (1 <= length l)%nat)
    by (unfold l; rewrite length_app; cbn; lia).
  unfold history_ok. cbn [history currentIndex maxSize].
  rewrite length_drop. split; [lia|]. right. lia.
Qed.

Lemma step_ok h op :
  1 <= maxSize h -> history_ok h -> history_ok (history_step h op).
Proof.
  intros Hm Hok. destruct op; cbn [history_step].
  - by apply push_ok.
  - unfold undo, canUndo. destruct (Z.ltb_spec 0 (currentIndex h)); [|done].
    cbn [negb snd]. destruct Hok as [Hb Hc]. split; [done|].
    right. cbn [history currentIndex]. lia.
  - unfold redo, canRedo.
    destruct (Z.ltb_spec (currentIndex h)
                         (Z.of_nat (length (history h)) - 1)); [|done].
    cbn [negb snd]. pose proof (cursor_range h Hok).
    destruct Hok as [Hb Hc]. split; [done|].
    right. cbn [history currentIndex]. lia.
  - unfold clear, history_ok. cbn. split; [lia|]. by left.
Qed.

Lemma run_ok ops : forall h,
  1 <= maxSize h -> history_ok h ->
  history_ok (history_run ops h) /\ maxSize (history_run ops h) = maxSize h.
Proof.
  unfold history_run.
  induction ops as [|op ops IH]; intros h Hm Hok; cbn [fold_left]; [done|].
  destruct (IH (history_step h op)) as [Hok' Hm'].
  - by rewrite step_maxSize.
  - by apply step_ok.
  - by rewrite Hm', step_maxSize.
Qed.

Lemma new_ok m : 1 <= m -> history_ok (new m).
Proof. intros Hm. unfold history_ok, new. cbn. split; [lia|]. by left. Qed.

(** X8. Whatever calls are made on a manager built with a bound
    [m >= 1], it never holds more than [m] entries, and its cursor is on
    one of its entries, or is [-1] with the history empty. *)
Theorem history_within_bounds (m : Z) (ops : list HistoryOp) :
  1 <= m ->
  let h := history_run ops (new m) in
  0 <= getSize h <= m
  /\ maxSize h = m
  /\ ((history h = [] /\ currentIndex h = -1)
      \/ 0 <= currentIndex h < getSize h).
Proof.
  intros Hm h.
  destruct (run_ok ops (new m) Hm (new_ok m Hm)) as [[Hb Hc] Hmax].
  fold h in Hb, Hc, Hmax. unfold getSize. cbn [maxSize new] in Hmax.
  rewrite Hmax in Hb. split_and!; [lia|done|done|done].
Qed.

(** An instance of X8. *)
Lemma history_within_bounds_witness :
  let h :=
    history_run [HPush [] ActAdd 1; HPush [] ActAdd 2; HUndo;
                 HPush [] ActRemove 3; HRedo] (new 2) in
  0 <= getSize h <= 2
  /\ maxSize h = 2
  /\ ((history h = [] /\ currentIndex h = -1)
      \/ 0 <= currentIndex h < getSize h).
Proof.
  apply (history_within_bounds 2
           [HPush [] ActAdd 1; HPush [] ActAdd 2; HUndo;
            HPush [] ActRemove 3; HRedo]).
  lia.
Defined.

(** X9. On such a manager [undo] answers exactly when [canUndo] says so,
    and [redo] when [canRedo] does.  A [redo] right after an [undo] brings
    the manager back to where it was and returns the entry the cursor was
    on; so does an [undo] right after a [redo]. *)
Theorem undo_redo_round_trip (m : Z) (ops : list HistoryOp) :
  1 <= m ->
  let h := history_run ops (new m) in
  (canUndo h = false -> undo h = (None, h))
  /\ (canRedo h = false -> redo h = (None, h))
  /\ (canUndo h = true ->
      exists e e',
        (undo h).1 = Some e'
        /\ Js.get (history h) (currentIndex h) = Some e
        /\ redo (undo h).2 = (Some e, h))
  /\ (canRedo h = true ->
      exists e e',
        (redo h).1 = Some e'
        /\ Js.get (history h) (currentIndex h) = Some e
        /\ undo (redo h).2 = (Some e, h)).
Proof.
  intros Hm h.
  destruct (run_ok ops (new m) Hm (new_ok m Hm)) as [Hok _].
  fold h in Hok. pose proof (cursor_range h Hok) as Hrange.
  destruct Hok as [_ Hc]. destruct h as [hs c mx].
  cbn [history currentIndex maxSize] in *.
  assert (Hget : forall i, 0 <= i < Z.of_nat (length hs) ->
                           exists e, Js.get hs i = Some e).
  { intros i Hi. unfold Js.get. destruct (Z.ltb_spec i 0); [lia|].
    apply lookup_lt_is_Some_2. lia. }
  unfold undo, redo, canUndo, canRedo. cbn [history currentIndex maxSize].
  split_and!.
  - by intros ->.
  - by intros ->.
  - intros Hu. rewrite Hu. cbn [negb fst snd history currentIndex maxSize].
    apply Z.ltb_lt in Hu.
    destruct (Hget c) as [e He]; [lia|].
    destruct (Hget (c - 1)) as [e' He']; [lia|].
    exists e, e'. split_and!; [done|done|].
    destruct (Z.ltb_spec (c - 1) (Z.of_nat (length hs) - 1)); [|lia].
    cbn [negb]. replace (c - 1 + 1) with c by lia. by rewrite He.
  - intros Hr. rewrite Hr. cbn [negb fst snd history currentIndex maxSize].
    apply Z.ltb_lt in Hr.
    assert (0 <= c) by (destruct Hc as [[-> _]|]; [cbn in Hr|]; lia).
    destruct (Hget c) as [e He]; [lia|].
    destruct (Hget (c + 1)) as [e' He']; [lia|].
    exists e, e'. split_and!; [done|done|].
    destruct (Z.ltb_spec 0 (c + 1)); [|lia].
    cbn [negb]. replace (c + 1 - 1) with c by lia. by rewrite He.
Qed.

(** An instance of X9. *)
Lemma undo_redo_round_trip_witness :
  let h :=
    history_run [HPush [] ActAdd 1; HPush [] ActAdd 2; HUndo] (new 5) in
  (canUndo h = false -> undo h = (None, h))
  /\ (canRedo h = false -> redo h = (None, h))
  /\ (canUndo h = true ->
      exists e e',
        (undo h).1 = Some e'
        /\ Js.get (history h) (currentIndex h) = Some e
        /\ redo (undo h).2 = (Some e, h))
  /\ (canRedo h = true ->
      exists e e',
        (redo h).1 = Some e'
        /\ Js.get (history h) (currentIndex h) = Some e
        /\ undo (redo h).2 = (Some e, h)).
Proof.
  apply (undo_redo_round_trip 5
           [HPush [] ActAdd 1; HPush [] ActAdd 2; HUndo]).
  lia.
Defined.

(** X10. A [push] on such a manager discards everything above the cursor:
    afterwards there is nothing to redo, the cursor is on the snapshot just
    pushed, and the size is the old cursor position plus two, cut at the
    bound. *)
Theorem push_discards_redo (m : Z) (ops : list HistoryOp)
    (ws : list Waypoint) (action : HistoryAction) (now : Z) :
  1 <= m ->
  let h := history_run ops (new m) in
  let h' := push ws action now h in
  canRedo h' = false
  /\ Js.get (history h') (currentIndex h')
     = Some (mkHistoryEntry ws now action)
  /\ getSize h' = Z.min m (currentIndex h + 2)
  /\ canUndo h' = (2 <=? getSize h').
Proof.
  intros Hm h h'.
  destruct (run_ok ops (new m) Hm (new_ok m Hm)) as [Hok Hmax].
  fold h in Hok, Hmax. cbn [maxSize new] in Hmax.
  pose proof (cursor_range h Hok) as Hrange.
  subst h'. destruct h as [hs c mx]. cbn [history currentIndex maxSize] in *.
  subst mx. rewrite push_general by done. cbv zeta.
  rewrite HistoryFacts.copy_all.
  set (e := mkHistoryEntry ws now action).
  set (l := take (Z.to_nat (c + 1)) hs ++ [e]).
  assert (Hl : length l = Z.to_nat (c + 2)).
  { unfold l. rewrite length_app, length_take. cbn. lia. }
  unfold canRedo, canUndo, getSize. cbn [history currentIndex maxSize].
  rewrite length_drop, Hl.
  split_and!.
  - apply Z.ltb_ge. lia.
  - unfold Js.get.
    destruct (Z.ltb_spec
                (Z.of_nat (Z.to_nat (c + 2) - (Z.to_nat (c + 2) - Z.to_nat m))
                 - 1) 0); [lia|].
    rewrite lookup_drop. unfold l.
    replace (Z.to_nat (c + 2) - Z.to_nat m
             + Z.to_nat
                 (Z.of_nat (Z.to_nat (c + 2)
                            - (Z.to_nat (c + 2) - Z.to_nat m)) - 1))%nat
      with (length (take (Z.to_nat (c + 1)) hs))
      by (rewrite length_take; lia).
    by apply list_lookup_middle.
  - lia.
  - destruct (Z.ltb_spec 0 (Z.of_nat (Z.to_nat (c + 2)
                                      - (Z.to_nat (c + 2) - Z.to_nat m)) - 1)),
             (Z.leb_spec 2 (Z.of_nat (Z.to_nat (c + 2)
                                      - (Z.to_nat (c + 2) - Z.to_nat m))));
      (done || lia).
Qed.

(** An instance of X10. *)
Lemma push_discards_redo_witness :
  let h :=
    history_run [HPush [] ActAdd 1; HPush [] ActAdd 2; HUndo] (new 5) in
  let h' := push [] ActRemove 3 h in
  canRedo h' = false
  /\ Js.get (history h') (currentIndex h')
     = Some (mkHistoryEntry [] 3 ActRemove)
  /\ getSize h' = Z.min 5 (currentIndex h + 2)
  /\ canUndo h' = (2 <=? getSize h').
Proof.
  apply (push_discards_redo 5
           [HPush [] ActAdd 1; HPush [] ActAdd 2; HUndo] [] ActRemove 3).
  lia.
Defined.

(** X11. The bound 0 bounds nothing: [slice(-0)] keeps the whole array, so
    a manager built with [maxSize = 0] retains every entry pushed. *)
Theorem zero_bound_keeps_all
    (items : list (list Waypoint * HistoryAction * Z)) :
  push_all items (new 0)
  = mk (entry_of <$> items) (Z.of_nat (length items) - 1) 0.
Proof.
  induction items as [|it items IH] using rev_ind; [done|].
  unfold push_all in *. rewrite fold_left_app. cbn [fold_left].
  rewrite IH. unfold push. cbn [history currentIndex maxSize].
  rewrite slice_prefix by (rewrite length_fmap; lia).
  replace (Z.to_nat (Z.of_nat (length items) - 1 + 1))
    with (length (entry_of <$> items)) by (rewrite length_fmap; lia).
  rewrite firstn_all.
  change (mkHistoryEntry (copy <$> it.1.1) it.2 it.1.2) with (entry_of it).
  assert (Hl : (entry_of <$> items) ++ [entry_of it]
               = entry_of <$> items ++ [it]) by (by rewrite fmap_app).
  rewrite Hl.
  assert (Hs : Js.slice_from (- 0) (entry_of <$> items ++ [it])
               = entry_of <$> items ++ [it]).
  { unfold Js.slice_from, Js.rel. cbn [Z.opp].
    destruct (Z.ltb_spec 0 0); [lia|].
    by rewrite Z.min_l by lia. }
  rewrite Hs.
  destruct (0 <? _); by rewrite length_fmap.
Qed.

End HistoryMore.

(** ** The event bus: delivery, [once], removal *)

Module BusMore.
Import EventBusImpl Runs.

Lemma filter_ext_in {A} (P Q : A -> Prop) `{!forall x, Decision (P x)}
    `{!forall x, Decision (Q x)} (l : list A) :
  (forall x, x ∈ l -> (P x <-> Q x)) -> filter P l = filter Q l.
Proof.
  induction l as [|x l IH]; intros Hall; [done|].
  rewrite !filter_cons.
  assert (Hl : filter P l = filter Q l).
  { apply IH. intros y Hy. apply Hall. apply elem_of_cons. by right. }
  assert (Hx : P x <-> Q x) by (apply Hall, elem_of_cons; by left).
  destruct (decide (P x)) as [HP|HP], (decide (Q x)) as [HQ|HQ];
    rewrite ?Hl; tauto.
Qed.

Lemma filter_all {A} (P : A -> Prop) `{!forall x, Decision (P x)}
    (l : list A) :
  (forall x, x ∈ l -> P x) -> filter P l = l.
Proof.
  induction l as [|x l IH]; intros Hall; [done|].
  rewrite filter_cons, decide_True by (apply Hall, elem_of_cons; by left).
  f_equal. apply IH. intros y Hy. apply Hall, elem_of_cons. by right.
Qed.

Lemma off_listeners event l b :
  listeners (off event l b) !! event
  = set_delete l <$> listeners b !! event.
Proof.
  unfold off. destruct (listeners b !! event) as [s|] eqn:Hs.
  - cbn [listeners]. by rewrite lookup_insert_eq.
  - by rewrite Hs.
Qed.

Lemma off_listeners_other event event' l b :
  event <> event' ->
  listeners (off event l b) !! event' = listeners b !! event'.
Proof.
  intros Hne. unfold off. destruct (listeners b !! event); [|done].
  cbn [listeners]. by rewrite lookup_insert_ne.
Qed.

Lemma off_wrappers event l b : wrappers (off event l b) = wrappers b.
Proof. unfold off. by destruct (listeners b !! event). Qed.

Lemma invoke_other event event' data b l :
  event <> event' ->
  listeners (invoke event data b l) !! event' = listeners b !! event'.
Proof.
  intros Hne. destruct l; cbn [invoke listeners]; [done|].
  by apply off_listeners_other.
Qed.

Lemma run_other event event' data s : forall b,
  event <> event' ->
  listeners (fold_left (invoke event data) s b) !! event'
  = listeners b !! event'.
Proof.
  induction s as [|l s IH]; intros b Hne; cbn [fold_left]; [done|].
  rewrite IH by done. by apply invoke_other.
Qed.

Lemma run_wrappers event data s : forall b,
  wrappers (fold_left (invoke event data) s b) = wrappers b.
Proof.
  induction s as [|l s IH]; intros b; cbn [fold_left]; [done|].
  rewrite IH. destruct l; cbn [invoke wrappers]; [done|].
  apply off_wrappers.
Qed.

(** While [emit] walks the registry, each closure of [once] it meets takes
    itself out; nothing else leaves. *)
Lemma run_registry event data s : forall b cur,
  listeners b !! event = Some cur ->
  listeners (fold_left (invoke event data) s b) !! event
  = Some (filter (fun y => is_plain y \/ y ∉ s) cur).
Proof.
  induction s as [|l s IH]; intros b cur Hcur; cbn [fold_left].
  - rewrite Hcur. f_equal. symmetry. apply filter_all.
    intros x _. right. apply not_elem_of_nil.
  - destruct l as [r|k r].
    + rewrite (IH _ cur) by done. f_equal. apply list_filter_iff.
      intros y. rewrite not_elem_of_cons.
      destruct y; cbn; intuition congruence.
    + rewrite (IH _ (set_delete (OnceWrapper k r) cur)).
      * f_equal. unfold set_delete. rewrite list_filter_filter.
        apply list_filter_iff. intros y. rewrite not_elem_of_cons.
        destruct y; cbn; intuition congruence.
      * cbn [invoke listeners]. by rewrite off_listeners, Hcur.
Qed.

(** What one [emit] does to the calls and to the registries. *)
Lemma emit_effect (b : t) (event : string) (data : RouteEvent) :
  calls (emit event data b)
  = calls b ++ ((fun l => (fn_of l, event, data))
                  <$> default [] (listeners b !! event))
  /\ listeners (emit event data b) !! event
     = filter is_plain <$> listeners b !! event
  /\ (forall event', event <> event' ->
        listeners (emit event data b) !! event' = listeners b !! event')
  /\ wrappers (emit event data b) = wrappers b.
Proof.
  split; [apply EventBusFacts.emit_calls|].
  unfold emit. destruct (listeners b !! event) as [s|] eqn:Hs.
  - split_and!.
    + rewrite (run_registry event data s b s Hs). cbn. f_equal.
      apply filter_ext_in. intros y Hy. tauto.
    + intros event' Hne. by apply run_other.
    + apply run_wrappers.
  - by rewrite Hs.
Qed.

(** X12. [emit] runs every listener registered for the event once, in
    registration order, with the payload.  Afterwards the listeners
    registered with [on] are all still there, in order, the closures of
    [once] for that event are gone, and the registries of the other events
    are untouched. *)
Theorem emit_delivers (b : t) (event : string) (data : RouteEvent) :
  calls (emit event data b)
  = calls b ++ ((fun l => (fn_of l, event, data))
                  <$> default [] (listeners b !! event))
  /\ listeners (emit event data b) !! event
     = filter is_plain <$> listeners b !! event
  /\ (forall event', event <> event' ->
        listeners (emit event data b) !! event' = listeners b !! event')
  /\ wrappers (emit event data b) = wrappers b.
Proof. apply emit_effect. Qed.





(** X15. After [removeAllListeners()] an [emit] of any event calls nobody
    and changes nothing.  After [removeAllListeners(event)], for an event
    name that is not the empty string, the same holds for that event, and
    the registries of the other events are as before. *)
Theorem remove_all_listeners (b : t) :
  (forall event data,
     emit event data (removeAllListeners None b) = removeAllListeners None b)
  /\ (forall event data, event <> EmptyString ->
        emit event data (removeAllListeners (Some event) b)
        = removeAllListeners (Some event) b)
  /\ (forall event event', event <> EmptyString -> event <> event' ->
        listeners (removeAllListeners (Some event) b) !! event'
        = listeners b !! event').
Proof.
  split_and!.
  - intros event data. unfold emit. cbn [removeAllListeners listeners].
    by rewrite lookup_empty.
  - intros event data He. unfold emit, removeAllListeners.
    rewrite decide_False by done. cbn [listeners].
    by rewrite lookup_delete_eq.
  - intros event event' He Hne. unfold removeAllListeners.
    rewrite decide_False by done. cbn [listeners].
    by rewrite lookup_delete_ne.
Qed.

Lemma delete_length (l : Listener) (s : list Listener) :
  NoDup s -> l ∈ s -> S (length (set_delete l s)) = length s.
Proof.
  unfold set_delete. induction 1 as [|x s Hx Hs IH]; intros Hl.
  - by apply elem_of_nil in Hl.
  - rewrite filter_cons. destruct (decide (x <> l)) as [Hne|Heq].
    + cbn. f_equal. apply IH.
      apply elem_of_cons in Hl as [Hl|Hl]; [congruence|done].
    + assert (x = l) by (by destruct (decide (x = l))). subst x.
      cbn. f_equal. f_equal. apply filter_all.
      intros y Hy ->. contradiction.
Qed.

(** X16. [off] with a listener that is not registered for the event
    changes nothing, so a second [off], or a second call of an unsubscribe
    handle, is harmless. *)
Theorem off_unregistered (b : t) (event : string) (l : Listener) :
  (l ∉ default [] (listeners b !! event) -> off event l b = b)
  /\ off event l (off event l b) = off event l b
  /\ unsubscribe (event, l) (unsubscribe (event, l) b)
     = unsubscribe (event, l) b.
Proof.
  assert (Hnop : forall b', l ∉ default [] (listeners b' !! event) ->
                            off event l b' = b').
  { intros b' Hl. unfold off.
    destruct (listeners b' !! event) as [s|] eqn:Hs; [|done].
    cbn [default] in Hl. unfold set_delete.
    rewrite filter_all by (intros y Hy ->; contradiction).
    rewrite insert_id by done. by destruct b'. }
  assert (Htwice : off event l (off event l b) = off event l b).
  { apply Hnop. rewrite off_listeners.
    destruct (listeners b !! event) as [s|]; cbn.
    - apply EventBusFacts.set_delete_gone.
    - apply not_elem_of_nil. }
  split_and!; [apply Hnop|exact Htwice|exact Htwice].
Qed.

(** X17. [listenerCount] is the size of the registry of the event: 0 for an
    event never subscribed to, one more after [on] with a listener not yet
    registered, unchanged after [on] with a registered one, one less after
    [off] with a registered one; subscribing to one event does not change
    the count of another. *)
Theorem listener_count (b : t) (event : string) (l : Listener) :
  let s := default [] (listeners b !! event) in
  TypedEventEmitter.listenerCount event new = 0
  /\ TypedEventEmitter.listenerCount event b = Z.of_nat (length s)
  /\ TypedEventEmitter.listenerCount event (on event l b).2
     = (if decide (l ∈ s) then Z.of_nat (length s)
        else Z.of_nat (length s) + 1)
  /\ (NoDup s ->
      TypedEventEmitter.listenerCount event (off event l b)
      = if decide (l ∈ s) then Z.of_nat (length s) - 1
        else Z.of_nat (length s))
  /\ (forall event', event <> event' ->
        TypedEventEmitter.listenerCount event' (on event l b).2
        = TypedEventEmitter.listenerCount event' b)
  /\ TypedEventEmitter.listenerCount event (removeAllListeners None b) = 0.
Proof.
  intros s. unfold TypedEventEmitter.listenerCount.
  split_and!.
  - cbn. by rewrite lookup_empty.
  - unfold s. by destruct (listeners b !! event).
  - rewrite EventBusFacts.on_listeners. fold s. unfold set_add.
    destruct (decide (l ∈ s)); [done|].
    rewrite length_app. cbn. lia.
  - intros Hnd. rewrite off_listeners. unfold s in *.
    destruct (listeners b !! event) as [s0|]; cbn in *.
    + destruct (decide (l ∈ s0)) as [Hin|Hout].
      * pose proof (delete_length l s0 Hnd Hin). lia.
      * unfold set_delete.
        by rewrite filter_all by (intros y Hy ->; contradiction).
    + rewrite decide_False; [done|apply not_elem_of_nil].
  - intros event' Hne. unfold on. cbn [snd listeners].
    destruct (listeners b !! event) as [s0|] eqn:Hs0.
    + rewrite Hs0. by rewrite lookup_insert_ne.
    + rewrite lookup_insert_eq. by rewrite !lookup_insert_ne.
  - cbn. by rewrite lookup_empty.
Qed.

End BusMore.

(** ** The order [<] on binary64 values *)

Module FloatOrderFacts.
Import FloatOrder.

(** The comparison of the specification is the lexicographic comparison of
    the keys. *)
Lemma SFcompare_key a b :
  SFcompare a b
  = match key a, key b with
    | Some x, Some y => Some (lex_compare x y)
    | _, _ => None
    end.
Proof.
  destruct a as [[|]|[|]| |[|] m1 e1], b as [[|]|[|]| |[|] m2 e2];
    try reflexivity.
  cbn [SFcompare key]. unfold lex_compare. cbn [fst snd].
  rewrite Z.compare_opp, (Z.compare_antisym e1 e2).
  change (-1 ?= -1) with Eq. cbv iota.
  change (Z.neg m1 ?= Z.neg m2) with (CompOpp (m1 ?= m2)%positive).
  change (Pos.compare_cont Eq m1 m2) with (m1 ?= m2)%positive.
  by destruct (e1 ?= e2).
Qed.

Lemma lex_compare_Lt a b :
  lex_compare a b = Lt
  <-> a.1.1 < b.1.1
      \/ (a.1.1 = b.1.1
          /\ (a.1.2 < b.1.2 \/ (a.1.2 = b.1.2 /\ a.2 < b.2))).
Proof.
  unfold lex_compare.
  destruct (Z.compare_spec a.1.1 b.1.1), (Z.compare_spec a.1.2 b.1.2),
           (Z.compare_spec a.2 b.2);
    split; intros Hlt; (done || lia).
Qed.

Lemma lex_compare_Eq a b : lex_compare a b = Eq <-> a = b.
Proof.
  unfold lex_compare. destruct a as [[a1 a2] a3], b as [[b1 b2] b3].
  cbn [fst snd].
  destruct (Z.compare_spec a1 b1), (Z.compare_spec a2 b2),
           (Z.compare_spec a3 b3);
    split; intros Heq; try done; try (injection Heq; lia); subst; done.
Qed.

(** [x < y] in terms of keys. *)
Lemma ltb_key (x y : float) :
  (x <? y)%float = true
  <-> exists a b,
        key (Prim2SF x) = Some a /\ key (Prim2SF y) = Some b
        /\ lex_compare a b = Lt.
Proof.
  rewrite FloatAxioms.ltb_spec. unfold SFltb. rewrite SFcompare_key.
  destruct (key (Prim2SF x)) as [a|], (key (Prim2SF y)) as [b|];
    try (split; [done|by intros (? & ? & ? & ? & ?)]).
  split.
  - destruct (lex_compare a b) eqn:Hc; try done. intros _. by exists a, b.
  - intros (a' & b' & [= <-] & [= <-] & ->). done.
Qed.

Lemma leb_key (x y : float) :
  (x <=? y)%float = true
  <-> exists a b,
        key (Prim2SF x) = Some a /\ key (Prim2SF y) = Some b
        /\ lex_compare a b <> Gt.
Proof.
  rewrite FloatAxioms.leb_spec. unfold SFleb. rewrite SFcompare_key.
  destruct (key (Prim2SF x)) as [a|], (key (Prim2SF y)) as [b|];
    try (split; [done|by intros (? & ? & ? & ? & ?)]).
  split.
  - destruct (lex_compare a b) eqn:Hc; try done; intros _; exists a, b;
      by rewrite Hc.
  - intros (a' & b' & [= <-] & [= <-] & Hc).
    by destruct (lex_compare a b).
Qed.

Lemma lex_compare_Gt a b :
  lex_compare a b <> Gt <-> lex_compare a b = Lt \/ a = b.
Proof.
  rewrite <- lex_compare_Eq. destruct (lex_compare a b); intuition congruence.
Qed.

(** A value is NaN exactly when it has no key. *)
Lemma is_nan_key (x : float) :
  is_nan x = true <-> key (Prim2SF x) = None.
Proof.
  unfold is_nan. rewrite FloatAxioms.eqb_spec. unfold SFeqb.
  rewrite SFcompare_key. destruct (key (Prim2SF x)) as [a|]; [|done].
  assert (Hrefl : lex_compare a a = Eq) by (by apply lex_compare_Eq).
  rewrite Hrefl. done.
Qed.

Lemma not_nan_key (x : float) :
  is_nan x = false -> exists a, key (Prim2SF x) = Some a.
Proof.
  intros Hx. destruct (key (Prim2SF x)) as [a|] eqn:Hk; [by exists a|].
  apply is_nan_key in Hk. congruence.
Qed.

Lemma ltb_not_nan_l (x y : float) :
  (x <? y)%float = true -> is_nan x = false.
Proof.
  intros (a & b & Ha & _)%ltb_key.
  destruct (is_nan x) eqn:Hx; [|done].
  apply is_nan_key in Hx. congruence.
Qed.

Lemma ltb_irrefl (x : float) : (x <? x)%float = false.
Proof.
  destruct (x <? x)%float eqn:H; [|done].
  apply ltb_key in H as (a & b & Ha & Hb & Hc).
  rewrite Ha in Hb. injection Hb as <-.
  apply lex_compare_Lt in Hc. lia.
Qed.

Lemma ltb_asym (x y : float) :
  (x <? y)%float = true -> (y <? x)%float = false.
Proof.
  intros (a & b & Ha & Hb & Hc)%ltb_key.
  destruct (y <? x)%float eqn:H; [|done].
  apply ltb_key in H as (b' & a' & Hb' & Ha' & Hc').
  rewrite Ha in Ha'. rewrite Hb in Hb'.
  injection Ha' as <-. injection Hb' as <-.
  apply lex_compare_Lt in Hc, Hc'. lia.
Qed.

Lemma ltb_trans (x y z : float) :
  (x <? y)%float = true -> (y <? z)%float = true -> (x <? z)%float = true.
Proof.
  intros (a & b & Ha & Hb & Hab)%ltb_key (b' & c & Hb' & Hc & Hbc)%ltb_key.
  rewrite Hb in Hb'. injection Hb' as <-.
  apply ltb_key. exists a, c. split_and!; [done|done|].
  apply lex_compare_Lt in Hab, Hbc. apply lex_compare_Lt. lia.
Qed.

Lemma leb_ltb_trans (x y z : float) :
  (x <=? y)%float = true -> (y <? z)%float = true -> (x <? z)%float = true.
Proof.
  intros (a & b & Ha & Hb & Hab)%leb_key (b' & c & Hb' & Hc & Hbc)%ltb_key.
  rewrite Hb in Hb'. injection Hb' as <-.
  apply ltb_key. exists a, c. split_and!; [done|done|].
  apply lex_compare_Gt in Hab as [Hab| ->]; [|done].
  apply lex_compare_Lt in Hab, Hbc. apply lex_compare_Lt. lia.
Qed.

(** Below a number that is not NaN and not below another: not below the
    other either. *)
Lemma ltb_neg_trans (x y z : float) :
  is_nan y = false ->
  (x <? y)%float = false -> (y <? z)%float = false ->
  (x <? z)%float = false.
Proof.
  intros (b & Hb)%not_nan_key Hxy Hyz.
  destruct (x <? z)%float eqn:Hxz; [|done].
  apply ltb_key in Hxz as (a & c & Ha & Hc & Hac).
  apply lex_compare_Lt in Hac.
  destruct (lex_compare a b) eqn:Hab.
  - apply lex_compare_Eq in Hab. subst b.
    assert ((y <? z)%float = true); [|congruence].
    apply ltb_key. exists a, c. split_and!; [done|done|].
    by apply lex_compare_Lt.
  - assert ((x <? y)%float = true); [|congruence].
    apply ltb_key. by exists a, b.
  - assert ((y <? z)%float = true); [|congruence].
    apply ltb_key. exists b, c. split_and!; [done|done|].
    apply lex_compare_Lt.
    assert (Hba : lex_compare b a = Lt).
    { unfold lex_compare in *.
      destruct (Z.compare_spec a.1.1 b.1.1), (Z.compare_spec a.1.2 b.1.2),
               (Z.compare_spec a.2 b.2); try done;
      destruct (Z.compare_spec b.1.1 a.1.1), (Z.compare_spec b.1.2 a.1.2),
               (Z.compare_spec b.2 a.2); try done; lia. }
    apply lex_compare_Lt in Hba. lia.
Qed.

End FloatOrderFacts.

(** ** Geometry: projection and search *)

Module GeoMore.
Import Geo FloatOrder.

Section WithMath.
Context {M : JsMath}.

Lemma Math_min_one (v : float) : (1 <? JsNum.Math_min 1 v)%float = false.
Proof.
  unfold JsNum.Math_min. change (is_nan 1) with false. cbn [orb].
  destruct (is_nan v); [reflexivity|].
  destruct (1 <? v)%float eqn:H1; [reflexivity|].
  destruct (v <? 1)%float eqn:H2; [by apply FloatOrderFacts.ltb_asym|].
  change (JsNum.is_neg_zero 1) with false. exact H1.
Qed.

Lemma Math_max_zero (w : float) :
  (1 <? w)%float = false ->
  (JsNum.Math_max 0 w <? 0)%float = false
  /\ (1 <? JsNum.Math_max 0 w)%float = false.
Proof.
  intros Hw. unfold JsNum.Math_max. change (is_nan 0) with false. cbn [orb].
  destruct (is_nan w); [by split|].
  destruct (0 <? w)%float eqn:H1;
    [split; [by apply FloatOrderFacts.ltb_asym|done]|].
  destruct (w <? 0)%float eqn:H2; [by split|].
  change (JsNum.is_neg_zero 0) with false. by split.
Qed.

Lemma fraction_bounds (point segStart segEnd : Coordinate) :
  let r := nearestPointOnSegment point segStart segEnd in
  (sr_fraction r <? 0)%float = false /\ (1 <? sr_fraction r)%float = false.
Proof.
  cbv zeta. unfold nearestPointOnSegment.
  destruct (_ =? 0)%float; [by split|].
  cbn [sr_fraction]. apply Math_max_zero, Math_min_one.
Qed.

(** X18. The fraction [nearestPointOnSegment] returns is never below 0 and
    never above 1 (it is NaN when the projection is), and for a segment
    whose squared planar length is 0 the projection is the start of the
    segment, at fraction 0. *)
Theorem segment_fraction_in_unit (point segStart segEnd : Coordinate) :
  let r := nearestPointOnSegment point segStart segEnd in
  let dx := (longitude segEnd - longitude segStart)%float in
  let dy := (latitude segEnd - latitude segStart)%float in
  (sr_fraction r <? 0)%float = false
  /\ (1 <? sr_fraction r)%float = false
  /\ ((dx * dx + dy * dy =? 0)%float = true ->
      sr_point r = segStart /\ sr_fraction r = 0%float
      /\ sr_distance r = calculateDistance point segStart).
Proof.
  cbv zeta. split_and!; [apply fraction_bounds|apply fraction_bounds|].
  intros Hzero. unfold nearestPointOnSegment. by rewrite Hzero.
Qed.

Lemma segment_result_bound (point : Coordinate) (line : list Position) j r :
  segment_result point line j = Some r -> (S j < length line)%nat.
Proof.
  unfold segment_result. intros Hr.
  destruct (line !! j) as [a|]; [|done]. cbn in Hr.
  destruct (line !! S j) as [b|] eqn:Hb; [|done].
  by apply lookup_lt_Some in Hb.
Qed.

Lemma segment_result_exists (point : Coordinate) (line : list Position) j :
  (S j < length line)%nat -> exists r, segment_result point line j = Some r.
Proof.
  intros Hj. unfold segment_result.
  destruct (lookup_lt_is_Some_2 line j) as [a Ha]; [lia|].
  destruct (lookup_lt_is_Some_2 line (S j)) as [b Hb]; [lia|].
  rewrite Ha. cbn. rewrite Hb. cbn. eauto.
Qed.

(** One round of the search, read through [segment_result]. *)
Lemma search_segment_eq (point : Coordinate) (line : list Position)
    (i : nat) r s :
  segment_result point line i = Some r ->
  search_segment point line (Z.of_nat i) s
  = Ret (if (sr_distance r <? minDistance s)%float
         then mkSearch (sr_distance r) (Some (sr_point r)) (Z.of_nat i)
                       (sr_fraction r)
         else s).
Proof.
  unfold segment_result, search_segment. intros Hr.
  destruct (line !! i) as [a|] eqn:Ha; [|done]. cbn in Hr.
  destruct (line !! S i) as [b|] eqn:Hb; [|done]. cbn in Hr.
  injection Hr as <-.
  rewrite (GeoFacts.js_elem_lookup line (Z.of_nat i) a)
    by (try lia; by rewrite Nat2Z.id).
  rewrite (GeoFacts.js_elem_lookup line (Z.of_nat i + 1) b)
    by (try lia; by replace (Z.to_nat (Z.of_nat i + 1)) with (S i) by lia).
  cbn. by destruct (_ <? _)%float.
Qed.

(** One round keeps what the search has established. *)
Lemma search_step (point : Coordinate) (line : list Position) (i : nat) r s :
  segment_result point line i = Some r ->
  search_inv point line i s ->
  search_inv point line (S i)
    (if (sr_distance r <? minDistance s)%float
     then mkSearch (sr_distance r) (Some (sr_point r)) (Z.of_nat i)
                   (sr_fraction r)
     else s).
Proof.
  intros Hr [Hmin Hkept].
  destruct (sr_distance r <? minDistance s)%float eqn:Hlt.
  - split; cbn [minDistance nearestPoint].
    + intros j r' Hj Hr'. destruct (decide (j = i)) as [->|Hne].
      * rewrite Hr in Hr'. injection Hr' as <-.
        apply FloatOrderFacts.ltb_irrefl.
      * destruct (sr_distance r' <? sr_distance r)%float eqn:Hc; [|done].
        pose proof (FloatOrderFacts.ltb_trans _ _ _ Hc Hlt) as Hbad.
        rewrite (Hmin j r' ltac:(lia) Hr') in Hbad. discriminate.
    + exists i, r. split_and!; try done; [lia| |].
      * destruct (nearestPoint s) as [pt|].
        -- destruct Hkept as (k & rk & _ & _ & _ & _ & Hm & _ & Hinf & _).
           rewrite Hm in Hlt.
           exact (FloatOrderFacts.ltb_trans _ _ _ Hlt Hinf).
        -- by rewrite Hkept in Hlt.
      * intros j r' Hj Hr'.
        destruct (sr_distance r' <=? sr_distance r)%float eqn:Hc; [|done].
        pose proof (FloatOrderFacts.leb_ltb_trans _ _ _ Hc Hlt) as Hbad.
        rewrite (Hmin j r' Hj Hr') in Hbad. discriminate.
  - split.
    + intros j r' Hj Hr'. destruct (decide (j = i)) as [->|Hne].
      * rewrite Hr in Hr'. by injection Hr' as <-.
      * apply (Hmin j r'); [lia|done].
    + destruct (nearestPoint s) as [pt|]; [|done].
      destruct Hkept as (k & rk & Hk & Hrest). exists k, rk.
      split; [lia|done].
Qed.

Lemma search_loop_inv (point : Coordinate) (line : list Position) (n : nat) :
  forall i s,
    (i + n + 1 <= length line)%nat ->
    search_inv point line i s ->
    exists s',
      for_loop n (Z.of_nat i) (search_segment point line) s = Ret s'
      /\ search_inv point line (i + n) s'.
Proof.
  induction n as [|n IH]; intros i s Hlen Hinv; cbn [for_loop].
  - exists s. by rewrite Nat.add_0_r.
  - destruct (segment_result_exists point line i) as [r Hr]; [lia|].
    rewrite (search_segment_eq point line i r s Hr).
    destruct (IH (S i) _ ltac:(lia) (search_step point line i r s Hr Hinv))
      as (s' & Hs' & Hinv').
    exists s'. split.
    + replace (Z.of_nat i + 1) with (Z.of_nat (S i)) by lia. exact Hs'.
    + by replace (i + S n)%nat with (S i + n)%nat by lia.
Qed.

(** What the search returns, case by case. *)
Lemma nearest_search (point : Coordinate) (line : list Position) :
  match findNearestPointOnLine point line with
  | Throw _ => False
  | Ret None =>
      (length line < 2)%nat
      \/ forall j r, segment_result point line j = Some r ->
                     (sr_distance r <? infinity)%float = false
  | Ret (Some n) =>
      exists (k : nat) r,
        np_segmentIndex n = Z.of_nat k
        /\ (k + 2 <= length line)%nat
        /\ segment_result point line k = Some r
        /\ np_point n = sr_point r
        /\ np_distance n = sr_distance r
        /\ np_segmentFraction n = sr_fraction r
        /\ (forall j r', segment_result point line j = Some r' ->
                         (sr_distance r' <? np_distance n)%float = false)
        /\ (forall j r', (j < k)%nat ->
                         segment_result point line j = Some r' ->
                         (sr_distance r' <=? np_distance n)%float = false)
        /\ (np_distance n <? infinity)%float = true
        /\ (np_segmentFraction n <? 0)%float = false
        /\ (1 <? np_segmentFraction n)%float = false
  end.
Proof.
  unfold findNearestPointOnLine.
  destruct (Z.ltb_spec (Z.of_nat (length line)) 2) as [Hshort|Hlong].
  { left. lia. }
  unfold for_range.
  destruct (search_loop_inv point line
              (Z.to_nat (Z.of_nat (length line) - 1 - 0)) 0
              (mkSearch infinity None 0 0)) as (s & Hs & Hmin & Hkept).
  { lia. }
  { split; [intros j r Hj; lia|done]. }
  change 0 with (Z.of_nat 0) at 2. rewrite Hs. cbn [mbind js_bind].
  destruct (nearestPoint s) as [pt|].
  - destruct Hkept as (k & r & Hk & Hidx & Hr & Hpt & Hd & Hf & Hinf & Hfirst).
    exists k, r. cbn [np_segmentIndex np_point np_distance
                      np_segmentFraction].
    pose proof (segment_result_bound point line k r Hr).
    split_and!; try done; try lia.
    + intros j r' Hr'. apply (Hmin j r'); [|done].
      apply segment_result_bound in Hr'. lia.
    + intros j r' Hj Hr'. rewrite Hd. by apply (Hfirst j r').
    + by rewrite Hd.
    + rewrite Hf. unfold segment_result in Hr.
      destruct (line !! k); [|done]. cbn in Hr.
      destruct (line !! S k); [|done]. injection Hr as <-.
      apply fraction_bounds.
    + rewrite Hf. unfold segment_result in Hr.
      destruct (line !! k); [|done]. cbn in Hr.
      destruct (line !! S k); [|done]. injection Hr as <-.
      apply fraction_bounds.
  - right. intros j r Hr. rewrite <- Hkept. apply (Hmin j r); [|done].
    apply segment_result_bound in Hr. lia.
Qed.

(** X19. [findNearestPointOnLine] never throws.  When it returns a result,
    the result is the projection on the segment it names, that segment
    exists, no segment is strictly nearer, every earlier segment is
    strictly farther (or its distance is NaN), the distance is below
    [Infinity] and the fraction lies between 0 and 1.  It returns nothing
    only for a line of fewer than 2 points or when no segment has a
    distance below [Infinity]. *)
Theorem nearest_is_minimal (point : Coordinate) (line : list Position) :
  match findNearestPointOnLine point line with
  | Throw _ => False
  | Ret None =>
      (length line < 2)%nat
      \/ forall j r, segment_result point line j = Some r ->
                     (sr_distance r <? infinity)%float = false
  | Ret (Some n) =>
      exists (k : nat) r,
        np_segmentIndex n = Z.of_nat k
        /\ (k + 2 <= length line)%nat
        /\ segment_result point line k = Some r
        /\ np_point n = sr_point r
        /\ np_distance n = sr_distance r
        /\ np_segmentFraction n = sr_fraction r
        /\ (forall j r', segment_result point line j = Some r' ->
                         (sr_distance r' <? np_distance n)%float = false)
        /\ (forall j r', (j < k)%nat ->
                         segment_result point line j = Some r' ->
                         (sr_distance r' <=? np_distance n)%float = false)
        /\ (np_distance n <? infinity)%float = true
        /\ (np_segmentFraction n <? 0)%float = false
        /\ (1 <? np_segmentFraction n)%float = false
  end.
Proof. apply nearest_search. Qed.

Lemma segment_lengths_snoc (init : list Position) (q p : Position) :
  GeoSpec.segment_lengths (init ++ [q; p])
  = GeoSpec.segment_lengths (init ++ [q])
    ++ [calculateDistance (positionToCoordinate q) (positionToCoordinate p)].
Proof.
  unfold GeoSpec.segment_lengths.
  induction init as [|x init IH]; [done|].
  destruct init as [|y init]; [done|].
  cbn [app tail zip_with] in *. by rewrite IH.
Qed.

(** X20. [calculateLineLength] never throws, and a line extended by one
    point is longer by the distance from its former last point, added last:
    the total is accumulated from the first segment on. *)
Theorem line_length_append (init : list Position) (q p : Position) :
  exists total,
    calculateLineLength (init ++ [q]) = Ret total
    /\ calculateLineLength (init ++ [q; p])
       = Ret (match init with
              | [] => 0
              | _ => total
              end
              + calculateDistance (positionToCoordinate q)
                                  (positionToCoordinate p))%float.
Proof.
  exists (GeoSpec.lineLength (init ++ [q])).
  rewrite !GeoFacts.calculateLineLength_sum. split; [done|].
  unfold GeoSpec.lineLength, GeoSpec.sum.
  rewrite segment_lengths_snoc, fold_left_app. cbn [fold_left].
  by destruct init.
Qed.

(** An index that names a segment: [calculateRemainingLength] returns. *)
Lemma remaining_in_range (coordinates : list Position) (k : nat)
    (fraction : float) :
  (k + 2 <= length coordinates)%nat ->
  exists d,
    calculateRemainingLength coordinates (Z.of_nat k) fraction = Ret d.
Proof.
  intros Hk. unfold calculateRemainingLength.
  destruct (Z.ltb_spec (Z.of_nat (length coordinates)) 2); [lia|].
  destruct (Z.leb_spec (Z.of_nat (length coordinates) - 1) (Z.of_nat k));
    [lia|].
  cbn [orb].
  destruct (lookup_lt_is_Some_2 coordinates k) as [a Ha]; [lia|].
  destruct (lookup_lt_is_Some_2 coordinates (S k)) as [b Hb]; [lia|].
  rewrite (GeoFacts.js_elem_lookup coordinates (Z.of_nat k) a)
    by (try lia; by rewrite Nat2Z.id).
  rewrite (GeoFacts.js_elem_lookup coordinates (Z.of_nat k + 1) b)
    by (try lia; by replace (Z.to_nat (Z.of_nat k + 1)) with (S k) by lia).
  cbn [mbind js_bind]. unfold for_range.
  rewrite GeoFacts.length_loop.
  - eauto.
  - lia.
  - rewrite GeoFacts.segment_lengths_length. lia.
Qed.

Lemma queries_return (coordinate : Coordinate)
    (threshold : option float) (p : RoutePlanner.t) :
  (exists r, RoutePlanner.getNearestPointOnRoute coordinate p = Ret r)
  /\ (exists b, RoutePlanner.isOffRoute coordinate threshold p = Ret b)
  /\ (exists d, RoutePlanner.getRemainingDistance coordinate p = Ret d)
  /\ (RoutePlanner.has_route p = None ->
      RoutePlanner.getNearestPointOnRoute coordinate p = Ret None
      /\ RoutePlanner.isOffRoute coordinate threshold p = Ret false
      /\ RoutePlanner.getRemainingDistance coordinate p = Ret None).
Proof.
  unfold RoutePlanner.getNearestPointOnRoute, RoutePlanner.isOffRoute,
    RoutePlanner.getRemainingDistance.
  destruct (RoutePlanner.has_route p) as [rt|]; [|by eauto 10].
  split_and!; [| | |done].
  - apply GeoFacts.findNearestPointOnLine_returns.
  - unfold isOffRoute.
    destruct (GeoFacts.findNearestPointOnLine_returns coordinate
                (geometry rt)) as [[n|] Hn]; rewrite Hn; cbn; eauto.
  - pose proof (nearest_search coordinate (geometry rt)) as Hn.
    destruct (findNearestPointOnLine coordinate (geometry rt))
      as [[n|]|]; [|by eauto|done].
    destruct Hn as (k & r & Hidx & Hk & _).
    destruct (remaining_in_range (geometry rt) k (np_segmentFraction n) Hk)
      as [d Hd].
    cbn [mbind js_bind]. rewrite Hidx, Hd. cbn. eauto.
Qed.

(** X21. The geometry queries of the Planner never throw, whatever the
    route held: without a route of at least 2 points they answer "nothing"
    or "not off route", and with one the segment found by the search is
    always one that [calculateRemainingLength] can start from. *)
Theorem planner_queries_return (coordinate : Coordinate)
    (threshold : option float) (p : RoutePlanner.t) :
  (exists r, RoutePlanner.getNearestPointOnRoute coordinate p = Ret r)
  /\ (exists b, RoutePlanner.isOffRoute coordinate threshold p = Ret b)
  /\ (exists d, RoutePlanner.getRemainingDistance coordinate p = Ret d)
  /\ (RoutePlanner.has_route p = None ->
      RoutePlanner.getNearestPointOnRoute coordinate p = Ret None
      /\ RoutePlanner.isOffRoute coordinate threshold p = Ret false
      /\ RoutePlanner.getRemainingDistance coordinate p = Ret None).
Proof. apply queries_return. Qed.

End WithMath.

End GeoMore.

(** ** After [dispose] *)

Module DisposalFacts.
Import RoutePlanner.

(** C3, amended. On a Planner whose [dispose] has been called,
    [addWaypoint], [insertWaypoint], [removeWaypoint], [updateWaypoint],
    [reorderWaypoints], [clear], [undo], [redo] and [recalculate] fail at
    once with the disposed error and change nothing.  No other operation
    fails: the read-only ones return a value, [isDisposed] returns true,
    and [on], [once] and [off] still register and remove listeners.  When
    every call made on the Planner, [dispose] included, had run to
    completion before the next one began, the read-only operations answer
    from the cleared state: no route, no statistics, no waypoints, no
    steps, nothing to undo or redo, history size 0, not off route. *)
Theorem disposed_planner_calls (p : t) :
  disposed p = true ->
  (forall c name env, addWaypoint c name env p = (Throw disposed_message, p))
  /\ (forall c i name env,
        insertWaypoint c i name env p = (Throw disposed_message, p))
  /\ (forall id env, removeWaypoint id env p = (Throw disposed_message, p))
  /\ (forall id c env,
        updateWaypoint id c env p = (Throw disposed_message, p))
  /\ (forall f t env,
        reorderWaypoints f t env p = (Throw disposed_message, p))
  /\ (forall env, clear env p = (Throw disposed_message, p))
  /\ (forall env, undo env p = (Throw disposed_message, p))
  /\ (forall env, redo env p = (Throw disposed_message, p))
  /\ (forall env, recalculate env p = (Throw disposed_message, p))
  /\ (exists r, getRoute p = Ret r)
  /\ (exists st, getStats p = Ret st)
  /\ (exists ws, getWaypoints p = Ret ws)
  /\ (exists l, getNavigationSteps p = Ret l)
  /\ (exists b, isCalculating p = Ret b)
  /\ (exists b, canUndo p = Ret b)
  /\ (exists b, canRedo p = Ret b)
  /\ (exists n, getHistorySize p = Ret n)
  /\ isDisposed p = Ret true
  /\ (forall (M : JsMath) c th, exists b, isOffRoute c th p = Ret b)
  /\ (forall (M : JsMath) c, exists r, getNearestPointOnRoute c p = Ret r)
  /\ (forall (M : JsMath) c, exists d, getRemainingDistance c p = Ret d)
  /\ (forall event l,
        l ∈ default [] (EventBusImpl.listeners (events (on event l p).2)
                          !! event))
  /\ (forall event r,
        EventBusImpl.OnceWrapper (EventBusImpl.wrappers (events p)) r
        ∈ default [] (EventBusImpl.listeners (events (once event r p).2)
                        !! event))
  /\ (forall event l,
        l ∉ default [] (EventBusImpl.listeners (events (off event l p))
                          !! event))
  /\ (reachable p ->
      getRoute p = Ret None
      /\ getStats p = Ret None
      /\ getWaypoints p = Ret []
      /\ getNavigationSteps p = Ret []
      /\ canUndo p = Ret false
      /\ canRedo p = Ret false
      /\ getHistorySize p = Ret 0
      /\ (forall (M : JsMath) c th, isOffRoute c th p = Ret false)
      /\ (forall (M : JsMath) c, getNearestPointOnRoute c p = Ret None)
      /\ (forall (M : JsMath) c, getRemainingDistance c p = Ret None)).
Proof.
  intros Hd.
  destruct (PlannerFacts.guarded_calls_fail p Hd)
    as (H1 & H2 & H3 & H4 & H5 & H6 & H7 & H8 & H9).
  destruct (PlannerFacts.listeners_calls_unguarded p) as (Hon & Honce & Hoff).
  split_and!; try assumption.
  - by eexists.
  - by eexists.
  - by eexists.
  - by eexists.
  - by eexists.
  - by eexists.
  - by eexists.
  - by eexists.
  - unfold isDisposed. by rewrite Hd.
  - intros M c th. apply (GeoMore.queries_return c th p).
  - intros M c. apply (GeoMore.queries_return c None p).
  - intros M c. apply (GeoMore.queries_return c None p).
  - intros Hp. by apply PlannerFacts.getters_when_torn_down.
Qed.

(** An instance of the amended C3: two waypoints added, then [dispose],
    each call run to completion. *)
Lemma disposed_planner_calls_witness :
  let p := dispose Scenario.two in
  (forall c name env, addWaypoint c name env p = (Throw disposed_message, p))
  /\ (forall env, recalculate env p = (Throw disposed_message, p))
  /\ isDisposed p = Ret true
  /\ getRoute p = Ret None
  /\ getStats p = Ret None
  /\ getWaypoints p = Ret []
  /\ getNavigationSteps p = Ret []
  /\ canUndo p = Ret false
  /\ canRedo p = Ret false
  /\ getHistorySize p = Ret 0
  /\ (forall (M : JsMath) c th, isOffRoute c th p = Ret false)
  /\ (forall (M : JsMath) c, getNearestPointOnRoute c p = Ret None)
  /\ (forall (M : JsMath) c, getRemainingDistance c p = Ret None).
Proof.
  intros p.
  destruct (disposed_planner_calls p eq_refl)
    as (H1 & _ & _ & _ & _ & _ & _ & _ & H9 & _ & _ & _ & _ & _ & _ & _ & _
        & Hd & _ & _ & _ & _ & _ & _ & Hreach).
  split; [exact H1|]. split; [exact H9|]. split; [exact Hd|].
  apply Hreach.
  apply (reach_call Dispose Scenario.env_c), PlannerFacts.reachable_two.
Defined.

End DisposalFacts.

(** ** The route calculator adapter *)

Module AdapterFacts.
Import RouteCalculatorAdapter FloatOrder.

(** [Math.min] and [Math.max] of two numbers, neither NaN. *)
Lemma Math_min_spec (a x : float) :
  is_nan a = false -> is_nan x = false ->
  let r := JsNum.Math_min a x in
  is_nan r = false /\ (a <? r)%float = false /\ (x <? r)%float = false.
Proof.
  intros Ha Hx. cbv zeta. unfold JsNum.Math_min. rewrite Ha, Hx. cbn [orb].
  destruct (a <? x)%float eqn:H1.
  { split_and!; [done|apply FloatOrderFacts.ltb_irrefl|
                 by apply FloatOrderFacts.ltb_asym]. }
  destruct (x <? a)%float eqn:H2.
  { split_and!; [done|done|apply FloatOrderFacts.ltb_irrefl]. }
  destruct (JsNum.is_neg_zero a);
    split_and!; (done || apply FloatOrderFacts.ltb_irrefl).
Qed.

Lemma Math_max_spec (a x : float) :
  is_nan a = false -> is_nan x = false ->
  let r := JsNum.Math_max a x in
  is_nan r = false /\ (r <? a)%float = false /\ (r <? x)%float = false.
Proof.
  intros Ha Hx. cbv zeta. unfold JsNum.Math_max. rewrite Ha, Hx. cbn [orb].
  destruct (a <? x)%float eqn:H1.
  { split_and!; [done|by apply FloatOrderFacts.ltb_asym|
                 apply FloatOrderFacts.ltb_irrefl]. }
  destruct (x <? a)%float eqn:H2.
  { split_and!; [done|apply FloatOrderFacts.ltb_irrefl|done]. }
  destruct (JsNum.is_neg_zero a);
    split_and!; (done || apply FloatOrderFacts.ltb_irrefl).
Qed.

(** A running minimum is below its start and below everything it has
    seen. *)
Lemma fold_min (xs : list float) : forall m0,
  Forall (fun x => is_nan x = false) xs -> is_nan m0 = false ->
  let m := fold_left JsNum.Math_min xs m0 in
  is_nan m = false /\ (m0 <? m)%float = false
  /\ forall x, x ∈ xs -> (x <? m)%float = false.
Proof.
  induction xs as [|x xs IH]; intros m0 Hxs Hm0; cbn [fold_left].
  - split_and!; [done|apply FloatOrderFacts.ltb_irrefl|].
    intros x Hx. by apply elem_of_nil in Hx.
  - apply Forall_cons in Hxs as [Hx Hxs].
    destruct (Math_min_spec m0 x Hm0 Hx) as (Hn & Ha & Hb).
    destruct (IH (JsNum.Math_min m0 x) Hxs Hn) as (Hn' & Hm & Hall).
    split_and!; [done| |].
    + exact (FloatOrderFacts.ltb_neg_trans _ _ _ Hn Ha Hm).
    + intros y Hy. apply elem_of_cons in Hy as [->|Hy]; [|by apply Hall].
      exact (FloatOrderFacts.ltb_neg_trans _ _ _ Hn Hb Hm).
Qed.

Lemma fold_max (xs : list float) : forall m0,
  Forall (fun x => is_nan x = false) xs -> is_nan m0 = false ->
  let m := fold_left JsNum.Math_max xs m0 in
  is_nan m = false /\ (m <? m0)%float = false
  /\ forall x, x ∈ xs -> (m <? x)%float = false.
Proof.
  induction xs as [|x xs IH]; intros m0 Hxs Hm0; cbn [fold_left].
  - split_and!; [done|apply FloatOrderFacts.ltb_irrefl|].
    intros x Hx. by apply elem_of_nil in Hx.
  - apply Forall_cons in Hxs as [Hx Hxs].
    destruct (Math_max_spec m0 x Hm0 Hx) as (Hn & Ha & Hb).
    destruct (IH (JsNum.Math_max m0 x) Hxs Hn) as (Hn' & Hm & Hall).
    split_and!; [done| |].
    + exact (FloatOrderFacts.ltb_neg_trans _ _ _ Hn Hm Ha).
    + intros y Hy. apply elem_of_cons in Hy as [->|Hy]; [|by apply Hall].
      exact (FloatOrderFacts.ltb_neg_trans _ _ _ Hn Hm Hb).
Qed.

(** The loop of [calculateBounds] runs four folds side by side. *)
Lemma bounds_fold (coordinates : list Position) : forall b0,
  let step := fun b coord =>
    mkBoundingBox (JsNum.Math_min (minLng b) (pos0 coord))
                  (JsNum.Math_min (minLat b) (pos1 coord))
                  (JsNum.Math_max (maxLng b) (pos0 coord))
                  (JsNum.Math_max (maxLat b) (pos1 coord)) in
  fold_left step coordinates b0
  = mkBoundingBox
      (fold_left JsNum.Math_min (pos0 <$> coordinates) (minLng b0))
      (fold_left JsNum.Math_min (pos1 <$> coordinates) (minLat b0))
      (fold_left JsNum.Math_max (pos0 <$> coordinates) (maxLng b0))
      (fold_left JsNum.Math_max (pos1 <$> coordinates) (maxLat b0)).
Proof.
  induction coordinates as [|c cs IH]; intros b0; cbn [fold_left fmap
    list_fmap].
  - by destruct b0.
  - cbv zeta in IH. by rewrite IH.
Qed.

(** X22. For coordinates none of which is NaN, the box of
    [calculateBounds] contains every point: no longitude is below
    [minLng] or above [maxLng], no latitude below [minLat] or above
    [maxLat], and the four bounds are numbers.  For no coordinates at all
    the box is [[0, 0, 0, 0]]. *)
Theorem bounds_contain (coordinates : list Position) :
  no_nan coordinates ->
  let b := calculateBounds coordinates in
  (coordinates = [] -> b = mkBoundingBox 0 0 0 0)
  /\ (coordinates <> [] ->
      is_nan (minLng b) = false /\ is_nan (minLat b) = false
      /\ is_nan (maxLng b) = false /\ is_nan (maxLat b) = false)
  /\ forall c, c ∈ coordinates ->
       (pos0 c <? minLng b)%float = false
       /\ (maxLng b <? pos0 c)%float = false
       /\ (pos1 c <? minLat b)%float = false
       /\ (maxLat b <? pos1 c)%float = false.
Proof.
  intros Hnan b. subst b. unfold calculateBounds.
  destruct coordinates as [|c0 cs]; [by split_and!; [|done|intros c Hc;
    apply elem_of_nil in Hc]|].
  set (coords := c0 :: cs) in *.
  replace (Z.of_nat (length coords) =? 0) with false
    by (symmetry; apply Z.eqb_neq; cbn; lia).
  rewrite bounds_fold. cbn [minLng minLat maxLng maxLat].
  assert (H0 : Forall (fun x => is_nan x = false) (pos0 <$> coords)).
  { apply Forall_fmap. eapply Forall_impl; [exact Hnan|]. by intros ? [? ?]. }
  assert (H1 : Forall (fun x => is_nan x = false) (pos1 <$> coords)).
  { apply Forall_fmap. eapply Forall_impl; [exact Hnan|]. by intros ? [? ?]. }
  destruct (fold_min (pos0 <$> coords) infinity H0 eq_refl) as (? & _ & Hmin0).
  destruct (fold_min (pos1 <$> coords) infinity H1 eq_refl) as (? & _ & Hmin1).
  destruct (fold_max (pos0 <$> coords) neg_infinity H0 eq_refl)
    as (? & _ & Hmax0).
  destruct (fold_max (pos1 <$> coords) neg_infinity H1 eq_refl)
    as (? & _ & Hmax1).
  split_and!; [done|done|].
  intros c Hc.
  assert (pos0 c ∈ pos0 <$> coords) by (by apply list_elem_of_fmap_2).
  assert (pos1 c ∈ pos1 <$> coords) by (by apply list_elem_of_fmap_2).
  split_and!; [by apply Hmin0|by apply Hmax0|by apply Hmin1|by apply Hmax1].
Qed.

(** An instance of X22: the bend. *)
Lemma bounds_contain_witness :
  let b := calculateBounds Scenario.bend in
  (Scenario.bend = [] -> b = mkBoundingBox 0 0 0 0)
  /\ (Scenario.bend <> [] ->
      is_nan (minLng b) = false /\ is_nan (minLat b) = false
      /\ is_nan (maxLng b) = false /\ is_nan (maxLat b) = false)
  /\ forall c, c ∈ Scenario.bend ->
       (pos0 c <? minLng b)%float = false
       /\ (maxLng b <? pos0 c)%float = false
       /\ (pos1 c <? minLat b)%float = false
       /\ (maxLat b <? pos1 c)%float = false.
Proof.
  apply (bounds_contain Scenario.bend).
  repeat constructor.
Defined.

(** The outcomes of [calculate], case by case. *)
Lemma calculate_cases (waypoints : list Waypoint)
    (provider : Settled (option DirectionsResponse))
    (stepId : nat -> string) :
  match calculate waypoints provider stepId with
  | Rejected reason =>
      (2 <= length waypoints)%nat /\ provider = Rejected reason
  | Resolved None =>
      (length waypoints < 2)%nat \/ provider = Resolved None
  | Resolved (Some res) =>
      exists response,
        (2 <= length waypoints)%nat
        /\ provider = Resolved (Some response)
        /\ geometry (rc_route res) = dr_geometry response
        /\ route_waypoints (rc_route res) = waypoints
        /\ bounds (rc_route res) = calculateBounds (dr_geometry response)
        /\ steps (rc_route res) = rc_steps res
        /\ length (rc_steps res) = length (dr_steps response)
        /\ ns_index <$> rc_steps res
           = Z.of_nat <$> seq 0 (length (rc_steps res))
        /\ ns_id <$> rc_steps res
           = stepId <$> seq 0 (length (rc_steps res))
        /\ ns_instruction <$> rc_steps res
           = ds_instruction <$> dr_steps response
        /\ ns_maneuverType <$> rc_steps res
           = ds_maneuverType <$> dr_steps response
        /\ stepCount (rc_stats res) = Z.of_nat (length (rc_steps res))
        /\ waypointCount (rc_stats res) = Z.of_nat (length waypoints)
        /\ distanceMeters (rc_stats res) = dr_distanceMeters response
        /\ durationSeconds (rc_stats res) = dr_durationSeconds response
  end.
Proof.
  unfold calculate.
  destruct (Z.ltb_spec (Z.of_nat (length waypoints)) 2) as [Hs|Hl].
  { left. lia. }
  destruct provider as [[response|]|reason]; [|by right|split; [lia|done]].
  exists response. cbn [rc_route rc_stats rc_steps geometry route_waypoints
    bounds steps stepCount waypointCount distanceMeters durationSeconds].
  rewrite length_imap.
  split_and!; try done; try lia.
  - rewrite fmap_imap.
    rewrite <- (imap_seq (dr_steps response) (fun j => Z.of_nat j)).
    by apply imap_ext.
  - rewrite fmap_imap.
    rewrite <- (imap_seq (dr_steps response) stepId).
    by apply imap_ext.
  - rewrite fmap_imap. rewrite <- (imap_const ds_instruction).
    by apply imap_ext.
  - rewrite fmap_imap. rewrite <- (imap_const ds_maneuverType).
    by apply imap_ext.
Qed.

(** X23. [calculate] asks the source only for 2 waypoints or more, and
    passes its refusal or its failure on.  From a response it builds a
    route with the response's geometry and the given waypoints, steps
    numbered from 0 in the order of the response, each with its own
    generated id and the fields of the response's step, and statistics
    whose counts are the lengths of those lists. *)
Theorem calculate_shape (waypoints : list Waypoint)
    (provider : Settled (option DirectionsResponse))
    (stepId : nat -> string) :
  match calculate waypoints provider stepId with
  | Rejected reason =>
      (2 <= length waypoints)%nat /\ provider = Rejected reason
  | Resolved None =>
      (length waypoints < 2)%nat \/ provider = Resolved None
  | Resolved (Some res) =>
      exists response,
        (2 <= length waypoints)%nat
        /\ provider = Resolved (Some response)
        /\ geometry (rc_route res) = dr_geometry response
        /\ route_waypoints (rc_route res) = waypoints
        /\ bounds (rc_route res) = calculateBounds (dr_geometry response)
        /\ steps (rc_route res) = rc_steps res
        /\ length (rc_steps res) = length (dr_steps response)
        /\ ns_index <$> rc_steps res
           = Z.of_nat <$> seq 0 (length (rc_steps res))
        /\ ns_id <$> rc_steps res
           = stepId <$> seq 0 (length (rc_steps res))
        /\ ns_instruction <$> rc_steps res
           = ds_instruction <$> dr_steps response
        /\ ns_maneuverType <$> rc_steps res
           = ds_maneuverType <$> dr_steps response
        /\ stepCount (rc_stats res) = Z.of_nat (length (rc_steps res))
        /\ waypointCount (rc_stats res) = Z.of_nat (length waypoints)
        /\ distanceMeters (rc_stats res) = dr_distanceMeters response
        /\ durationSeconds (rc_stats res) = dr_durationSeconds response
  end.
Proof. apply calculate_cases. Qed.

End AdapterFacts.

(** ** The Planner, over any sequence of calls *)

Module PlannerMore.
Import RoutePlanner Runs.

(** [recalculate] touches neither the waypoints nor the history, the
    options, the disposed flag or the cancellation count. *)
Lemma recalculate_frame env p :
  waypointRepo (recalculate env p).2 = waypointRepo p
  /\ history (recalculate env p).2 = history p
  /\ options (recalculate env p).2 = options p
  /\ disposed (recalculate env p).2 = disposed p.
Proof. unfold recalculate. PlannerFacts.split_calls; by cbn. Qed.

Lemma finish_state {A} (a : A) env p :
  (finish a env p).2
  = if autoRecalculate (options p) then (recalculate env p).2 else p.
Proof.
  unfold finish. destruct (autoRecalculate (options p)); [|done].
  by destruct (recalculate env p).
Qed.

(** Every call but [clear] and [dispose], on a live Planner, is a step that
    leaves route, statistics and flags alone and emits at most one event of
    its own, followed or not by a recalculation; it is followed by one only
    if [autoRecalculate] is set or the call is [recalculate], and it is not
    followed by one, with [autoRecalculate] set, only if the waypoints are
    as they were. *)
Lemma exec_shape c env p :
  disposed p = false -> c <> Clear -> c <> Dispose ->
  exists q l,
    currentRoute q = currentRoute p
    /\ currentStats q = currentStats p
    /\ calculating q = calculating p
    /\ options q = options p
    /\ disposed q = false
    /\ emitted q = emitted p ++ l
    /\ (length l <= 1)%nat
    /\ (forall ev, ev ∈ l -> ev.1 ∈ mutation_events)
    /\ ((exec c env p = q /\ c <> Recalculate
         /\ (autoRecalculate (options p) = false
             \/ waypointRepo q = waypointRepo p))
        \/ (exec c env p = (recalculate env q).2
            /\ (autoRecalculate (options p) = true \/ c = Recalculate))).
Proof.
  intros Hd Hc1 Hc2.
  assert (Hnil : forall ev : string * RouteEvent,
            ev ∈ [] -> ev.1 ∈ mutation_events)
    by (intros ev Hev; by apply elem_of_nil in Hev).
  assert (Hone : forall (name : string) (d : RouteEvent),
            name ∈ mutation_events ->
            forall ev, ev ∈ [(name, d)] -> ev.1 ∈ mutation_events).
  { intros name d Hn ev Hev. apply list_elem_of_singleton in Hev.
    by subst ev. }
  assert (Hfin : forall (A : Type) (a : A) (q : t) (l : list (string * RouteEvent)),
            currentRoute q = currentRoute p ->
            currentStats q = currentStats p ->
            calculating q = calculating p ->
            options q = options p ->
            disposed q = false ->
            emitted q = emitted p ++ l ->
            (length l <= 1)%nat ->
            (forall ev, ev ∈ l -> ev.1 ∈ mutation_events) ->
            c <> Recalculate ->
            exists q' l',
              currentRoute q' = currentRoute p
              /\ currentStats q' = currentStats p
              /\ calculating q' = calculating p
              /\ options q' = options p
              /\ disposed q' = false
              /\ emitted q' = emitted p ++ l'
              /\ (length l' <= 1)%nat
              /\ (forall ev, ev ∈ l' -> ev.1 ∈ mutation_events)
              /\ (((finish a env q).2 = q' /\ c <> Recalculate
                   /\ (autoRecalculate (options p) = false
                       \/ waypointRepo q' = waypointRepo p))
                  \/ ((finish a env q).2 = (recalculate env q').2
                      /\ (autoRecalculate (options p) = true
                          \/ c = Recalculate)))).
  { intros A a q l H1 H2 H3 H4 H5 H6 H7 H8 H9. exists q, l.
    rewrite finish_state, H4.
    split_and!; try done.
    destruct (autoRecalculate (options p)); [right|left]; by eauto. }
  assert (Hstay : forall (q : t) (l : list (string * RouteEvent)),
            currentRoute q = currentRoute p ->
            currentStats q = currentStats p ->
            calculating q = calculating p ->
            options q = options p ->
            disposed q = false ->
            emitted q = emitted p ++ l ->
            (length l <= 1)%nat ->
            (forall ev, ev ∈ l -> ev.1 ∈ mutation_events) ->
            waypointRepo q = waypointRepo p ->
            c <> Recalculate ->
            exists q' l',
              currentRoute q' = currentRoute p
              /\ currentStats q' = currentStats p
              /\ calculating q' = calculating p
              /\ options q' = options p
              /\ disposed q' = false
              /\ emitted q' = emitted p ++ l'
              /\ (length l' <= 1)%nat
              /\ (forall ev, ev ∈ l' -> ev.1 ∈ mutation_events)
              /\ ((q = q' /\ c <> Recalculate
                   /\ (autoRecalculate (options p) = false
                       \/ waypointRepo q' = waypointRepo p))
                  \/ (q = (recalculate env q').2
                      /\ (autoRecalculate (options p) = true
                          \/ c = Recalculate)))).
  { intros q l H1 H2 H3 H4 H5 H6 H7 H8 H9 H10. exists q, l.
    split_and!; try done. left. by eauto. }
  destruct c; try done; cbn [exec].
  - (* addWaypoint *)
    unfold addWaypoint. rewrite Hd.
    destruct (WaypointRepository.add _ _ _ _ _) as [w r] eqn:Hadd.
    eapply (Hfin _ w _ [_]);
      [done|done|done|done|done|cbn; reflexivity|cbn; lia| |done].
    apply Hone. unfold mutation_events.
    repeat first [apply list_elem_of_here | apply list_elem_of_further].
  - (* insertWaypoint *)
    unfold insertWaypoint. rewrite Hd.
    destruct (WaypointRepository.insert _ _ _ _ _ _) as [w r] eqn:Hins.
    eapply (Hfin _ w _ [_]);
      [done|done|done|done|done|cbn; reflexivity|cbn; lia| |done].
    apply Hone. unfold mutation_events.
    repeat first [apply list_elem_of_here | apply list_elem_of_further].
  - (* removeWaypoint *)
    unfold removeWaypoint. rewrite Hd.
    destruct (WaypointRepository.getById _ _) as [w|].
    + eapply (Hfin _ tt _ [_]);
        [done|done|done|done|done|cbn; reflexivity|cbn; lia| |done].
      apply Hone. unfold mutation_events.
      repeat first [apply list_elem_of_here | apply list_elem_of_further].
    + cbn [snd].
      apply (Hstay p []);
        [done|done|done|done|done|by rewrite app_nil_r|cbn; lia|done|done
        |done].
  - (* updateWaypoint *)
    unfold updateWaypoint. rewrite Hd.
    destruct (WaypointRepository.getById _ (waypointRepo p)) as [w|] eqn:Hw.
    + pose proof (StoreMore.update_cases waypointId coordinate
                    (waypointRepo p)) as Hx.
      rewrite Hw in Hx. destruct Hx as (k & _ & Hu & Hg & _).
      cbn [waypointRepo set_repo set_history].
      rewrite Hu in Hg |- *. cbn [snd] in Hg.
      cbn [waypointRepo set_repo set_history]. rewrite Hg.
      eapply (Hfin _ tt _ [_]);
        [done|done|done|done|done|cbn; reflexivity|cbn; lia| |done].
      apply Hone. unfold mutation_events.
      repeat first [apply list_elem_of_here | apply list_elem_of_further].
    + cbn [snd].
      apply (Hstay p []);
        [done|done|done|done|done|by rewrite app_nil_r|cbn; lia|done|done
        |done].
  - (* reorderWaypoints *)
    unfold reorderWaypoints. rewrite Hd.
    cbn [waypointRepo set_repo set_history].
    pose proof (StoreMore.reorder_cases fromIndex toIndex (waypointRepo p))
      as (_ & Hfail & _).
    destruct (WaypointRepository.reorder _ _ _) as [[|] r] eqn:Hre;
      cbn [negb].
    + eapply (Hfin _ tt _ [_]);
        [done|done|done|done|done|cbn; reflexivity|cbn; lia| |done].
      apply Hone. unfold mutation_events.
      repeat first [apply list_elem_of_here | apply list_elem_of_further].
    + cbn [snd]. cbn [fst snd] in Hfail.
      eapply (Hstay _ []);
        [done|done|done|done|done|by rewrite app_nil_r|cbn; lia|done|
        |done].
      cbn. by apply Hfail.
  - (* undo *)
    unfold undo. rewrite Hd.
    destruct (HistoryManagerImpl.undo _) as [[e|] h].
    + eapply (Hfin _ true _ [_]);
        [done|done|done|done|done|cbn; reflexivity|cbn; lia| |done].
      apply Hone. unfold mutation_events.
      repeat first [apply list_elem_of_here | apply list_elem_of_further].
    + cbn [snd].
      eapply (Hstay _ []);
        [done|done|done|done|done|by rewrite app_nil_r|cbn; lia|done|done
        |done].
  - (* redo *)
    unfold redo. rewrite Hd.
    destruct (HistoryManagerImpl.redo _) as [[e|] h].
    + eapply (Hfin _ true _ [_]);
        [done|done|done|done|done|cbn; reflexivity|cbn; lia| |done].
      apply Hone. unfold mutation_events.
      repeat first [apply list_elem_of_here | apply list_elem_of_further].
    + cbn [snd].
      eapply (Hstay _ []);
        [done|done|done|done|done|by rewrite app_nil_r|cbn; lia|done|done
        |done].
  - (* recalculate *)
    exists p, []. rewrite app_nil_r.
    split_and!; try done; [cbn; lia|]. right. by eauto.
  - (* on *)
    unfold on. destruct (EventBusImpl.on _ _ _) as [hd b]. cbn [snd].
    eapply (Hstay _ []);
      [done|done|done|done|done|by rewrite app_nil_r|cbn; lia|done|done
      |done].
  - (* off *)
    eapply (Hstay _ []);
      [done|done|done|done|done|by rewrite app_nil_r|cbn; lia|done|done
      |done].
  - (* once *)
    unfold once. destruct (EventBusImpl.once _ _ _) as [hd b]. cbn [snd].
    eapply (Hstay _ []);
      [done|done|done|done|done|by rewrite app_nil_r|cbn; lia|done|done
      |done].
Qed.

Lemma finish_frame {A} (a : A) env p :
  waypointRepo (finish a env p).2 = waypointRepo p
  /\ history (finish a env p).2 = history p
  /\ options (finish a env p).2 = options p.
Proof.
  rewrite finish_state. destruct (autoRecalculate (options p)); [|done].
  by destruct (recalculate_frame env p) as (? & ? & ? & ?).
Qed.

(** On a disposed Planner every call but [dispose] leaves all but the
    listeners as it is. *)
Lemma exec_dead c env p :
  disposed p = true -> c <> Dispose ->
  waypointRepo (exec c env p) = waypointRepo p
  /\ history (exec c env p) = history p
  /\ options (exec c env p) = options p
  /\ currentRoute (exec c env p) = currentRoute p
  /\ currentStats (exec c env p) = currentStats p
  /\ calculating (exec c env p) = calculating p
  /\ emitted (exec c env p) = emitted p.
Proof.
  intros Hd Hc. destruct c; try done; cbn [exec].
  all: unfold addWaypoint, insertWaypoint, removeWaypoint, updateWaypoint,
         reorderWaypoints, clear, undo, redo, recalculate;
       rewrite Hd; done.
Qed.

Lemma call_cases (c : Call) :
  c = Clear \/ c = Dispose \/ (c <> Clear /\ c <> Dispose).
Proof.
  destruct c; first [by left | by right; left | by right; right].
Qed.

(** What a call does to the options, the repository and the history: the
    options stay, the repository keeps its indices in order, and the
    history goes through public calls of the manager only. *)
Lemma exec_stores c env p :
  options (exec c env p) = options p
  /\ (WaypointRepository.index_invariant (waypointRepo p) ->
      WaypointRepository.index_invariant (waypointRepo (exec c env p)))
  /\ exists ops, history (exec c env p) = history_run ops (history p).
Proof.
  destruct (disposed p) eqn:Hd.
  { destruct (call_cases c) as [->|[->|[_ Hc]]].
    - destruct (exec_dead Clear env p Hd) as (Hr & Hh & Ho & _); [done|].
      rewrite Hr, Hh, Ho. split_and!; [done|done|by exists []].
    - cbn [exec dispose options waypointRepo history].
      split_and!; [done|done|by exists [HClear]].
    - destruct (exec_dead c env p Hd Hc) as (Hr & Hh & Ho & _).
      rewrite Hr, Hh, Ho. split_and!; [done|done|by exists []]. }
  destruct c; cbn [exec].
  - unfold addWaypoint. rewrite Hd.
    pose proof (WaypointRepositoryFacts.add_invariant coordinate name
                  (env_id env) (env_now env) (waypointRepo p)) as Hinv.
    cbn [waypointRepo set_history].
    destruct (WaypointRepository.add _ _ _ _ _) as [w r].
    match goal with
    | |- context [finish ?a ?e ?q] =>
        destruct (finish_frame a e q) as (Hr & Hh & Ho)
    end.
    rewrite Hr, Hh, Ho. cbn. split_and!; [done|done|].
    by exists [HPush (waypointRepo p) ActAdd (env_pushed env)].
  - unfold insertWaypoint. rewrite Hd.
    pose proof (WaypointRepositoryFacts.insert_invariant coordinate index
                  name (env_id env) (env_now env) (waypointRepo p)) as Hinv.
    cbn [waypointRepo set_history].
    destruct (WaypointRepository.insert _ _ _ _ _ _) as [w r].
    match goal with
    | |- context [finish ?a ?e ?q] =>
        destruct (finish_frame a e q) as (Hr & Hh & Ho)
    end.
    rewrite Hr, Hh, Ho. cbn. split_and!; [done|done|].
    by exists [HPush (waypointRepo p) ActAdd (env_pushed env)].
  - unfold removeWaypoint. rewrite Hd.
    destruct (WaypointRepository.getById _ _) as [w|].
    + match goal with
      | |- context [finish ?a ?e ?q] =>
          destruct (finish_frame a e q) as (Hr & Hh & Ho)
      end.
      rewrite Hr, Hh, Ho. cbn. split_and!; [done| |].
      * apply WaypointRepositoryFacts.remove_invariant.
      * by exists [HPush (waypointRepo p) ActRemove (env_pushed env)].
    + cbn [snd]. split_and!; [done|done|by exists []].
  - unfold updateWaypoint. rewrite Hd.
    destruct (WaypointRepository.getById _ (waypointRepo p)) as [w|] eqn:Hw.
    + pose proof (StoreMore.update_cases waypointId coordinate
                    (waypointRepo p)) as Hx.
      pose proof (WaypointRepositoryFacts.update_invariant waypointId
                    coordinate (waypointRepo p)) as Hinv.
      rewrite Hw in Hx. destruct Hx as (k & _ & Hu & Hg & _).
      cbn [waypointRepo set_repo set_history].
      rewrite Hu in Hg, Hinv |- *. cbn [snd] in Hg, Hinv.
      cbn [waypointRepo set_repo set_history]. rewrite Hg.
      match goal with
      | |- context [finish ?a ?e ?q] =>
          destruct (finish_frame a e q) as (Hr & Hh & Ho)
      end.
      rewrite Hr, Hh, Ho. cbn. split_and!; [done|done|].
      by exists [HPush (waypointRepo p) ActUpdate (env_pushed env)].
    + cbn [snd]. split_and!; [done|done|by exists []].
  - unfold reorderWaypoints. rewrite Hd.
    cbn [waypointRepo set_repo set_history].
    pose proof (WaypointRepositoryFacts.reorder_invariant fromIndex toIndex
                  (waypointRepo p)) as Hinv.
    destruct (WaypointRepository.reorder _ _ _) as [[|] r]; cbn [negb].
    + match goal with
      | |- context [finish ?a ?e ?q] =>
          destruct (finish_frame a e q) as (Hr & Hh & Ho)
      end.
      rewrite Hr, Hh, Ho. cbn. split_and!; [done|done|].
      by exists [HPush (waypointRepo p) ActReorder (env_pushed env)].
    + cbn. split_and!; [done|done|].
      by exists [HPush (waypointRepo p) ActReorder (env_pushed env)].
  - unfold clear. rewrite Hd.
    destruct (0 <? _); cbn; (split_and!; [done|done|]).
    + by exists [HPush (waypointRepo p) ActClear (env_pushed env)].
    + by exists [].
  - unfold undo. rewrite Hd.
    destruct (HistoryManagerImpl.undo _) as [[e|] h] eqn:Hu.
    + match goal with
      | |- context [finish ?a ?e ?q] =>
          destruct (finish_frame a e q) as (Hr & Hh & Ho)
      end.
      rewrite Hr, Hh, Ho. cbn. split_and!; [done| |].
      * intros _. apply WaypointRepositoryFacts.setAll_invariant.
      * exists [HUndo]. cbn. by rewrite Hu.
    + cbn. split_and!; [done|done|]. exists [HUndo]. cbn. by rewrite Hu.
  - unfold redo. rewrite Hd.
    destruct (HistoryManagerImpl.redo _) as [[e|] h] eqn:Hu.
    + match goal with
      | |- context [finish ?a ?e ?q] =>
          destruct (finish_frame a e q) as (Hr & Hh & Ho)
      end.
      rewrite Hr, Hh, Ho. cbn. split_and!; [done| |].
      * intros _. apply WaypointRepositoryFacts.setAll_invariant.
      * exists [HRedo]. cbn. by rewrite Hu.
    + cbn. split_and!; [done|done|]. exists [HRedo]. cbn. by rewrite Hu.
  - destruct (recalculate_frame env p) as (Hr & Hh & Ho & _).
    rewrite Hr, Hh, Ho. split_and!; [done|done|by exists []].
  - cbn. split_and!; [done|done|by exists [HClear]].
  - unfold on. destruct (EventBusImpl.on _ _ _) as [hd b]. cbn.
    split_and!; [done|done|by exists []].
  - cbn. split_and!; [done|done|by exists []].
  - unfold once. destruct (EventBusImpl.once _ _ _) as [hd b]. cbn.
    split_and!; [done|done|by exists []].
Qed.

Lemma run_stores calls : forall p,
  options (planner_run calls p) = options p
  /\ (WaypointRepository.index_invariant (waypointRepo p) ->
      WaypointRepository.index_invariant
        (waypointRepo (planner_run calls p)))
  /\ exists ops, history (planner_run calls p) = history_run ops (history p).
Proof.
  unfold planner_run.
  induction calls as [|[c env] calls IH]; intros p; cbn [fold_left fst snd].
  - split_and!; [done|done|by exists []].
  - destruct (IH (exec c env p)) as (Ho & Hi & ops & Hh).
    destruct (exec_stores c env p) as (Ho' & Hi' & ops' & Hh').
    split_and!.
    + by rewrite Ho.
    + intros Hinv. by apply Hi, Hi'.
    + exists (ops' ++ ops). rewrite Hh, Hh'. unfold history_run.
      by rewrite fold_left_app.
Qed.

(** A recalculation leaves route and statistics in agreement, and the
    Planner not calculating. *)
Lemma recalculate_agree env p :
  route_stats_agree p -> calculating p = false ->
  route_stats_agree (recalculate env p).2
  /\ calculating (recalculate env p).2 = false.
Proof.
  intros Ha Hc. unfold recalculate.
  destruct (disposed p); [done|].
  destruct (Z.of_nat (length _) <? 2).
  - by destruct (currentStats p).
  - pose proof (AdapterFacts.calculate_cases
                  (WaypointRepository.getAll (waypointRepo p))
                  (env_provider env) (env_stepId env)) as Hcalc.
    destruct (RouteCalculatorAdapter.calculate _ _ _) as [[res|]|reason].
    + destruct Hcalc
        as (resp & Hlen & _ & _ & Hw & _ & Hs & _ & Hidx & _ & _ & _
            & Hsc & Hwc & _).
      split; [|done]. unfold route_stats_agree. cbn.
      rewrite Hs, Hsc, Hwc. unfold WaypointRepository.getAll in *.
      split_and!; [done|lia|done].
    + done.
    + done.
Qed.

(** A recalculation that ends with fewer than two waypoints ends with no
    route. *)
Lemma recalculate_short env p :
  disposed p = false ->
  (length (waypointRepo p) < 2)%nat ->
  currentRoute (recalculate env p).2 = None
  /\ currentStats (recalculate env p).2 = None.
Proof.
  intros Hd Hlen. unfold recalculate. rewrite Hd.
  unfold WaypointRepository.getAll.
  destruct (Z.ltb_spec (Z.of_nat (length (waypointRepo p))) 2); [|lia].
  by destruct (currentStats p).
Qed.

Lemma exec_agree c env p :
  route_stats_agree p /\ calculating p = false ->
  route_stats_agree (exec c env p) /\ calculating (exec c env p) = false.
Proof.
  intros [Ha Hc].
  destruct (call_cases c) as [->|[->|[Hc1 Hc2]]].
  - cbn [exec]. unfold clear. destruct (disposed p); [by split|].
    destruct (0 <? _); by split.
  - by split.
  - destruct (disposed p) eqn:Hd.
    + destruct (exec_dead c env p Hd Hc2) as (_ & _ & _ & Hr & Hs & Hk & _).
      unfold route_stats_agree. by rewrite Hr, Hs, Hk.
    + destruct (exec_shape c env p Hd Hc1 Hc2)
        as (q & l & Hr & Hs & Hk & _ & _ & _ & _ & _ & Hq).
      assert (Hq' : route_stats_agree q /\ calculating q = false)
        by (unfold route_stats_agree; by rewrite Hr, Hs, Hk).
      destruct Hq as [(-> & _)|(-> & _)]; [done|].
      destruct Hq' as [Hq1 Hq2]. by apply recalculate_agree.
Qed.

Lemma exec_short c env p :
  autoRecalculate (options p) = true ->
  ((length (waypointRepo p) < 2)%nat ->
   currentRoute p = None /\ currentStats p = None) ->
  (length (waypointRepo (exec c env p)) < 2)%nat ->
  currentRoute (exec c env p) = None /\ currentStats (exec c env p) = None.
Proof.
  intros Hauto Hp.
  destruct (call_cases c) as [->|[->|[Hc1 Hc2]]].
  - cbn [exec]. unfold clear. destruct (disposed p) eqn:Hd; [exact Hp|].
    intros _. by split.
  - intros _. by split.
  - destruct (disposed p) eqn:Hd.
    + destruct (exec_dead c env p Hd Hc2) as (Hw & _ & _ & Hr & Hs & _).
      by rewrite Hw, Hr, Hs.
    + destruct (exec_shape c env p Hd Hc1 Hc2)
        as (q & l & Hr & Hs & _ & _ & Hdq & _ & _ & _ & Hq).
      destruct Hq as [(-> & _ & [Hoff|Hw])|(-> & _)].
      * congruence.
      * by rewrite Hr, Hs, Hw.
      * rewrite (proj1 (recalculate_frame env q)). intros Hlen.
        by apply recalculate_short.
Qed.

Lemma run_agree calls : forall p,
  route_stats_agree p /\ calculating p = false ->
  route_stats_agree (planner_run calls p)
  /\ calculating (planner_run calls p) = false.
Proof.
  unfold planner_run.
  induction calls as [|[c env] calls IH]; intros p Hp; cbn [fold_left fst snd];
    [done|].
  by apply IH, exec_agree.
Qed.

Lemma run_short calls : forall p,
  autoRecalculate (options p) = true ->
  ((length (waypointRepo p) < 2)%nat ->
   currentRoute p = None /\ currentStats p = None) ->
  (length (waypointRepo (planner_run calls p)) < 2)%nat ->
  currentRoute (planner_run calls p) = None
  /\ currentStats (planner_run calls p) = None.
Proof.
  unfold planner_run.
  induction calls as [|[c env] calls IH]; intros p Hauto Hp;
    cbn [fold_left fst snd]; [done|].
  apply IH.
  - by rewrite (proj1 (exec_stores c env p)).
  - by apply exec_short.
Qed.

(** X24. Whatever public calls are made on a Planner, with whatever ids,
    clock values and answers of the directions source, the waypoints it
    holds carry the indices 0, 1, 2, ... in order; this includes the lists
    put back by [undo] and [redo]. *)
Theorem planner_keeps_indices (opts : RoutePlannerOptions)
    (calls : list (Call * Env)) :
  let p := planner_run calls (new opts) in
  exists ws,
    getWaypoints p = Ret ws
    /\ wp_index <$> ws = Z.of_nat <$> seq 0 (length ws).
Proof.
  intros p. exists (waypointRepo p). split; [done|].
  by apply (run_stores calls (new opts)).
Qed.

(** X25. A Planner built with [maxHistorySize >= 1] never holds more
    history entries than that, whatever calls are made on it, and its
    history cursor stays between -1 and the last entry. *)
Theorem planner_history_bounded (opts : RoutePlannerOptions)
    (calls : list (Call * Env)) :
  1 <= maxHistorySize opts ->
  let p := planner_run calls (new opts) in
  exists n,
    getHistorySize p = Ret n
    /\ 0 <= n <= maxHistorySize opts
    /\ -1 <= HistoryManagerImpl.currentIndex (history p) < n.
Proof.
  intros Hm p.
  destruct (run_stores calls (new opts)) as (_ & _ & ops & Hh).
  fold p in Hh. cbn [history new] in Hh.
  destruct (HistoryMore.run_ok ops
              (HistoryManagerImpl.new (maxHistorySize opts)) Hm
              (HistoryMore.new_ok _ Hm)) as [Hok Hmax].
  rewrite <- Hh in Hok, Hmax. cbn [HistoryManagerImpl.maxSize
    HistoryManagerImpl.new] in Hmax.
  pose proof (HistoryMore.cursor_range _ Hok) as Hc.
  destruct Hok as [Hb _]. rewrite Hmax in Hb.
  exists (HistoryManagerImpl.getSize (history p)).
  unfold HistoryManagerImpl.getSize. split_and!; [done|lia|done|lia|lia].
Qed.

Lemma planner_history_bounded_witness :
  let p := planner_run [(AddWaypoint Scenario.origin None, Scenario.env_a);
                        (AddWaypoint Scenario.corner None, Scenario.env_b)]
             (new DEFAULT_OPTIONS) in
  exists n,
    getHistorySize p = Ret n
    /\ 0 <= n <= 50
    /\ -1 <= HistoryManagerImpl.currentIndex (history p) < n.
Proof.
  apply (planner_history_bounded DEFAULT_OPTIONS
           [(AddWaypoint Scenario.origin None, Scenario.env_a);
            (AddWaypoint Scenario.corner None, Scenario.env_b)]).
  vm_compute. discriminate.
Defined.

(** X26. After any sequence of public calls, each run to completion before
    the next, the Planner is not calculating, and its route and statistics
    go together: both absent, or both present, with the statistics
    counting the steps of that route and at least two waypoints, and the
    steps numbered from 0.  The [waypoints] array of the held route is the
    repository's own and is not part of this. *)
Theorem route_and_stats_agree (opts : RoutePlannerOptions)
    (calls : list (Call * Env)) :
  let p := planner_run calls (new opts) in
  route_stats_agree p /\ isCalculating p = Ret false.
Proof.
  intros p.
  destruct (run_agree calls (new opts)) as [Ha Hc]; [done|].
  split; [done|]. unfold isCalculating. by f_equal.
Qed.

(** X27. With [autoRecalculate] set, a Planner that holds fewer than two
    waypoints holds no route and no statistics, whatever calls led
    there. *)
Theorem no_route_below_two (opts : RoutePlannerOptions)
    (calls : list (Call * Env)) :
  autoRecalculate opts = true ->
  let p := planner_run calls (new opts) in
  (length (waypointRepo p) < 2)%nat ->
  getRoute p = Ret None /\ getStats p = Ret None.
Proof.
  intros Hauto p Hlen.
  destruct (run_short calls (new opts)) as [Hr Hs]; [done|done|done|].
  fold p in Hr, Hs. unfold getRoute, getStats. by rewrite Hr, Hs.
Qed.

Lemma no_route_below_two_witness :
  let p := planner_run [(AddWaypoint Scenario.origin None, Scenario.env_a)]
             (new DEFAULT_OPTIONS) in
  getRoute p = Ret None /\ getStats p = Ret None.
Proof.
  apply (no_route_below_two DEFAULT_OPTIONS
           [(AddWaypoint Scenario.origin None, Scenario.env_a)]).
  - reflexivity.
  - vm_compute. lia.
Defined.

(** What a call does to the route in manual mode, in terms of the fields
    of the Planner. *)
Lemma manual_mode_frame (c : Call) (env : Env) (p : t) :
  autoRecalculate (options p) = false ->
  c <> Clear -> c <> Recalculate -> c <> Dispose ->
  currentRoute (exec c env p) = currentRoute p
  /\ currentStats (exec c env p) = currentStats p
  /\ calculating (exec c env p) = calculating p
  /\ options (exec c env p) = options p
  /\ exists l,
       emitted (exec c env p) = emitted p ++ l
       /\ (length l <= 1)%nat
       /\ forall ev, ev ∈ l -> ev.1 ∈ mutation_events.
Proof.
  intros Hauto Hc1 Hc3 Hc2.
  destruct (disposed p) eqn:Hd.
  - destruct (exec_dead c env p Hd Hc2) as (_ & _ & Ho & Hr & Hs & Hk & He).
    rewrite Hr, Hs, Hk, He, Ho. split_and!; [done|done|done|done|].
    exists []. rewrite app_nil_r. split_and!; [done|cbn; lia|].
    intros ev Hev. by apply elem_of_nil in Hev.
  - destruct (exec_shape c env p Hd Hc1 Hc2)
      as (q & l & Hr & Hs & Hk & Ho & _ & He & Hl & Hn & Hq).
    destruct Hq as [(-> & _)|(_ & [Hon| ->])]; [|congruence|done].
    rewrite Hr, Hs, Hk, Ho. split_and!; [done|done|done|done|]. by exists l.
Qed.

(** X28. With [autoRecalculate] off, a call other than [clear],
    [recalculate] and [dispose] leaves the geometry, the steps and the
    bounds of the held route, the statistics and the calculating flag as
    they are, so the geometry queries answer as before; and it emits at
    most one event, which is one of [waypoint:added], [waypoint:removed],
    [waypoint:updated], [waypoint:reordered] and [history:change].  The
    [waypoints] array of the held route is the repository's own and is not
    part of this. *)
Theorem manual_mode_keeps_route (c : Call) (env : Env) (p : t) :
  autoRecalculate (options p) = false ->
  c <> Clear -> c <> Recalculate -> c <> Dispose ->
  let q := exec c env p in
  geometry <$> currentRoute q = geometry <$> currentRoute p
  /\ steps <$> currentRoute q = steps <$> currentRoute p
  /\ bounds <$> currentRoute q = bounds <$> currentRoute p
  /\ getNavigationSteps q = getNavigationSteps p
  /\ getStats q = getStats p
  /\ isCalculating q = isCalculating p
  /\ (forall (M : JsMath) coordinate threshold,
        getNearestPointOnRoute coordinate q
        = getNearestPointOnRoute coordinate p
        /\ isOffRoute coordinate threshold q
           = isOffRoute coordinate threshold p
        /\ getRemainingDistance coordinate q
           = getRemainingDistance coordinate p)
  /\ exists l,
       emitted q = emitted p ++ l
       /\ (length l <= 1)%nat
       /\ forall ev, ev ∈ l -> ev.1 ∈ mutation_events.
Proof.
  intros Hauto Hc1 Hc3 Hc2 q.
  destruct (manual_mode_frame c env p Hauto Hc1 Hc3 Hc2)
    as (Hr & Hs & Hk & Ho & Hl).
  fold q in Hr, Hs, Hk, Ho, Hl.
  unfold getNavigationSteps, getStats, isCalculating,
    getNearestPointOnRoute, isOffRoute, getRemainingDistance, has_route.
  rewrite Hr, Hs, Hk, Ho. split_and!; done.
Qed.

Lemma manual_mode_keeps_route_witness :
  let p := new (mkOptions 50 50%float false) in
  let q := exec (AddWaypoint Scenario.origin None) Scenario.env_a p in
  geometry <$> currentRoute q = geometry <$> currentRoute p
  /\ steps <$> currentRoute q = steps <$> currentRoute p
  /\ bounds <$> currentRoute q = bounds <$> currentRoute p
  /\ getNavigationSteps q = getNavigationSteps p
  /\ getStats q = getStats p
  /\ isCalculating q = isCalculating p
  /\ (forall (M : JsMath) coordinate threshold,
        getNearestPointOnRoute coordinate q
        = getNearestPointOnRoute coordinate p
        /\ isOffRoute coordinate threshold q
           = isOffRoute coordinate threshold p
        /\ getRemainingDistance coordinate q
           = getRemainingDistance coordinate p)
  /\ exists l,
       emitted q = emitted p ++ l
       /\ (length l <= 1)%nat
       /\ forall ev, ev ∈ l -> ev.1 ∈ mutation_events.
Proof.
  apply (manual_mode_keeps_route (AddWaypoint Scenario.origin None)
           Scenario.env_a (new (mkOptions 50 50%float false)));
    [reflexivity|discriminate|discriminate|discriminate].
Defined.

End PlannerMore.
